(** * VexFlow MusicXML backend (src/musicxml.js): model and properties

    The backend reads a partwise MusicXML document (a DOM tree), builds a
    timewise grid of measures, stores the attribute blocks it meets and
    decodes the notes of a measure on request.  This file embeds the
    backend's functions as Rocq functions over a small model of the DOM and
    of JavaScript values, and proves properties of them. *)

From Stdlib Require Import ZArith String Ascii List Lia Bool DecimalString.
From stdpp Require Import base option list gmap strings.

Set Warnings "-register-all".

Open Scope string_scope.
Open Scope Z_scope.

(** ** JavaScript numbers, as far as the backend meets them

    Every number of the backend comes from [parseInt] or from integer
    arithmetic on such numbers, so a number is an integer or NaN. *)

Inductive number : Type :=
  | NaN : number
  | Int (z : Z) : number.

Global Instance number_eq_dec : EqDecision number.
Proof. solve_decision. Defined.

Definition num_mul (a b : number) : number :=
  match a, b with
  | Int x, Int y => Int (x * y)
  | _, _ => NaN
  end.

Definition num_sub (a b : number) : number :=
  match a, b with
  | Int x, Int y => Int (x - y)
  | _, _ => NaN
  end.

(** [a > 0], [a == k]: comparisons with NaN are false. *)
Definition num_gt (a : number) (k : Z) : bool :=
  match a with Int x => k <? x | NaN => false end.

Definition num_eq (a : number) (k : Z) : bool :=
  match a with Int x => x =? k | NaN => false end.

Definition num_isNaN (a : number) : bool :=
  match a with NaN => true | Int _ => false end.

(** Truthiness of a number: 0 and NaN are falsy. *)
Definition num_truthy (a : number) : bool :=
  match a with Int x => negb (x =? 0) | NaN => false end.

(** [Number.prototype.toString] on the numbers above. *)
Definition Z_toString (z : Z) : string := NilZero.string_of_int (Z.to_int z).

Definition num_toString (a : number) : string :=
  match a with Int x => Z_toString x | NaN => "NaN" end.

(** ** parseInt

    [parseInt(s)] without a radix: leading white space is skipped, a sign
    is read, a [0x]/[0X] prefix selects base 16, and the longest prefix of
    digits is the value; no digit at all gives NaN.  White space is the
    ASCII white space. *)

Definition is_space (a : ascii) : bool :=
  let n := nat_of_ascii a in
  ((9 <=? n) && (n <=? 13))%nat || (n =? 32)%nat.

Fixpoint skip_space (s : string) : string :=
  match s with
  | String a r => if is_space a then skip_space r else s
  | EmptyString => s
  end.

Definition digit_value (radix : Z) (a : ascii) : option Z :=
  let n := Z.of_nat (nat_of_ascii a) in
  let d :=
    if (48 <=? n) && (n <=? 57) then Some (n - 48)
    else if (97 <=? n) && (n <=? 122) then Some (n - 87)
    else if (65 <=? n) && (n <=? 90) then Some (n - 55)
    else None in
  match d with
  | Some v => if v <? radix then Some v else None
  | None => None
  end.

(** The digits of [s] in base [radix]; [acc] is [None] until a digit is read. *)
Fixpoint read_digits (radix : Z) (s : string) (acc : option Z) : option Z :=
  match s with
  | String a r =>
      match digit_value radix a with
      | Some v => read_digits radix r (Some (default 0 acc * radix + v))
      | None => acc
      end
  | EmptyString => acc
  end.

Definition parseInt (s : string) : number :=
  let s := skip_space s in
  let '(sign, s) :=
    match s with
    | String "-" r => (-1, r)
    | String "+" r => (1, r)
    | _ => (1, s)
    end in
  let '(radix, s) :=
    match s with
    | String "0" (String "x" r) => (16, r)
    | String "0" (String "X" r) => (16, r)
    | _ => (10, s)
    end in
  match read_digits radix s None with
  | Some v => Int (sign * v)
  | None => NaN
  end.

(** ** The DOM

    A node is an element (tag name, attributes, children) or a text node. *)

Inductive Node : Type :=
  | Element (name : string) (attributes : list (string * string)) (children : list Node)
  | Text (data : string).

Definition nodeName (n : Node) : string :=
  match n with
  | Element name _ _ => name
  | Text _ => "#text"
  end.

Definition childNodes (n : Node) : list Node :=
  match n with
  | Element _ _ children => children
  | Text _ => []
  end.

Fixpoint textContent (n : Node) : string :=
  match n with
  | Text data => data
  | Element _ _ children =>
      (fix concat (l : list Node) : string :=
         match l with
         | [] => ""
         | c :: l' => textContent c ++ concat l'
         end) children
  end.

(** [getAttribute(name)]: the value of the attribute, [None] (null) when the
    element has no such attribute. *)
Definition getAttribute (n : Node) (name : string) : option string :=
  match n with
  | Element _ attributes _ =>
      snd <$> List.find (fun kv => String.eqb (fst kv) name) attributes
  | Text _ => None
  end.

(** The element descendants of [n] named [tag], in document order, [n]
    itself included when [self] is set. *)
Fixpoint descendants (self : bool) (tag : string) (n : Node) : list Node :=
  match n with
  | Text _ => []
  | Element name _ children =>
      ((if self && String.eqb name tag then [n] else []) ++
       (fix each (l : list Node) : list Node :=
          match l with
          | [] => []
          | c :: l' => descendants true tag c ++ each l'
          end) children)%list
  end.

Definition getElementsByTagName (n : Node) (tag : string) : list Node :=
  descendants false tag n.

(** ** Errors and results *)

Inductive error : Type :=
  | RERR (code message : string)     (* Vex.RuntimeError *)
  | TypeError (what : string)        (* property access on undefined or null,
                                        or a call of what is no function *)
  | RangeError (what : string).      (* new Array(n) with a bad length *)

Inductive result (A : Type) : Type :=
  | Ok (a : A)
  | Err (e : error).
Arguments Ok {A} a.
Arguments Err {A} e.

Definition bind {A B : Type} (r : result A) (f : A -> result B) : result B :=
  match r with
  | Ok a => f a
  | Err e => Err e
  end.

Notation "x <- r ;; k" := (bind r (fun x => k))
  (at level 100, r at next level, right associativity, only parsing).

(** [o] when it is defined; a TypeError named [what] when a property is read
    off an undefined value. *)
Definition defined {A : Type} (what : string) (o : option A) : result A :=
  match o with
  | Some a => Ok a
  | None => Err (TypeError what)
  end.

(** [elem.getElementsByTagName(tag)[0].textContent] *)
Definition firstText (elem : Node) (tag : string) : result string :=
  e <- defined tag (head (getElementsByTagName elem tag)) ;;
  Ok (textContent e).

(** ** JavaScript arrays

    An array has elements at some indices and a length; [arr[i] = x] beyond
    the length extends it and leaves holes. *)

Module JSArray.

Record t (A : Type) : Type := mk { elems : gmap nat A; length : nat }.
Arguments mk {A} elems length.
Arguments elems {A} _.
Arguments length {A} _.

Definition empty {A : Type} : t A := mk ∅ 0%nat.

(** [new Array(n)] for a natural number [n]: [n] holes. *)
Definition holes {A : Type} (n : nat) : t A := mk ∅ n.

Definition get {A : Type} (a : t A) (i : nat) : option A := elems a !! i.

(** [i in a] *)
Definition has {A : Type} (a : t A) (i : nat) : bool := bool_decide (is_Some (elems a !! i)).

(** [a[i] = x] *)
Definition set {A : Type} (a : t A) (i : nat) (x : A) : t A :=
  mk (<[i := x]> (elems a)) (Nat.max (length a) (S i)).

End JSArray.

(** ** Attribute snapshots

    [parseAttributes] stores, for a measure and a part, an object whose keys
    are the names of the children of the [<attributes>] element it knows:
    [key], [time], [clef], [divisions], and [staves] (always null). *)

Inductive Clef : Type := treble | bass.

Global Instance Clef_eq_dec : EqDecision Clef.
Proof. solve_decision. Defined.

(** The [clef] key holds a clef name or null, or an array of them, one slot
    per staff. *)
Inductive ClefAttr : Type :=
  | ClefScalar (c : option Clef)
  | ClefPerStaff (a : JSArray.t (option Clef)).

Record KeyAttr : Type := mkKey { fifths : number }.

Record TimeSig : Type := mkTime { num_beats : number; beat_value : number }.

Record Attributes : Type := mkAttributes {
  staves : option unit;
  key : option KeyAttr;
  time : option TimeSig;
  clef : option ClefAttr;
  divisions : option number
}.

(** The object [{}]. *)
Definition noAttributes : Attributes := mkAttributes None None None None None.

(** ** The backend object *)

Record MusicXML : Type := mkMusicXML {
  measures : JSArray.t (JSArray.t Node);
  numStaves : JSArray.t number;
  attributes : JSArray.t (JSArray.t Attributes);
  valid : option bool
}.

(** The object the constructor builds; [valid] is not set yet. *)
Definition newMusicXML : MusicXML :=
  mkMusicXML JSArray.empty JSArray.empty JSArray.empty None.

Definition set_measures (v : JSArray.t (JSArray.t Node)) (this : MusicXML) : MusicXML :=
  mkMusicXML v (numStaves this) (attributes this) (valid this).
Definition set_numStaves (v : JSArray.t number) (this : MusicXML) : MusicXML :=
  mkMusicXML (measures this) v (attributes this) (valid this).
Definition set_attributes (v : JSArray.t (JSArray.t Attributes)) (this : MusicXML) : MusicXML :=
  mkMusicXML (measures this) (numStaves this) v (valid this).
Definition set_valid (v : bool) (this : MusicXML) : MusicXML :=
  mkMusicXML (measures this) (numStaves this) (attributes this) (Some v).

Definition isValid (this : MusicXML) : option bool := valid this.

Definition getNumberOfMeasures (this : MusicXML) : nat := JSArray.length (measures this).

(** The snapshot stored for a measure and a part, if there is one. *)
Definition snapshot (this : MusicXML) (i p : nat) : option Attributes :=
  row ← JSArray.get (attributes this) i; JSArray.get row p.

(** ** parseAttributes *)

(** The end of an iteration of [parseAttributes]: the rows are created when
    they are missing, and [change] writes the key named after the child. *)
Definition storeAttribute (measureNum partNum : nat)
    (change : Attributes -> Attributes) (this : MusicXML) : MusicXML :=
  let row := default JSArray.empty (JSArray.get (attributes this) measureNum) in
  let object := default noAttributes (JSArray.get row partNum) in
  set_attributes
    (JSArray.set (attributes this) measureNum (JSArray.set row partNum (change object)))
    this.

(** [new Array(n)] for [n = this.numStaves[partNum]]: a number that is not a
    length is a RangeError, and [new Array(undefined)] is the one-element
    array [[undefined]], read like a hole. *)
Definition newArray {A : Type} (n : option number) : result (JSArray.t A) :=
  match n with
  | None => Ok (JSArray.holes 1)
  | Some (Int z) =>
      if (0 <=? z) && (z <? 2 ^ 32) then Ok (JSArray.holes (Z.to_nat z))
      else Err (RangeError "Invalid array length")
  | Some NaN => Err (RangeError "Invalid array length")
  end.

(** The values of the variable [attrObject] of [parseAttributes], which
    the call returns: undefined before the first child, null, or what a
    child declares. *)
Inductive AttrObject : Type :=
  | AttrUndefined
  | AttrNull
  | AttrKey (k : KeyAttr)
  | AttrTime (t : TimeSig)
  | AttrClef (c : Clef)
  | AttrClefs (a : JSArray.t (option Clef))
  | AttrDivisions (n : number).

(** The value of a [clef] key as a value of [attrObject]. *)
Definition clefObject (c : ClefAttr) : AttrObject :=
  match c with
  | ClefScalar None => AttrNull
  | ClefScalar (Some c) => AttrClef c
  | ClefPerStaff a => AttrClefs a
  end.

(** One iteration of the loop over the children of [<attributes>]: the
    backend after it, and the value it leaves in [attrObject], which is
    null from the start of the iteration on. *)
Definition parseAttribute (measureNum partNum : nat) (attr : Node)
    (this : MusicXML) : result (MusicXML * AttrObject) :=
  let name := nodeName attr in
  if String.eqb name "staves" then
    let this :=
      if (measureNum =? 0)%nat
      then set_numStaves (JSArray.set (numStaves this) partNum (parseInt (textContent attr))) this
      else this in
    Ok (storeAttribute measureNum partNum
          (fun o => mkAttributes (Some tt) (key o) (time o) (clef o) (divisions o)) this,
        AttrNull)
  else if String.eqb name "key" then
    f <- firstText attr "fifths" ;;
    let attrObject := mkKey (parseInt f) in
    Ok (storeAttribute measureNum partNum
          (fun o => mkAttributes (staves o) (Some attrObject) (time o) (clef o) (divisions o)) this,
        AttrKey attrObject)
  else if String.eqb name "time" then
    b <- firstText attr "beats" ;;
    t <- firstText attr "beat-type" ;;
    let attrObject := mkTime (parseInt b) (parseInt t) in
    Ok (storeAttribute measureNum partNum
          (fun o => mkAttributes (staves o) (key o) (Some attrObject) (clef o) (divisions o)) this,
        AttrTime attrObject)
  else if String.eqb name "clef" then
    (* parseInt(null) reads the string "null" *)
    let number := parseInt (default "null" (getAttribute attr "number")) in
    sign <- firstText attr "sign" ;;
    l <- firstText attr "line" ;;
    let line := parseInt l in
    let clef' :=
      if String.eqb sign "G" && num_eq line 2 then Some treble
      else if String.eqb sign "F" && num_eq line 4 then Some bass
      else None in
    attrObject <-
      (if num_gt number 0 then
         a <- match snapshot this measureNum partNum ≫= clef with
              | Some (ClefPerStaff a) => Ok a
              | _ => newArray (JSArray.get (numStaves this) partNum)
              end ;;
         match num_sub number (Int 1) with
         | Int i => Ok (ClefPerStaff (JSArray.set a (Z.to_nat i) clef'))
         | NaN => Ok (ClefPerStaff a)
         end
       else Ok (ClefScalar clef')) ;;
    Ok (storeAttribute measureNum partNum
          (fun o => mkAttributes (staves o) (key o) (time o) (Some attrObject) (divisions o)) this,
        clefObject attrObject)
  else if String.eqb name "divisions" then
    let attrObject := parseInt (textContent attr) in
    Ok (storeAttribute measureNum partNum
          (fun o => mkAttributes (staves o) (key o) (time o) (clef o) (Some attrObject)) this,
        AttrDivisions attrObject)
  else (* default: continue *) Ok (this, AttrNull).

(** The loop over the children: [attrObject] is the value the iteration
    before left. *)
Fixpoint parseAttributesLoop (measureNum partNum : nat) (attrs : list Node)
    (this : MusicXML) (attrObject : AttrObject) : result (MusicXML * AttrObject) :=
  match attrs with
  | [] => Ok (this, attrObject)
  | attr :: attrs' =>
      r <- parseAttribute measureNum partNum attr this ;;
      parseAttributesLoop measureNum partNum attrs' r.1 r.2
  end.

(** The call returns [attrObject] as the last iteration left it; the
    backend is the object the call works on. *)
Definition parseAttributes (measureNum partNum : nat) (attributes : Node)
    (this : MusicXML) : result (MusicXML * AttrObject) :=
  parseAttributesLoop measureNum partNum (childNodes attributes) this AttrUndefined.

(** ** parse

    The argument of [parse] and of [appearsValid] is a string, a DOM
    document (given by its document element) or something else. *)

Inductive Data : Type :=
  | DataString (text : string)
  | DataDocument (documentElement : Node)
  | DataOther.

(** Reading XML text into a DOM is the browser's.  What [parse] asks of
    the global object: [window.DOMParser], when it is defined, as the
    document element of the document [new
    window.DOMParser().parseFromString(data, "text/xml")] gives; whether
    [XMLDocument] is defined; and [window.ActiveXObject], when it is
    defined, as what [new window.ActiveXObject("Microsoft.XMLDOM")] does:
    it throws, or it gives a document object, taken as the document
    element the object has once [loadXML(data)] was called on it.  A
    document that could not be loaded has no document element (null). *)
Record Window : Type := mkWindow {
  DOMParser : option (string -> option Node);
  XMLDocument : bool;
  ActiveXObject : option (result (string -> option Node))
}.

(** A thrown error is [Err]: it ends the call, and the model does not
    follow the backend object past it.  The [return] inside the loops
    leaves them with [Return]. *)

Inductive flow : Type :=
  | Next (this : MusicXML)
  | Return (this : MusicXML).

(** The loop over [node.childNodes] of a part: [j] is the index of the
    child, [measureNum] counts the [<measure>] children met so far. *)
Fixpoint parseMeasures (partNum : nat) (children : list Node) (j measureNum : nat)
    (this : MusicXML) : result flow :=
  match children with
  | [] => Ok (Next this)
  | measure :: children' =>
      if negb (String.eqb (nodeName measure) "measure")
      then parseMeasures partNum children' (S j) measureNum this
      else
        let this :=
          if negb (JSArray.has (measures this) j)
          then set_measures (JSArray.set (measures this) measureNum JSArray.empty) this
          else this in
        row <- defined "measures[measureNum]" (JSArray.get (measures this) measureNum) ;;
        if negb (JSArray.length row =? partNum)%nat
        then (* Some part is missing a measure *)
          Ok (Return (set_valid false this))
        else
          let this :=
            set_measures (JSArray.set (measures this) measureNum
                            (JSArray.set row partNum measure)) this in
          this <- match head (getElementsByTagName measure "attributes") with
                  | Some attributes =>
                      (* the value the call returns is not used *)
                      r <- parseAttributes measureNum partNum attributes this ;;
                      Ok r.1
                  | None => Ok this
                  end ;;
          parseMeasures partNum children' (S j) (S measureNum) this
  end.

(** The loop over [documentElement.childNodes]. *)
Fixpoint parseParts (nodes : list Node) (partNum : nat) (this : MusicXML) : result flow :=
  match nodes with
  | [] => Ok (Next this)
  | node :: nodes' =>
      if String.eqb (nodeName node) "part" then
        r <- parseMeasures partNum (childNodes node) 0 0 this ;;
        match r with
        | Return this => Ok (Return this)
        | Next this =>
            (* numStaves defaults to 1 for this part *)
            let this :=
              if negb (JSArray.has (numStaves this) partNum)
              then set_numStaves (JSArray.set (numStaves this) partNum (Int 1)) this
              else this in
            parseParts nodes' (S partNum) this
        end
      else parseParts nodes' partNum this
  end.

Definition parse (window : Window) (this : MusicXML) (data : Data) : result MusicXML :=
  documentElement <-
    match data with
    | DataString text =>
        (* Parse XML string *)
        match DOMParser window, XMLDocument window with
        | Some parseFromString, true => Ok (parseFromString text)
        | _, _ =>
            match ActiveXObject window with
            | Some create =>
                _ <- create ;;                    (* the object of the test *)
                document <- create ;;
                Ok (document text)
            | None => Err (RERR "UnsupportedBrowserError" "No XML parser found")
            end
        end
    | DataDocument documentElement => Ok (Some documentElement)
    | DataOther =>
        let this := set_valid false this in
        Err (RERR "ArgumentError" "MusicXML requires XML string or DOM Document object")
    end ;;
  documentElement <- defined "this.documentElement" documentElement ;;
  if negb (String.eqb (nodeName documentElement) "score-partwise")
  then Err (RERR "ArgumentError" "VexFlow only supports partwise scores")
  else
    r <- parseParts (childNodes documentElement) 0 this ;;
    match r with
    | Return this => Ok this
    | Next this => Ok (set_valid true this)
    end.

(** ** getAttributes *)

(** Modelled from the spec: [Vex.Merge(destination, source)] is defined
    outside this file; it copies every key of [source] onto [destination],
    so a later snapshot overrides an earlier one key by key and a key it
    lacks keeps its value. *)
Definition Merge (destination source : Attributes) : Attributes :=
  let over {A : Type} (f : Attributes -> option A) : option A :=
    match f source with
    | Some v => Some v
    | None => f destination
    end in
  mkAttributes (over staves) (over key) (over time) (over clef) (over divisions).

Definition getAttributes (this : MusicXML) (m p : nat) : Attributes :=
  foldl
    (fun attrs i =>
       match JSArray.get (attributes this) i with
       | None => attrs
       | Some row =>
           match JSArray.get row p with
           | None => attrs
           | Some object => Merge attrs object
           end
       end)
    noAttributes (seq 0 (S m)).

(** ** Values of the local variables of parseNote

    [num_notes] and [beats_occupied] hold null, undefined, an element or a
    number in turn; the components of a fraction are values too. *)

Inductive value : Type :=
  | VUndefined
  | VNull
  | VNum (n : number)
  | VElem (e : Node).

Definition truthy (v : value) : bool :=
  match v with
  | VUndefined | VNull => false
  | VNum n => num_truthy n
  | VElem _ => true
  end.

(** The global [isNaN]: its argument is converted to a number first. *)
Definition isNaN (v : value) : bool :=
  match v with
  | VUndefined => true
  | VNull => false
  | VNum n => num_isNaN n
  | VElem _ => true
  end.

(** [v == 1] *)
Definition equals_one (v : value) : bool :=
  match v with
  | VNum n => num_eq n 1
  | _ => false
  end.

(** The first element of a node list as a value: [list[0]]. *)
Definition first_value (l : list Node) : value :=
  match l with
  | e :: _ => VElem e
  | [] => VUndefined
  end.

(** ** Vex.Flow.Fraction *)

Module Fraction.

(** Modelled from the spec: [new Vex.Flow.Fraction(numerator, denominator)]
    is an exact fraction, a numerator and a denominator. *)
Record t : Type := mk { numerator : value; denominator : value }.

(** Modelled from the spec: [Vex.Flow.Fraction] is defined outside this
    file.  The spec describes it as an exact fraction (numerator,
    denominator) kept in lowest terms by its reduction, and says of the
    tick computation that its numerator or denominator is not a number
    when the divisions are absent or zero.  So [simplify] divides both
    components of a fraction of integers with a denominator other than
    zero by their greatest common divisor, and gives components that
    are not numbers otherwise. *)
Definition simplify (f : t) : t :=
  match numerator f, denominator f with
  | VNum (Int u), VNum (Int d) =>
      if d =? 0 then mk (VNum NaN) (VNum NaN)
      else let gcd := Z.gcd u d in mk (VNum (Int (u / gcd))) (VNum (Int (d / gcd)))
  | _, _ => mk (VNum NaN) (VNum NaN)
  end.

End Fraction.

(** Modelled from the spec: [Vex.Assert(exp, msg)] is defined outside this
    file; a failed assertion is a contract violation and fails with a
    format error carrying the message. *)
Definition Assert (exp : bool) (msg : string) : result unit :=
  if exp then Ok tt else Err (RERR "RuntimeError" msg).

(** ** The object parseNote builds *)

Module Tuplet.
Record t : Type := mk { num_notes : value; beats_occupied : value }.
End Tuplet.

(** [intrinsicTicks] is a fraction, or its numerator alone. *)
Inductive ticks : Type :=
  | TicksNumber (n : value)
  | TicksFraction (f : Fraction.t).

(** [noteObj.duration] is read off an object literal, the table of the
    [<type>] names, and an object literal inherits the members of
    [Object.prototype].  So a duration is a string, or such a member (a
    function, or for [__proto__] the prototype itself), or a string made
    of the text the engine prints such a member as: [DurationMemberText
    name edit] is the string [edit t], where [t] is the text of the
    member [name], which differs from engine to engine. *)
Inductive Duration : Type :=
  | DurationString (s : string)
  | DurationMember (name : string)
  | DurationMemberText (name : string) (edit : string -> string).

Module NoteObj.

Record t : Type := mk {
  rest : bool;
  chord : bool;
  keys : option (list string);
  duration : option Duration;
  intrinsicTicks : option ticks;
  voice : option Z;
  stave : option Z;
  stem_direction : option Z;
  beam : option string;
  tie : option string;
  tickMultiplier : option Fraction.t;
  tuplet : option Tuplet.t
}.

(** [{rest: false, chord: false}] *)
Definition init : t :=
  mk false false None None None None None None None None None None.

Definition set_rest (v : bool) (o : t) : t :=
  mk v (chord o) (keys o) (duration o) (intrinsicTicks o) (voice o) (stave o)
     (stem_direction o) (beam o) (tie o) (tickMultiplier o) (tuplet o).
Definition set_chord (v : bool) (o : t) : t :=
  mk (rest o) v (keys o) (duration o) (intrinsicTicks o) (voice o) (stave o)
     (stem_direction o) (beam o) (tie o) (tickMultiplier o) (tuplet o).
Definition set_keys (v : option (list string)) (o : t) : t :=
  mk (rest o) (chord o) v (duration o) (intrinsicTicks o) (voice o) (stave o)
     (stem_direction o) (beam o) (tie o) (tickMultiplier o) (tuplet o).
Definition set_duration (v : option Duration) (o : t) : t :=
  mk (rest o) (chord o) (keys o) v (intrinsicTicks o) (voice o) (stave o)
     (stem_direction o) (beam o) (tie o) (tickMultiplier o) (tuplet o).
Definition set_intrinsicTicks (v : option ticks) (o : t) : t :=
  mk (rest o) (chord o) (keys o) (duration o) v (voice o) (stave o)
     (stem_direction o) (beam o) (tie o) (tickMultiplier o) (tuplet o).
Definition set_voice (v : option Z) (o : t) : t :=
  mk (rest o) (chord o) (keys o) (duration o) (intrinsicTicks o) v (stave o)
     (stem_direction o) (beam o) (tie o) (tickMultiplier o) (tuplet o).
Definition set_stave (v : option Z) (o : t) : t :=
  mk (rest o) (chord o) (keys o) (duration o) (intrinsicTicks o) (voice o) v
     (stem_direction o) (beam o) (tie o) (tickMultiplier o) (tuplet o).
Definition set_stem_direction (v : option Z) (o : t) : t :=
  mk (rest o) (chord o) (keys o) (duration o) (intrinsicTicks o) (voice o) (stave o)
     v (beam o) (tie o) (tickMultiplier o) (tuplet o).
Definition set_beam (v : option string) (o : t) : t :=
  mk (rest o) (chord o) (keys o) (duration o) (intrinsicTicks o) (voice o) (stave o)
     (stem_direction o) v (tie o) (tickMultiplier o) (tuplet o).
Definition set_tie (v : option string) (o : t) : t :=
  mk (rest o) (chord o) (keys o) (duration o) (intrinsicTicks o) (voice o) (stave o)
     (stem_direction o) (beam o) v (tickMultiplier o) (tuplet o).
Definition set_tuplet (m : Fraction.t) (v : option Tuplet.t) (o : t) : t :=
  mk (rest o) (chord o) (keys o) (duration o) (intrinsicTicks o) (voice o) (stave o)
     (stem_direction o) (beam o) (tie o) (Some m) v.

End NoteObj.

(** The state of one call of parseNote: the object under construction and
    the two local variables the [time-modification] child sets. *)
Record Decoding : Type := mkDecoding {
  noteObj : NoteObj.t;
  num_notes : value;
  beats_occupied : value
}.

Definition with_noteObj (f : NoteObj.t -> NoteObj.t) (st : Decoding) : Decoding :=
  mkDecoding (f (noteObj st)) (num_notes st) (beats_occupied st).

(** ** Strings of the note decoder *)

(** [s.indexOf(c)] for a one-character string [c]: -1 when [c] is not in [s]. *)
Fixpoint indexOf (s : string) (c : ascii) : Z :=
  match s with
  | EmptyString => -1
  | String a r =>
      if Ascii.eqb a c then 0
      else let i := indexOf r c in if i <? 0 then -1 else i + 1
  end.

(** [s.substring(0, n)]: a negative [n] counts as 0. *)
Definition substring0 (s : string) (n : Z) : string := String.substring 0 (Z.to_nat n) s.

(** The names of the members of [Object.prototype]: those of the
    language and the ones every browser adds. *)
Definition objectPrototype : list string :=
  ["constructor"; "toString"; "toLocaleString"; "valueOf"; "hasOwnProperty";
   "isPrototypeOf"; "propertyIsEnumerable"; "__proto__"; "__defineGetter__";
   "__defineSetter__"; "__lookupGetter__"; "__lookupSetter__"].

(** The table of [<type>] names, indexed by [type]: the code of a name of
    the table, the inherited member for the name of one, and undefined
    for any other text. *)
Definition durationOfType (type : string) : option Duration :=
  match List.find (fun kv => String.eqb (fst kv) type)
          [("whole", "1"); ("half", "2"); ("quarter", "4"); ("eighth", "8"); ("16th", "16");
           ("32nd", "32"); ("64th", "64"); ("128th", "128"); ("256th", "256")] with
  | Some kv => Some (DurationString (snd kv))
  | None =>
      if bool_decide (type ∈ objectPrototype) then Some (DurationMember type) else None
  end.

(** [duration + s] for a string [s]: undefined reads as the text
    undefined, a member as the text the engine prints it as. *)
Definition durationPlus (duration : option Duration) (s : string) : Duration :=
  match duration with
  | None => DurationString ("undefined" ++ s)
  | Some (DurationString d) => DurationString (d ++ s)
  | Some (DurationMember name) => DurationMemberText name (fun t => t ++ s)
  | Some (DurationMemberText name edit) => DurationMemberText name (fun t => edit t ++ s)
  end.

(** [Array.prototype.forEach.call(list, f)] for a callback that updates the
    state [s] and may throw. *)
Fixpoint forEach {S E : Type} (f : S -> E -> result S) (l : list E) (s : S) : result S :=
  match l with
  | [] => Ok s
  | x :: l' => s' <- f s x ;; forEach f l' s'
  end.

(** The clef the default rest position looks at: [attrs.clef], or its slot
    for the staff of the note when it is an array. *)
Definition clefInForce (attrs : Attributes) (stave : option Z) : option Clef :=
  match clef attrs with
  | Some (ClefScalar c) => c
  | Some (ClefPerStaff a) =>
      match stave with
      | Some s => mjoin (JSArray.get a (Z.to_nat s))
      | None => None
      end
  | None => None
  end.

(** ** parseNote *)

Section Decoder.

(** [Vex.Flow.RESOLUTION], the ticks of a whole note, is defined outside
    this file.  It is a multiple of 4, so that [RESOLUTION / 4] is the
    integer number of ticks of a quarter note. *)
Variable RESOLUTION : Z.

Definition parsePitch (st : Decoding) (elem : Node) : result Decoding :=
  step <- firstText elem "step" ;;
  o <- firstText elem "octave" ;;
  let octave := parseInt o in
  let step :=
    match head (getElementsByTagName elem "alter") with
    | Some alter =>
        match parseInt (textContent alter) with
        | Int 1 => step ++ "#"
        | Int 2 => step ++ "##"
        | Int (-1) => step ++ "b"
        | Int (-2) => step ++ "bb"
        | _ => step
        end
    | None => step
    end in
  Ok (with_noteObj (NoteObj.set_keys (Some [step ++ "/" ++ num_toString octave])) st).

Definition parseType (st : Decoding) (elem : Node) : result Decoding :=
  let type := textContent elem in
  let duration := durationOfType type in
  let duration :=
    if NoteObj.rest (noteObj st)
    then Some (durationPlus duration "r")
    else duration in
  Ok (with_noteObj (NoteObj.set_duration duration) st).

(** The duration is a string when the note is well formed; undefined
    has no [indexOf] to read, and a member of [Object.prototype] has none
    to call. *)
Definition parseDot (st : Decoding) (elem : Node) : result Decoding :=
  duration <- defined "noteObj.duration" (NoteObj.duration (noteObj st)) ;;
  let dot (duration : string) : string :=
    let rest := indexOf duration "r" in
    if NoteObj.rest (noteObj st)
    then substring0 duration rest ++ "dr"
    else duration ++ "d" in
  duration <-
    match duration with
    | DurationString d => Ok (DurationString (dot d))
    | DurationMember _ => Err (TypeError "noteObj.duration")
    | DurationMemberText name edit => Ok (DurationMemberText name (fun t => dot (edit t)))
    end ;;
  Ok (with_noteObj (NoteObj.set_duration (Some duration)) st).

(** [attrs.divisions] *)
Definition divisionsValue (attrs : Attributes) : value :=
  match divisions attrs with
  | Some n => VNum n
  | None => VUndefined
  end.

Definition parseDuration (attrs : Attributes) (st : Decoding) (elem : Node)
    : result Decoding :=
  let intrinsicTicks :=
    Fraction.simplify
      (Fraction.mk (VNum (num_mul (Int (RESOLUTION / 4)) (parseInt (textContent elem))))
                   (divisionsValue attrs)) in
  if isNaN (Fraction.numerator intrinsicTicks)
     || isNaN (Fraction.denominator intrinsicTicks)
  then Err (RERR "InvalidMusicXML" "Error parsing MusicXML duration")
  else
    let intrinsicTicks :=
      if equals_one (Fraction.denominator intrinsicTicks)
      then TicksNumber (Fraction.numerator intrinsicTicks)
      else TicksFraction intrinsicTicks in
    Ok (with_noteObj (NoteObj.set_intrinsicTicks (Some intrinsicTicks)) st).

Definition parseTimeModification (st : Decoding) (elem : Node) : result Decoding :=
  let num_notes := head (getElementsByTagName elem "actual-notes") in
  let beats_occupied := head (getElementsByTagName elem "normal-notes") in
  match num_notes, beats_occupied with
  | Some n, Some b =>
      Ok (mkDecoding (noteObj st)
            (VNum (parseInt (textContent n))) (VNum (parseInt (textContent b))))
  | _, _ =>
      Ok (mkDecoding (noteObj st)
            (from_option VElem VUndefined num_notes)
            (from_option VElem VUndefined beats_occupied))
  end.

Definition parseRest (st : Decoding) (elem : Node) : result Decoding :=
  let st := with_noteObj (NoteObj.set_rest true) st in
  let step := head (getElementsByTagName elem "display-step") in
  let octave := head (getElementsByTagName elem "display-octave") in
  match step, octave with
  | Some step, Some octave =>
      Ok (with_noteObj
            (NoteObj.set_keys (Some [textContent step ++ "/" ++ textContent octave])) st)
  | _, _ => Ok st
  end.

Definition parseVoice (st : Decoding) (elem : Node) : result Decoding :=
  match parseInt (textContent elem) with
  | Int voice => Ok (with_noteObj (NoteObj.set_voice (Some voice)) st)
  | NaN => Ok st
  end.

Definition parseStaff (st : Decoding) (elem : Node) : result Decoding :=
  match parseInt (textContent elem) with
  | Int stave =>
      if 0 <? stave
      then Ok (with_noteObj (NoteObj.set_stave (Some (stave - 1))) st)
      else Ok st
  | NaN => Ok st
  end.

Definition parseStem (st : Decoding) (elem : Node) : result Decoding :=
  if String.eqb (textContent elem) "up"
  then Ok (with_noteObj (NoteObj.set_stem_direction (Some 1)) st)
  else if String.eqb (textContent elem) "down"
  then Ok (with_noteObj (NoteObj.set_stem_direction (Some (-1))) st)
  else Ok st.

Definition parseBeam (st : Decoding) (elem : Node) : result Decoding :=
  let beam := textContent elem in
  _ <- Assert (String.eqb beam "begin" || String.eqb beam "continue" || String.eqb beam "end")
              ("Bad beam in MusicXML: " ++ beam) ;;
  Ok (with_noteObj (NoteObj.set_beam (Some beam)) st).

(** The callback over the children of [<notations>].  In the default
    case of the switch on the tie the error object is built by a call
    of [Vex.RERR] and dropped: there is no [throw]; building its message
    calls [tie.toString()], a TypeError when the attribute is missing. *)
Definition parseNotation (st : Decoding) (notationElem : Node) : result Decoding :=
  if String.eqb (nodeName notationElem) "tied" then
    let tie := getAttribute notationElem "type" in
    if bool_decide (tie = Some "start")
    then Ok (with_noteObj (NoteObj.set_tie (Some "begin")) st)
    else if bool_decide (tie = Some "continue")
    then Ok (with_noteObj (NoteObj.set_tie (Some "continue")) st)
    else if bool_decide (tie = Some "stop")
    then Ok (with_noteObj (NoteObj.set_tie (Some "end")) st)
    else
      text <- defined "tie.toString" tie ;;
      let _ := RERR "BadMusicXML" ("Bad tie: " ++ text) in
      Ok st
  else Ok st.

Definition parseNotations (st : Decoding) (elem : Node) : result Decoding :=
  forEach parseNotation (childNodes elem) st.

(** The callback over the children of the note: the switch on [nodeName]. *)
Definition parseNoteChild (attrs : Attributes) (st : Decoding) (elem : Node)
    : result Decoding :=
  let name := nodeName elem in
  if String.eqb name "pitch" then parsePitch st elem
  else if String.eqb name "type" then parseType st elem
  else if String.eqb name "dot" then parseDot st elem
  else if String.eqb name "duration" then parseDuration attrs st elem
  else if String.eqb name "time-modification" then parseTimeModification st elem
  else if String.eqb name "rest" then parseRest st elem
  else if String.eqb name "chord" then Ok (with_noteObj (NoteObj.set_chord true) st)
  else if String.eqb name "voice" then parseVoice st elem
  else if String.eqb name "staff" then parseStaff st elem
  else if String.eqb name "stem" then parseStem st elem
  else if String.eqb name "beam" then parseBeam st elem
  else if String.eqb name "notations" then parseNotations st elem
  else Ok st.

(** What follows the loop: the tuplet ratio, then the default position of
    a rest without a key. *)
Definition finishNote (attrs : Attributes) (st : Decoding) : NoteObj.t :=
  let noteObj :=
    if truthy (num_notes st) && truthy (beats_occupied st)
    then NoteObj.set_tuplet (Fraction.mk (beats_occupied st) (num_notes st))
           (Some (Tuplet.mk (num_notes st) (beats_occupied st))) (noteObj st)
    else NoteObj.set_tuplet (Fraction.mk (VNum (Int 1)) (VNum (Int 1))) None (noteObj st) in
  if NoteObj.rest noteObj && bool_decide (NoteObj.keys noteObj = None)
  then
    match clefInForce attrs (NoteObj.stave noteObj) with
    | Some bass => NoteObj.set_keys (Some ["D/3"]) noteObj
    | _ => NoteObj.set_keys (Some ["B/4"]) noteObj
    end
  else noteObj.

Definition parseNote (noteElem : Node) (attrs : Attributes) : result NoteObj.t :=
  st <- forEach (parseNoteChild attrs) (childNodes noteElem)
          (mkDecoding NoteObj.init VNull VNull) ;;
  Ok (finishNote attrs st).

End Decoder.

(** ** The measure model the backend fills

    The classes [Vex.Flow.Measure], its [Part], [Voice] and [Note] are
    defined outside this file.  The spec lists what the backend calls on
    them: set the number of parts, set and get a part by index, set the
    number of staves of a part, set the clef of a staff, set the number of
    voices, get and set a voice by index, append a note to a voice. *)

Module Measure.

(** Modelled from the spec: a note event ([Vex.Flow.Measure.Note], built
    from the decoded object) has a key list, which a chord note extends,
    and the other decoded fields, kept here as the decoded object. *)
Record Note : Type := mkNote { keys : list string; decoded : NoteObj.t }.

(** Modelled from the spec: [new Vex.Flow.Measure.Note(noteObj)]; a note
    without a pitch key has an empty key list. *)
Definition newNote (noteObj : NoteObj.t) : Note :=
  mkNote (default [] (NoteObj.keys noteObj)) noteObj.

(** Modelled from the spec: a voice is an ordered sequence of note events
    and an optional home staff. *)
Record Voice : Type := mkVoice { notes : list Note; stave : option Z }.

(** Modelled from the spec: the voice a part has at an index that was
    never written. *)
Definition emptyVoice : Voice := mkVoice [] None.

(** Modelled from the spec: append a note to a voice. *)
Definition addNote (voice : Voice) (note : Note) : Voice :=
  mkVoice (notes voice ++ [note]) (stave voice).

(** Modelled from the spec: a part has the options it was created with
    (time, clef), a number of staves, the clef of each staff, a number of
    voices, and its voices by index. *)
Record Part : Type := mkPart {
  part_time : TimeSig;
  part_clef : option Clef;
  numberOfStaves : option number;
  staveClefs : JSArray.t (option Clef);
  numberOfVoices : Z;
  voices : gmap Z Voice
}.

(** Modelled from the spec: the part [setPart(p, {time: time, clef: clef})]
    creates has one voice ([getMeasure] starts from [numVoices = 1]). *)
Definition newPart (time : TimeSig) (clef : option Clef) : Part :=
  mkPart time clef None JSArray.empty 1 ∅.

(** Modelled from the spec: set the number of staves of a part. *)
Definition setNumberOfStaves (part : Part) (n : option number) : Part :=
  mkPart (part_time part) (part_clef part) n (staveClefs part)
         (numberOfVoices part) (voices part).

(** Modelled from the spec: set the clef of a staff. *)
Definition setStave (part : Part) (s : nat) (clef : option Clef) : Part :=
  mkPart (part_time part) (part_clef part) (numberOfStaves part)
         (JSArray.set (staveClefs part) s clef)
         (numberOfVoices part) (voices part).

(** Modelled from the spec: the number of voices of a part. *)
Definition getNumberOfVoices (part : Part) : Z := numberOfVoices part.

(** Modelled from the spec: set the number of voices; the voices at the
    indices below the new number are kept, the others are dropped, as when
    the length of an array is set. *)
Definition setNumberOfVoices (part : Part) (n : Z) : Part :=
  mkPart (part_time part) (part_clef part) (numberOfStaves part) (staveClefs part)
         n (filter (fun kv => kv.1 < n) (voices part)).

(** Modelled from the spec: get a voice by index; [getMeasure] reads the
    notes of the voice it gets without a test, so a voice that was never
    written is an empty voice. *)
Definition getVoice (part : Part) (i : Z) : Voice :=
  default emptyVoice (voices part !! i).

(** Modelled from the spec: set a voice by index. *)
Definition setVoice (part : Part) (i : Z) (voice : Voice) : Part :=
  mkPart (part_time part) (part_clef part) (numberOfStaves part) (staveClefs part)
         (numberOfVoices part) (<[i := voice]> (voices part)).

(** Modelled from the spec: a measure has the time signature it was
    created with and its parts in order. *)
Record t : Type := mk { time : TimeSig; parts : list Part }.

End Measure.

(** ** getMeasure *)

Section Materializer.

Variable RESOLUTION : Z.

(** The body of the loop over the note elements, after [parseNote]: the
    note goes to the voice of its number.  [numVoices] stays 1.  A voice
    object is shared with its part, so the changed voice is the part's. *)
Definition placeNote (part : Measure.Part) (noteObj : NoteObj.t)
    : result Measure.Part :=
  let numVoices := 1 in
  let '(part, voiceNum, noteObj) :=
    match NoteObj.voice noteObj with
    | Some voice =>
        if voice =? 0 then (part, 0, noteObj)
        else
          (if numVoices <=? voice
           then Measure.setNumberOfVoices part (voice + 1)
           else part,
           voice, NoteObj.set_voice None noteObj)
    | None => (part, 0, noteObj)
    end in
  let voice := Measure.getVoice part voiceNum in
  let voice :=
    match Measure.notes voice, NoteObj.stave noteObj with
    | [], Some stave => Measure.mkVoice (Measure.notes voice) (Some stave)
    | _, _ => voice
    end in
  if NoteObj.chord noteObj then
    previous <- defined "voice.notes[voice.notes.length-1]" (last (Measure.notes voice)) ;;
    keys <- defined "noteObj.keys" (NoteObj.keys noteObj) ;;
    (* parseNote builds key arrays of one element *)
    key <- defined "noteObj.keys[0]" (head keys) ;;
    let previous :=
      Measure.mkNote (Measure.keys previous ++ [key]) (Measure.decoded previous) in
    Ok (Measure.setVoice part voiceNum
          (Measure.mkVoice (removelast (Measure.notes voice) ++ [previous])
                           (Measure.stave voice)))
  else
    Ok (Measure.setVoice part voiceNum
          (Measure.addNote voice (Measure.newNote noteObj))).

(** The renumbering of the voices: a copy of the part takes the voices
    that have notes, in the order of their numbers. *)
Definition compactVoices (part : Measure.Part) : Measure.Part :=
  let newPart := part in
  let '(newPart, v) :=
    foldl
      (fun '(newPart, v) i =>
         if (0 <? length (Measure.notes (Measure.getVoice part i)))%nat
         then (Measure.setVoice newPart v (Measure.getVoice part i), v + 1)
         else (newPart, v))
      (newPart, 0) (seqZ 0 (Measure.getNumberOfVoices part)) in
  Measure.setNumberOfVoices newPart v.

(** The body of the loop over the parts of measure [m]. *)
Definition getMeasurePart (this : MusicXML) (time : TimeSig) (row : JSArray.t Node)
    (m p : nat) : result Measure.Part :=
  let attrs := getAttributes this m p in
  let part :=
    Measure.newPart time
      (match clef attrs with Some (ClefScalar (Some c)) => Some c | _ => None end) in
  let part := Measure.setNumberOfStaves part (JSArray.get (numStaves this) p) in
  let part :=
    match clef attrs, JSArray.get (numStaves this) p with
    | Some (ClefPerStaff a), Some (Int n) =>
        foldl (fun part s => Measure.setStave part s (mjoin (JSArray.get a s)))
              part (seq 0 (Z.to_nat n))
    | _, _ => part
    end in
  node <- defined "measures[m][p]" (JSArray.get row p) ;;
  let noteElems := getElementsByTagName node "note" in
  part <- forEach
            (fun part noteElem =>
               noteObj <- parseNote RESOLUTION noteElem attrs ;;
               placeNote part noteObj)
            noteElems part ;;
  Ok (compactVoices part).

Definition getMeasure (this : MusicXML) (m : nat) : result Measure.t :=
  let time := mkTime (Int 4) (Int 4) in
  row <- defined "measures[m]" (JSArray.get (measures this) m) ;;
  let numParts := JSArray.length row in
  parts <- forEach
             (fun (parts : list Measure.Part) p =>
                part <- getMeasurePart this time row m p ;;
                Ok (parts ++ [part])%list)
             (seq 0 numParts) [] ;;
  Ok (Measure.mk time parts).

End Materializer.

(** ** appearsValid *)

(** A letter A-Z as its lower-case letter: what the flag [i] of a regular
    expression identifies. *)
Definition lowerCase (a : ascii) : ascii :=
  let n := nat_of_ascii a in
  if ((65 <=? n) && (n <=? 90))%nat then ascii_of_nat (n + 32) else a.

(** Does [s] start with [pattern], letter case ignored? *)
Fixpoint startsWithIgnoreCase (pattern s : string) : bool :=
  match pattern, s with
  | EmptyString, _ => true
  | String a pattern', String b s' =>
      Ascii.eqb (lowerCase a) (lowerCase b) && startsWithIgnoreCase pattern' s'
  | String _ _, EmptyString => false
  end.

(** [s.search(/pattern/i)] for a pattern of plain characters: the index of
    the first match, -1 when there is none. *)
Fixpoint searchIgnoreCase (pattern s : string) : Z :=
  if startsWithIgnoreCase pattern s then 0
  else
    match s with
    | EmptyString => -1
    | String _ s' =>
        let i := searchIgnoreCase pattern s' in
        if i <? 0 then -1 else i + 1
    end.

Definition appearsValid (data : Data) : bool :=
  match data with
  | DataString text => negb (searchIgnoreCase "<score-partwise" text =? -1)
  | DataDocument documentElement =>
      String.eqb (nodeName documentElement) "score-partwise"
  | DataOther => false
  end.

(** ** fifthsToKey *)

(** A key specification with its two keys [acc] (a string or null) and
    [num]. *)
Record KeySpec : Type := mkKeySpec { acc : option string; num : number }.

(** [a == b] on numbers: NaN equals nothing. *)
Definition num_equal (a b : number) : bool :=
  match a, b with
  | Int x, Int y => x =? y
  | _, _ => false
  end.

(** [Math.abs] *)
Definition num_abs (a : number) : number :=
  match a with
  | Int x => Int (Z.abs x)
  | NaN => NaN
  end.

(** [a < 0] and [a >= 0]: both false for NaN. *)
Definition num_negative (a : number) : bool :=
  match a with Int x => x <? 0 | NaN => false end.

Definition num_nonnegative (a : number) : bool :=
  match a with Int x => 0 <=? x | NaN => false end.

(** The test of the loop of [fifthsToKey] on a specification. *)
Definition matchesFifths (fifths : number) (spec : KeySpec) : bool :=
  (num_negative fifths && bool_decide (acc spec = Some "b")
   && num_equal (num spec) (num_abs fifths))
  || (num_nonnegative fifths && negb (bool_decide (acc spec = Some "b"))
      && num_equal (num spec) fifths).

Section KeySignature.

(** [Vex.Flow.keySignature.keySpecs], the table of the key names, is
    defined outside this file: it is taken as the list of its entries in
    the order [for ... in] goes through them.  An entry the loop skips
    (no object, or an object without [acc] or [num]) is [None]. *)
Variable keySpecs : list (string * option KeySpec).

Fixpoint fifthsToKeyLoop (specs : list (string * option KeySpec)) (fifths : number)
    : option string :=
  match specs with
  | [] => None
  | (i, spec) :: specs' =>
      match spec with
      | None => fifthsToKeyLoop specs' fifths
      | Some spec =>
          if matchesFifths fifths spec then Some i
          else fifthsToKeyLoop specs' fifths
      end
  end.

Definition fifthsToKey (fifths : number) : option string :=
  fifthsToKeyLoop keySpecs fifths.

End KeySignature.

(** * Specification-side definitions

    What follows is not the backend's code: the notions the properties are
    stated with, and the documents and parts they are tried on. *)

(** The voice number [getMeasure] files a decoded note under: its voice id,
    0 when it has none. *)
Definition voiceNumber (noteObj : NoteObj.t) : Z := default 0 (NoteObj.voice noteObj).

(** The note list of voice [i] of a part. *)
Definition bucket (part : Measure.Part) (i : Z) : list Measure.Note :=
  Measure.notes (Measure.getVoice part i).

(** The voices of a part at the indices below its number of voices. *)
Definition voiceList (part : Measure.Part) : list Measure.Voice :=
  Measure.getVoice part <$> seqZ 0 (Measure.getNumberOfVoices part).

Definition hasNotes (voice : Measure.Voice) : bool :=
  (0 <? length (Measure.notes voice))%nat.

(** The snapshots stored for part [p] at the measures 0..m, in measure
    order, and their merge from left to right. *)
Definition storedSnapshots (this : MusicXML) (p m : nat) : list Attributes :=
  omap (fun i => snapshot this i p) (seq 0 (S m)).

Definition mergeAll (snapshots : list Attributes) : Attributes :=
  foldl Merge noAttributes snapshots.

(** A key [f] of the effective attributes at measure [m] is the value of
    the last snapshot up to [m] that has it, and is absent when none has. *)
Definition mostRecent {A : Type} (f : Attributes -> option A)
    (this : MusicXML) (m p : nat) : Prop :=
  (∀ i s v,
     (i ≤ m)%nat → snapshot this i p = Some s → f s = Some v →
     (∀ j s', (i < j ≤ m)%nat → snapshot this j p = Some s' → f s' = None) →
     f (getAttributes this m p) = Some v) ∧
  ((∀ i s, (i ≤ m)%nat → snapshot this i p = Some s → f s = None) →
   f (getAttributes this m p) = None).

(** Two attribute objects that differ at most in their [time] key. *)
Definition sameButTime (a b : Attributes) : Prop :=
  staves a = staves b ∧ key a = key b ∧ clef a = clef b ∧ divisions a = divisions b.

(** The children of a note element named [name]. *)
Definition childrenNamed (name : string) (noteElem : Node) : list Node :=
  filter (fun c => nodeName c = name) (childNodes noteElem).

(** The counts a [<time-modification>] element supplies: its first
    [actual-notes] and [normal-notes] descendants read as integers, when
    both are there and neither reads as 0 or as no number. *)
Definition suppliedCounts (elem : Node) : option (Z * Z) :=
  actual ← head (getElementsByTagName elem "actual-notes");
  normal ← head (getElementsByTagName elem "normal-notes");
  match parseInt (textContent actual), parseInt (textContent normal) with
  | Int a, Int n => if (a =? 0) || (n =? 0) then None else Some (a, n)
  | _, _ => None
  end.

(** The counts of a note element: those of its last [<time-modification>]
    child. *)
Definition tupletCounts (noteElem : Node) : option (Z * Z) :=
  last (childrenNamed "time-modification" noteElem) ≫= suppliedCounts.

(** The display position a [<rest>] element carries, when it has both a
    [display-step] and a [display-octave]. *)
Definition displayKey (elem : Node) : option string :=
  step ← head (getElementsByTagName elem "display-step");
  octave ← head (getElementsByTagName elem "display-octave");
  Some (textContent step ++ "/" ++ textContent octave).


(** The default position of a rest under a clef. *)
Definition defaultRestKey (c : option Clef) : string :=
  match c with
  | Some bass => "D/3"
  | _ => "B/4"
  end.

(** ** Sample documents *)

Definition elem (name : string) (children : list Node) : Node := Element name [] children.

Definition leaf (name text : string) : Node := Element name [] [Text text].

Definition pitched (step octave : string) : Node :=
  elem "pitch" [leaf "step" step; leaf "octave" octave].

(** A score of two parts: the first has two measures, the second has one. *)
Definition shortSecondPart : Node :=
  elem "score-partwise"
    [elem "part" [elem "measure" []; elem "measure" []];
     elem "part" [elem "measure" []]].

(** A score of two parts of two measures each, indented: a text node sits
    between the elements. *)
Definition indentedScore : Node :=
  let part :=
    elem "part" [Text " "; elem "measure" []; Text " "; elem "measure" []; Text " "] in
  elem "score-partwise" [Text " "; part; Text " "; part; Text " "].

(** A note whose [<notations>] hold a [<tied>] of the given type. *)
Definition tiedNote (type : string) : Node :=
  elem "note" [pitched "C" "4"; elem "notations" [Element "tied" [("type", type)] []]].

(** A one-part score of four measures: the first declares the divisions,
    a bass clef and the time 3/4, the third the time 4/4. *)
Definition waltzScore : Node :=
  elem "score-partwise"
    [elem "part"
       [elem "measure"
          [elem "attributes"
             [leaf "divisions" "4";
              elem "time" [leaf "beats" "3"; leaf "beat-type" "4"];
              elem "clef" [leaf "sign" "F"; leaf "line" "4"]];
           elem "note" [pitched "C" "3"; leaf "duration" "4"; leaf "type" "quarter"]];
        elem "measure" [];
        elem "measure"
          [elem "attributes" [elem "time" [leaf "beats" "4"; leaf "beat-type" "4"]]];
        elem "measure" []]].

(** A window without an XML parser: a document needs none. *)
Definition noParser : Window := mkWindow None false None.

(** A window whose [DOMParser] reads every string as the document of
    [documentElement]. *)
Definition readsAs (documentElement : Node) : Window :=
  mkWindow (Some (λ _, Some documentElement)) true None.

(** The backend after parsing [waltzScore]. *)
Definition waltz : MusicXML :=
  match parse noParser newMusicXML (DataDocument waltzScore) with
  | Ok this => this
  | Err _ => newMusicXML
  end.

(** A quarter note under four divisions: [<duration>4</duration>]. *)
Definition quarterNote : Node :=
  elem "note" [pitched "C" "4"; leaf "duration" "4"].

Definition fourDivisions : Attributes :=
  mkAttributes None None None None (Some (Int 4)).

Definition bassClef : Attributes :=
  mkAttributes None None None (Some (ClefScalar (Some bass))) None.

Definition trebleClef : Attributes :=
  mkAttributes None None None (Some (ClefScalar (Some treble))) None.

(** A note with a [<time-modification>] of the given counts. *)
Definition tupletNote (actual normal : string) : Node :=
  elem "note"
    [pitched "G" "4";
     elem "time-modification" [leaf "actual-notes" actual; leaf "normal-notes" normal]].

(** A whole rest without a display position. *)
Definition wholeRest : Node :=
  elem "note" [elem "rest" []; leaf "type" "whole"].

(** A measure of three notes: one without a voice, one in voice 1, and a
    chord note without a voice. *)
Definition crossVoiceChord : Node :=
  elem "score-partwise"
    [elem "part"
       [elem "measure"
          [elem "note" [pitched "C" "4"];
           elem "note" [pitched "E" "4"; leaf "voice" "1"];
           elem "note" [elem "chord" []; pitched "G" "4"]]]].

(** A decoded note with a key and a voice id. *)
Definition plainNote (key : string) (voice : option Z) (chord : bool) : NoteObj.t :=
  NoteObj.mk false chord (Some [key]) None None voice None None None None None None.

Definition voiceOf (keys : list string) : Measure.Voice :=
  Measure.mkVoice ((fun k => Measure.newNote (plainNote k None false)) <$> keys) None.

(** A part of six voices: the voices 0, 2 and 5 have a note, the voice 1
    was touched and has none, the voices 3 and 4 were never set. *)
Definition sparsePart : Measure.Part :=
  Measure.mkPart (mkTime (Int 4) (Int 4)) None (Some (Int 1)) JSArray.empty 6
    (<[0 := voiceOf ["C/4"]]> (<[1 := Measure.emptyVoice]>
       (<[2 := Measure.mkVoice (Measure.notes (voiceOf ["E/4"; "F/4"])) (Some 1)]>
          (<[5 := voiceOf ["G/2"]]> ∅)))).

(** The values [parseTimeModification] leaves in [num_notes] and
    [beats_occupied]. *)
Definition timeModificationVars (elem : Node) : value * value :=
  match head (getElementsByTagName elem "actual-notes"),
        head (getElementsByTagName elem "normal-notes") with
  | Some n, Some b => (VNum (parseInt (textContent n)), VNum (parseInt (textContent b)))
  | n, b => (from_option VElem VUndefined n, from_option VElem VUndefined b)
  end.

(** The parts of the decoding state a [<notations>] child leaves alone. *)
Definition sameButTie (st st' : Decoding) : Prop :=
  num_notes st' = num_notes st ∧
  beats_occupied st' = beats_occupied st ∧
  NoteObj.rest (noteObj st') = NoteObj.rest (noteObj st) ∧
  NoteObj.keys (noteObj st') = NoteObj.keys (noteObj st) ∧
  NoteObj.intrinsicTicks (noteObj st') = NoteObj.intrinsicTicks (noteObj st).

(** The exact ticks of a raw duration [d] under [v] divisions, in the
    spec's words: the fraction (RESOLUTION/4 × d) / v in lowest terms, and
    its numerator alone when the reduced denominator is 1. *)
Definition exactTicks (RESOLUTION d v : Z) : ticks :=
  let u := RESOLUTION / 4 * d in
  let g := Z.gcd u v in
  if v / g =? 1
  then TicksNumber (VNum (Int (u / g)))
  else TicksFraction (Fraction.mk (VNum (Int (u / g))) (VNum (Int (v / g)))).

(** The error of a duration that is not a number. *)
Definition invalidDuration : error :=
  RERR "InvalidMusicXML" "Error parsing MusicXML duration".

(** The ticks the [<duration>] child [elem] writes, when it does not throw. *)
Definition durationTicks (RESOLUTION : Z) (attrs : Attributes) (elem : Node) : option ticks :=
  match parseInt (textContent elem), divisions attrs with
  | Int d, Some (Int v) => if v =? 0 then None else Some (exactTicks RESOLUTION d v)
  | _, _ => None
  end.

(** A value of [RESOLUTION] for the worked examples. *)
Definition sampleResolution : Z := 16384.

(** ** Notions of the further properties *)

(** An array without holes: it has an element at exactly the indices below
    its length. *)
Definition dense {A : Type} (a : JSArray.t A) : Prop :=
  ∀ i, is_Some (JSArray.get a i) ↔ (i < JSArray.length a)%nat.

(** The errors [parseAttributes] can throw: a child element it reads is
    missing, or the array of the clefs cannot be made. *)
Definition attributeError (e : error) : Prop :=
  e ∈ [TypeError "fifths"; TypeError "beats"; TypeError "beat-type";
       TypeError "sign"; TypeError "line"; RangeError "Invalid array length"].

Definition notPartwise : error :=
  RERR "ArgumentError" "VexFlow only supports partwise scores".

(** The error of an argument that is neither a string nor a document,
    and the error of a window without an XML parser. *)
Definition notDocument : error :=
  RERR "ArgumentError" "MusicXML requires XML string or DOM Document object".

Definition noXMLParser : error :=
  RERR "UnsupportedBrowserError" "No XML parser found".

(** The errors [parse] can throw once it has a document: the document
    has no document element; its document element is not
    [score-partwise]; or it is, and [parseAttributes] throws. *)
Definition documentError (document : option Node) (e : error) : Prop :=
  match document with
  | None => e = TypeError "this.documentElement"
  | Some documentElement =>
      (e = notPartwise ∧ nodeName documentElement ≠ "score-partwise") ∨
      (attributeError e ∧ nodeName documentElement = "score-partwise")
  end.

(** The parser of the window [parse] reads a string with first: its
    [DOMParser], when [XMLDocument] is defined too. *)
Definition domParser (window : Window) : option (string → option Node) :=
  match DOMParser window, XMLDocument window with
  | Some parseFromString, true => Some parseFromString
  | _, _ => None
  end.

(** The error [e] is one the child [elem] of a note can throw. *)
Definition childError (elem : Node) (e : error) : Prop :=
  (nodeName elem = "pitch" ∧ (e = TypeError "step" ∨ e = TypeError "octave")) ∨
  (nodeName elem = "dot" ∧ e = TypeError "noteObj.duration") ∨
  (nodeName elem = "duration" ∧ e = invalidDuration) ∨
  (nodeName elem = "beam" ∧
   e = RERR "RuntimeError" ("Bad beam in MusicXML: " ++ textContent elem)%string) ∨
  (nodeName elem = "notations" ∧ e = TypeError "tie.toString").

(** The names of the children [parseNote] can fail on. *)
Definition fallible (name : string) : Prop :=
  name ∈ ["pitch"; "dot"; "duration"; "beam"; "notations"].

(** The names of the children of a note the switch of [parseNote] has a
    case for. *)
Definition noteChildNames : list string :=
  ["pitch"; "type"; "dot"; "duration"; "time-modification"; "rest"; "chord"; "voice";
   "staff"; "stem"; "beam"; "notations"].

(** A note element with the children [children]. *)
Definition noteOf (attributes : list (string * string)) (children : list Node) : Node :=
  Element "note" attributes children.

(** Does the character [c] occur in [s]? *)
Fixpoint occurs (c : ascii) (s : string) : bool :=
  match s with
  | EmptyString => false
  | String a r => Ascii.eqb a c || occurs c r
  end.

(** [n] times the letter d. *)
Fixpoint dots (n : nat) : string :=
  match n with
  | O => ""
  | S n' => String "d" (dots n')
  end.

(** What the text [s] has before its first [c], when it has a [c]. *)
Fixpoint upTo (c : ascii) (s : string) : option string :=
  match s with
  | EmptyString => None
  | String a r => if Ascii.eqb a c then Some "" else String a <$> upTo c r
  end.

(** What a duration text has before its first r: the code of a rest.  A
    text without r has none. *)
Definition restCode (d : string) : string := default "" (upTo "r" d).

(** The text [n] dots make of the duration text [d]: on a note that is no
    rest, [d] followed by [n] letters d; on a rest, [d] itself for no dot,
    and else the code of the rest, [n] letters d and then r. *)
Definition dotsText (rest : bool) (n : nat) (d : string) : string :=
  if rest
  then match n with
       | O => d
       | S _ => restCode d ++ dots n ++ "r"
       end
  else d ++ dots n.

(** How a duration reads when it is a string, for an engine that prints
    the member [name] of [Object.prototype] as the text [engine name]. *)
Definition durationText (engine : string → string) (duration : Duration) : option string :=
  match duration with
  | DurationString s => Some s
  | DurationMember _ => None
  | DurationMemberText name edit => Some (edit (engine name))
  end.

(** The names of the children of [<attributes>] the switch of
    [parseAttributes] has a case for. *)
Definition attributeNames : list string := ["staves"; "key"; "time"; "clef"; "divisions"].

(** The key [f] of the snapshot of measure [i] and part [p], absent when
    there is no snapshot. *)
Definition storedField {A : Type} (f : Attributes → option A)
    (this : MusicXML) (i p : nat) : option A :=
  snapshot this i p ≫= f.

(** What a [<divisions>], a [<key>] and a [<time>] element declare, when
    the elements they need are there. *)
Definition divisionsOf (attr : Node) : option number :=
  Some (parseInt (textContent attr)).

Definition keyOf (attr : Node) : option KeyAttr :=
  match firstText attr "fifths" with
  | Ok f => Some (mkKey (parseInt f))
  | Err _ => None
  end.

Definition timeOf (attr : Node) : option TimeSig :=
  match firstText attr "beats", firstText attr "beat-type" with
  | Ok b, Ok t => Some (mkTime (parseInt b) (parseInt t))
  | _, _ => None
  end.

(** The declaration an attributes block makes for the children named
    [name]: that of the last of them. *)
Definition declared {A : Type} (name : string) (valueOf : Node → option A)
    (attributes : Node) : option A :=
  last (childrenNamed name attributes) ≫= valueOf.

(** The [<part>] children of the document element, in order. *)
Definition partNodes (documentElement : Node) : list Node :=
  childrenNamed "part" documentElement.

(** The stave count a part declares: the last [<staves>] child of the
    first [<attributes>] element of its first measure, read as an
    integer. *)
Definition declaredStaves (part : Node) : option number :=
  measure ← head (childrenNamed "measure" part);
  attributes ← head (getElementsByTagName measure "attributes");
  staves ← last (childrenNamed "staves" attributes);
  Some (parseInt (textContent staves)).

(** The number of [<measure>] children of a part, and the numbers of all
    the parts of a document in order. *)
Definition measureCount (part : Node) : nat := length (childrenNamed "measure" part).

Definition measureCounts (documentElement : Node) : list nat :=
  measureCount <$> partNodes documentElement.

(** No part has more measures than a part before it. *)
Definition nonIncreasing (counts : list nat) : Prop :=
  ∀ i j a b, (i ≤ j)%nat → counts !! i = Some a → counts !! j = Some b → (b ≤ a)%nat.

(** The [i]-th [<measure>] child of the [p]-th of the parts. *)
Definition nthMeasure (parts : list Node) (i p : nat) : option Node :=
  part ← parts !! p; childrenNamed "measure" part !! i.

(** [this.measures[i][p]], when there is such an element. *)
Definition cell (this : MusicXML) (i p : nat) : option Node :=
  row ← JSArray.get (measures this) i; JSArray.get row p.

(** How many of the parts have more than [i] measures. *)
Definition partsWith (counts : list nat) (i : nat) : nat :=
  length (filter (λ c, (i < c)%nat) counts).

(** A document whose parts have [<measure>] children only: no text
    between the measures, no other elements. *)
Definition tidy (documentElement : Node) : Prop :=
  Forall (λ part, Forall (λ c, nodeName c = "measure") (childNodes part))
         (partNodes documentElement).

(** The grid [this.measures] while [parse] reads a part: [done] are the
    parts read before it, [current] the measures of the part read so
    far.  Rows that have the measure of the part being read are one longer
    than the number of the parts done; the other rows are as the parts
    done left them. *)
Definition rowsOf (grid : JSArray.t (JSArray.t Node)) (done current : list Node) : Prop :=
  let counts := measureCount <$> done in
  let p := length done in
  let k := length current in
  let h := hd 0%nat counts in
  JSArray.length grid = Nat.max h k ∧
  (∀ i, is_Some (JSArray.get grid i) ↔ (i < Nat.max h k)%nat) ∧
  (∀ i row, JSArray.get grid i = Some row →
     ((i < k)%nat →
      JSArray.length row = S p ∧
      ∀ q, JSArray.get row q = if decide (q = p) then current !! i else nthMeasure done i q) ∧
     ((k ≤ i)%nat →
      JSArray.length row = partsWith counts i ∧
      ∀ q, JSArray.get row q = nthMeasure done i q)) ∧
  nonIncreasing counts ∧
  (done ≠ [] → (k ≤ default 0%nat (last counts))%nat).

(** A text with its letters A-Z in lower case. *)
Fixpoint lower (s : string) : string :=
  match s with
  | EmptyString => EmptyString
  | String a s' => String (lowerCase a) (lower s')
  end.

(** The text [s] has somewhere a piece that reads [pattern] when the
    case of the letters is ignored. *)
Definition containsIgnoreCase (pattern s : string) : Prop :=
  ∃ before found after,
    s = (before ++ found ++ after)%string ∧ lower found = lower pattern.

(** What the test of the loop of [fifthsToKey] asks of a key
    specification, for a count of fifths that is a number [z]: as many
    accidentals as the count without its sign, flats exactly for a
    negative count. *)
Definition keyFor (z : Z) (spec : KeySpec) : Prop :=
  num spec = Int (Z.abs z) ∧ (acc spec = Some "b" ↔ z < 0).

(** The errors of a chord note that finds no note before it in its
    voice, or has no key of its own. *)
Definition chordError (e : error) : Prop :=
  e ∈ [TypeError "voice.notes[voice.notes.length-1]"; TypeError "noteObj.keys";
       TypeError "noteObj.keys[0]"].

(** [attrs.clef] when it is a string: the clef option of a part. *)
Definition scalarClef (attrs : Attributes) : option Clef :=
  match clef attrs with
  | Some (ClefScalar (Some c)) => Some c
  | _ => None
  end.

(** What a measure declares for the children named [name] of an
    attributes block: [parse] reads the first [<attributes>] element of
    the measure and no other. *)
Definition measureDeclares {A : Type} (name : string) (valueOf : Node → option A)
    (measure : Node) : option A :=
  head (getElementsByTagName measure "attributes") ≫= declared name valueOf.

(** The declaration in force at measure [m] of a part: the last one its
    measures 0..m make. *)
Definition inForce {A : Type} (name : string) (valueOf : Node → option A)
    (part : Node) (m : nat) : option A :=
  last (omap (measureDeclares name valueOf) (take (S m) (childrenNamed "measure" part))).

(** The stored declarations while [parse] reads a part: [done] are the
    parts read before it, [current] its measures read so far. *)
Definition storedAs {A : Type} (f : Attributes → option A) (name : string)
    (valueOf : Node → option A) (this : MusicXML) (done current : list Node) : Prop :=
  ∀ i q,
    storedField f this i q
    = if decide (q = length done)
      then current !! i ≫= measureDeclares name valueOf
      else nthMeasure done i q ≫= measureDeclares name valueOf.

(** What a [<voice>], a [<staff>], a [<stem>] and a [<beam>] child of a
    note writes, when it writes. *)
Definition voiceOfChild (elem : Node) : option Z :=
  match parseInt (textContent elem) with
  | Int voice => Some voice
  | NaN => None
  end.

Definition staveOfChild (elem : Node) : option Z :=
  match parseInt (textContent elem) with
  | Int stave => if 0 <? stave then Some (stave - 1) else None
  | NaN => None
  end.

Definition stemOfChild (elem : Node) : option Z :=
  if String.eqb (textContent elem) "up" then Some 1
  else if String.eqb (textContent elem) "down" then Some (-1)
  else None.

Definition beamOfChild (elem : Node) : option string := Some (textContent elem).

(** The value the children named [name] leave: that of the last of them
    that writes. *)
Definition lastWritten {A : Type} (name : string) (valueOf : Node → option A)
    (noteElem : Node) : option A :=
  last (omap valueOf (childrenNamed name noteElem)).

(** The clef a [<clef>] element names: treble for the sign G on the line
    2, bass for the sign F on the line 4, and null for any other. *)
Definition clefOf (attr : Node) : option Clef :=
  match firstText attr "sign", firstText attr "line" with
  | Ok sign, Ok l =>
      if String.eqb sign "G" && num_eq (parseInt l) 2 then Some treble
      else if String.eqb sign "F" && num_eq (parseInt l) 4 then Some bass
      else None
  | _, _ => None
  end.

(** The staff a [<clef>] element is for: its [number] attribute, when it
    reads as a positive number. *)
Definition clefNumber (attr : Node) : option Z :=
  match parseInt (default "null" (getAttribute attr "number")) with
  | Int n => if 0 <? n then Some n else None
  | NaN => None
  end.

(** The slot [s] of the clef array the snapshot of a measure and a part
    has, when it has one. *)
Definition storedClefSlot (this : MusicXML) (m p s : nat) : option (option Clef) :=
  match storedField clef this m p with
  | Some (ClefPerStaff a) => JSArray.get a s
  | _ => None
  end.

(** The names of the note types, with their codes. *)
Definition typeCodes : list (string * string) :=
  [("whole", "1"); ("half", "2"); ("quarter", "4"); ("eighth", "8"); ("16th", "16");
   ("32nd", "32"); ("64th", "64"); ("128th", "128"); ("256th", "256")].

(** The code of the name of a note type. *)
Definition typeCode (text : string) : option string :=
  snd <$> List.find (λ kv, String.eqb kv.1 text) typeCodes.

(** The duration a [<type>] child writes.  For the name of a note type:
    its code, followed by r on a note already marked as a rest.  For the
    name of a member of [Object.prototype]: that member, and on a note
    already marked as a rest the text the engine prints the member as,
    followed by r.  For any other text: no duration, and on a note
    already marked as a rest the text undefined followed by r. *)
Definition typeDuration (rest : bool) (type : Node) : option Duration :=
  let text := textContent type in
  match typeCode text with
  | Some code => Some (DurationString (if rest then code ++ "r" else code))
  | None =>
      if bool_decide (text ∈ objectPrototype)
      then Some (if rest then DurationMemberText text (λ t, t ++ "r")
                 else DurationMember text)
      else if rest then Some (DurationString "undefinedr") else None
  end%string.

(** The accidental of a [<pitch>]: one or two sharps or flats for an
    [<alter>] of 1, 2, -1 or -2, and none for any other or for no
    [<alter>]. *)
Definition accidental (pitch : Node) : string :=
  match head (getElementsByTagName pitch "alter") with
  | Some alter =>
      match parseInt (textContent alter) with
      | Int 1 => "#"
      | Int 2 => "##"
      | Int (-1) => "b"
      | Int (-2) => "bb"
      | _ => ""
      end
  | None => ""
  end.

(** The key of a pitch with the step [step] and the octave text
    [octave]. *)
Definition pitchKey (pitch : Node) (step octave : string) : string :=
  (step ++ accidental pitch ++ "/" ++ num_toString (parseInt octave))%string.

(** ** Notions of the voices of a part *)

(** A note of a voice id from 1 on makes [getMeasure] set the number of
    voices of the part to that id plus one, and the part drops the voices
    of the ids above it: the note drops the voice [v] when its id is at
    least 1 and below [v]. *)
Definition dropsVoice (v : Z) (noteObj : NoteObj.t) : bool :=
  (1 <=? voiceNumber noteObj) && (voiceNumber noteObj <? v).

(** What follows the last element of a list for which [P] holds; the
    whole list when [P] holds for none. *)
Fixpoint afterLast {A : Type} (P : A → bool) (l : list A) : list A :=
  match l with
  | [] => []
  | x :: l' => if existsb P l' then afterLast P l' else if P x then l' else x :: l'
  end.

(** The notes the voice [v] of a part holds once the decoded notes
    [notes] were placed in this order: the notes of the voice id [v]
    that come after the last note that drops the voice. *)
Definition kept (v : Z) (notes : list NoteObj.t) : list NoteObj.t :=
  filter (λ noteObj, voiceNumber noteObj = v) (afterLast (dropsVoice v) notes).













(** ** More sample documents *)

(** A score whose [<key>] has no [<fifths>]. *)
Definition keylessScore : Node :=
  elem "score-partwise"
    [elem "part" [elem "measure" [elem "attributes" [elem "key" []]]]].

(** A note with a beam of an unknown kind. *)
Definition badBeamNote : Node :=
  elem "note" [pitched "C" "4"; leaf "beam" "middle"].

(** The attributes block of a piano part: two staves, one flat, a clef
    for each staff. *)
Definition pianoBlock : Node :=
  elem "attributes"
    [leaf "divisions" "2";
     leaf "staves" "2";
     elem "key" [leaf "fifths" "-1"];
     Element "clef" [("number", "1")] [leaf "sign" "G"; leaf "line" "2"];
     Element "clef" [("number", "2")] [leaf "sign" "F"; leaf "line" "4"]].

(** A beamed chord note of voice 2 on the second staff, stem up. *)
Definition beamedNote : Node :=
  elem "note"
    [elem "chord" []; pitched "E" "4"; leaf "duration" "1"; leaf "voice" "2";
     leaf "type" "eighth"; leaf "stem" "up"; leaf "staff" "2"; leaf "beam" "begin"].

(** A score of two parts without text between the elements: a piano part
    of two measures and a part of one measure that declares nothing. *)
Definition duoScore : Node :=
  elem "score-partwise"
    [elem "part"
       [elem "measure"
          [pianoBlock;
           elem "note" [pitched "C" "4"; leaf "duration" "2"; leaf "type" "quarter"]];
        elem "measure"
          [elem "note" [pitched "D" "4"; leaf "duration" "2"; leaf "type" "quarter"]]];
     elem "part"
       [elem "measure" [elem "note" [pitched "E" "3"; leaf "type" "whole"]]]].

(** The pitch B flat of the octave 3. *)
Definition flatPitch : Node :=
  elem "pitch" [leaf "step" "B"; leaf "alter" "-1"; leaf "octave" "3"].

(** A bass clef for the second staff. *)
Definition secondStaffClef : Node :=
  Element "clef" [("number", "2")] [leaf "sign" "F"; leaf "line" "4"].

(** The backend after parsing [duoScore]. *)
Definition duo : MusicXML :=
  match parse noParser newMusicXML (DataDocument duoScore) with
  | Ok this => this
  | Err _ => newMusicXML
  end.













(** * Properties *)

(** ** Ingestion: the validity flag *)

(** On a document, [parse] goes straight to its document element. *)
Lemma parse_document (window : Window) (this : MusicXML) (documentElement : Node) :
  parse window this (DataDocument documentElement)
  = (if negb (String.eqb (nodeName documentElement) "score-partwise")
     then Err (RERR "ArgumentError" "VexFlow only supports partwise scores")
     else
       r <- parseParts (childNodes documentElement) 0 this ;;
       match r with
       | Return this => Ok this
       | Next this => Ok (set_valid true this)
       end).
Proof. reflexivity. Qed.

(** C1.  The validity flag is meant to be true only when every part
    supplies the same number of measures, and the check in [parse] carries
    the comment "Some part is missing a measure".  On a score of two parts
    where the second part has one measure fewer than the first, [parse]
    ends with the flag set to true: the check compares the length of a row
    with the part number only for the measures the part has, so a part that
    stops early is never looked at. *)
Theorem parse_short_second_part_valid :
  ∃ this,
    parse noParser newMusicXML (DataDocument shortSecondPart) = Ok this ∧
    isValid this = Some true ∧
    getNumberOfMeasures this = 2%nat ∧
    JSArray.length <$> JSArray.get (measures this) 0 = Some 2%nat ∧
    JSArray.length <$> JSArray.get (measures this) 1 = Some 1%nat.
Proof.
  eexists. split; [vm_compute; reflexivity |].
  repeat split; vm_compute; reflexivity.
Qed.

(** The row of a measure is looked up with the index [j] of the child node
    and not with the measure number: in an indented score the second part
    resets the row of its second measure and is taken as missing a measure,
    though both parts have two. *)
Lemma parse_indented_score_invalid :
  ∃ this,
    parse noParser newMusicXML (DataDocument indentedScore) = Ok this ∧
    isValid this = Some false.
Proof. eexists. split; vm_compute; reflexivity. Qed.

(** A root element of another name is rejected. *)
Lemma parse_not_partwise (window : Window) (this : MusicXML) (root : Node) :
  nodeName root ≠ "score-partwise" →
  parse window this (DataDocument root)
  = Err (RERR "ArgumentError" "VexFlow only supports partwise scores").
Proof.
  intros Hname. rewrite parse_document.
  destruct (String.eqb_spec (nodeName root) "score-partwise") as [Heq | _]; [done | reflexivity].
Qed.

(** ** Note decoding: ties and beams *)

(** Evaluates the comparisons of two closed names in the goal. *)
Ltac closed_names :=
  repeat match goal with
  | |- context [String.eqb ?a ?b] =>
      let r := eval vm_compute in (String.eqb a b) in
      match r with
      | true => change (String.eqb a b) with true
      | false => change (String.eqb a b) with false
      end
  end;
  cbv iota.

Section TieAndBeam.

Variable RESOLUTION : Z.
Variable attrs : Attributes.

(** The three known tie types are mapped. *)
Lemma parseNotation_tied (st : Decoding) (attributes : list (string * string))
    (children : list Node) (type tie : string) :
  (type, tie) ∈ [("start", "begin"); ("continue", "continue"); ("stop", "end")] →
  getAttribute (Element "tied" attributes children) "type" = Some type →
  parseNotation st (Element "tied" attributes children)
  = Ok (with_noteObj (NoteObj.set_tie (Some tie)) st).
Proof.
  intros Hin Hattr. unfold parseNotation.
  change (nodeName (Element "tied" attributes children)) with "tied".
  rewrite Hattr. simpl String.eqb. cbv iota.
  repeat (apply elem_of_cons in Hin as [Heq | Hin]; [by simplify_eq |]).
  by apply elem_of_nil in Hin.
Qed.

(** Any other tie type that is present leaves the state as it is, and
    decoding goes on. *)
Lemma parseNotation_tied_other (st : Decoding) (attributes : list (string * string))
    (children : list Node) (type : string) :
  type ≠ "start" → type ≠ "continue" → type ≠ "stop" →
  getAttribute (Element "tied" attributes children) "type" = Some type →
  parseNotation st (Element "tied" attributes children) = Ok st.
Proof.
  intros H1 H2 H3 Hattr. unfold parseNotation.
  change (nodeName (Element "tied" attributes children)) with "tied".
  rewrite Hattr. simpl String.eqb. cbv iota.
  rewrite !bool_decide_eq_false_2 by congruence.
  reflexivity.
Qed.

(** A beam token other than the three known ones fails the assertion. *)
Lemma parseNoteChild_bad_beam (st : Decoding) (elem : Node) :
  nodeName elem = "beam" →
  textContent elem ≠ "begin" → textContent elem ≠ "continue" → textContent elem ≠ "end" →
  parseNoteChild RESOLUTION attrs st elem
  = Err (RERR "RuntimeError" ("Bad beam in MusicXML: " ++ textContent elem)).
Proof.
  intros Hname H1 H2 H3. unfold parseNoteChild. rewrite Hname. closed_names.
  unfold parseBeam.
  destruct (String.eqb_spec (textContent elem) "begin"); [done |].
  destruct (String.eqb_spec (textContent elem) "continue"); [done |].
  destruct (String.eqb_spec (textContent elem) "end"); [done |].
  reflexivity.
Qed.

(** C2.  A tie type other than start, continue and stop is meant to fail
    with a format error.  The default case of the switch builds the
    error with [Vex.RERR] and does not throw it (every other error of the
    file is raised with [throw new Vex.RERR]): the note with the tie type
    "let-ring" is decoded, and its tie state is left unset. *)
Theorem parseNote_unknown_tie_accepted :
  ∃ noteObj,
    parseNote RESOLUTION (tiedNote "let-ring") attrs = Ok noteObj ∧
    NoteObj.tie noteObj = None ∧
    NoteObj.keys noteObj = Some ["C/4"].
Proof. eexists. split; [reflexivity |]. split; reflexivity. Qed.

End TieAndBeam.

(** ** Effective attributes *)

Lemma getAttributes_snapshots (this : MusicXML) (m p : nat) :
  getAttributes this m p = mergeAll (storedSnapshots this p m).
Proof.
  unfold getAttributes, mergeAll, storedSnapshots.
  generalize noAttributes (seq 0 (S m)).
  intros acc l. revert acc.
  induction l as [| i l IH]; intros acc; [reflexivity |].
  simpl. rewrite IH. unfold snapshot at 2.
  destruct (JSArray.get (attributes this) i) as [row |]; simpl; [| reflexivity].
  destruct (JSArray.get row p); reflexivity.
Qed.

Section Field.

Context {A : Type} (f : Attributes -> option A).

(** [f] reads a key of the object: after a merge, it is the source's
    value when the source has the key. *)
Hypothesis f_Merge :
  ∀ destination source,
    f (Merge destination source)
    = match f source with Some v => Some v | None => f destination end.

(** The object [{}] has no key. *)
Hypothesis f_noAttributes : f noAttributes = None.

Lemma field_merge_absent (l : list Attributes) (acc : Attributes) :
  (∀ s, s ∈ l → f s = None) → f (foldl Merge acc l) = f acc.
Proof.
  revert acc. induction l as [| s l IH]; intros acc Hl; [reflexivity |].
  simpl. rewrite IH.
  - rewrite f_Merge, (Hl s); [reflexivity | left].
  - intros s' Hs'. apply Hl. by right.
Qed.

Lemma field_merge_last (l1 l2 : list Attributes) (s acc : Attributes) (v : A) :
  f s = Some v → (∀ s', s' ∈ l2 → f s' = None) →
  f (foldl Merge acc (l1 ++ s :: l2)) = Some v.
Proof.
  intros Hs Hl2. rewrite foldl_app. simpl.
  rewrite field_merge_absent by done.
  by rewrite f_Merge, Hs.
Qed.

Lemma field_mostRecent (this : MusicXML) (m p : nat) : mostRecent f this m p.
Proof.
  split.
  - intros i s v Hi Hsnap Hv Hlater.
    rewrite getAttributes_snapshots. unfold mergeAll, storedSnapshots.
    replace (S m) with (i + S (m - i))%nat by lia.
    rewrite seq_app, omap_app. simpl. rewrite Hsnap.
    apply field_merge_last; [done |].
    intros s' Hs'. apply list_elem_of_omap in Hs' as (j & Hj & Hsnap').
    apply elem_of_seq in Hj. apply (Hlater j s'); [lia | done].
  - intros Hnone.
    rewrite getAttributes_snapshots. unfold mergeAll, storedSnapshots.
    rewrite field_merge_absent; [exact f_noAttributes |].
    intros s Hs. apply list_elem_of_omap in Hs as (i & Hi & Hsnap).
    apply elem_of_seq in Hi. apply (Hnone i s); [lia | done].
Qed.

End Field.

(** C3.  The effective attributes of part [p] at measure [m] are the merge,
    from left to right, of the snapshots stored for the part at the
    measures 0..m; each key holds the value of the last of these snapshots
    that has it: a key no later snapshot has keeps its value, and a key a
    later measure declares again has the new value from that measure on,
    while the measures before it keep the old one. *)
Theorem getAttributes_effective (this : MusicXML) (m p : nat) :
  getAttributes this m p = mergeAll (storedSnapshots this p m) ∧
  mostRecent divisions this m p ∧
  mostRecent key this m p ∧
  mostRecent time this m p ∧
  mostRecent clef this m p ∧
  mostRecent staves this m p.
Proof.
  split; [apply getAttributes_snapshots |].
  repeat split; apply field_mostRecent; reflexivity || (intros [] []; reflexivity).
Qed.

(** In [waltz] the clef of measure 0 is still in force at measure 3, the
    time is 3/4 at measure 1 and 4/4 at the measures 2 and 3. *)
Lemma getAttributes_effective_witness :
  clef (getAttributes waltz 3 0) = Some (ClefScalar (Some bass)) ∧
  time (getAttributes waltz 1 0) = Some (mkTime (Int 3) (Int 4)) ∧
  time (getAttributes waltz 2 0) = Some (mkTime (Int 4) (Int 4)) ∧
  time (getAttributes waltz 3 0) = Some (mkTime (Int 4) (Int 4)).
Proof.
  pose proof (getAttributes_effective waltz 3 0) as (_ & _ & _ & [Htime3 _] & [Hclef3 _] & _).
  pose proof (getAttributes_effective waltz 1 0) as (_ & _ & _ & [Htime1 _] & _).
  pose proof (getAttributes_effective waltz 2 0) as (_ & _ & _ & [Htime2 _] & _).
  split; [| split; [| split]].
  - eapply (Hclef3 0%nat); [lia | vm_compute; reflexivity | reflexivity |].
    intros j s' Hj. assert (j = 1 ∨ j = 2 ∨ j = 3)%nat as [-> | [-> | ->]] by lia;
      vm_compute; intros; simplify_eq; reflexivity.
  - eapply (Htime1 0%nat); [lia | vm_compute; reflexivity | reflexivity |].
    intros j s' Hj. assert (j = 1)%nat as -> by lia.
    vm_compute; intros; simplify_eq.
  - eapply (Htime2 2%nat); [lia | vm_compute; reflexivity | reflexivity |].
    intros j s' Hj. lia.
  - eapply (Htime3 2%nat); [lia | vm_compute; reflexivity | reflexivity |].
    intros j s' Hj. assert (j = 3)%nat as -> by lia.
    vm_compute; intros; simplify_eq.
Defined.

(** ** Note decoding: what each child changes *)

Lemma parseNotation_frame (st st' : Decoding) (notationElem : Node) :
  parseNotation st notationElem = Ok st' → sameButTie st st'.
Proof.
  unfold parseNotation, sameButTie, defined, bind. intros H.
  repeat case_match; simplify_eq; simpl; done.
Qed.

Lemma parseNotations_frame (st st' : Decoding) (elem : Node) :
  parseNotations st elem = Ok st' → sameButTie st st'.
Proof.
  unfold parseNotations. generalize (childNodes elem). intros l. revert st.
  induction l as [| e l IH]; intros st H; simpl in H.
  - simplify_eq. by unfold sameButTie.
  - destruct (parseNotation st e) as [st1 |] eqn:E; simpl in H; [| done].
    apply parseNotation_frame in E. apply IH in H.
    unfold sameButTie in *. intuition congruence.
Qed.

Section Frame.

Variable RESOLUTION : Z.
Variable attrs : Attributes.

(** Only a [<time-modification>] child changes the two local variables,
    only a [<rest>] child the rest flag, only a [<rest>] or [<pitch>] child
    the keys, only a [<duration>] child the ticks. *)
Lemma parseNoteChild_frame (st st' : Decoding) (elem : Node) :
  parseNoteChild RESOLUTION attrs st elem = Ok st' →
  (nodeName elem ≠ "time-modification" →
   num_notes st' = num_notes st ∧ beats_occupied st' = beats_occupied st) ∧
  (nodeName elem ≠ "rest" →
   NoteObj.rest (noteObj st') = NoteObj.rest (noteObj st)) ∧
  (nodeName elem ≠ "rest" → nodeName elem ≠ "pitch" →
   NoteObj.keys (noteObj st') = NoteObj.keys (noteObj st)) ∧
  (nodeName elem ≠ "duration" →
   NoteObj.intrinsicTicks (noteObj st') = NoteObj.intrinsicTicks (noteObj st)).
Proof.
  unfold parseNoteChild. cbv zeta.
  repeat match goal with
  | |- context [String.eqb ?a ?b] => destruct (String.eqb_spec a b)
  end;
  intros H;
  try (apply parseNotations_frame in H; unfold sameButTie in H; intuition congruence);
  unfold parsePitch, parseType, parseDot, parseDuration, parseTimeModification, parseRest,
    parseVoice, parseStaff, parseStem, parseBeam, Assert, firstText, defined, bind in H;
  repeat case_match; simplify_eq; simpl; intuition congruence.
Qed.

Lemma parseNoteChild_time_modification (st : Decoding) (elem : Node) :
  nodeName elem = "time-modification" →
  parseNoteChild RESOLUTION attrs st elem
  = Ok (mkDecoding (noteObj st) (timeModificationVars elem).1 (timeModificationVars elem).2).
Proof.
  intros Hname. unfold parseNoteChild. rewrite Hname. closed_names.
  unfold parseTimeModification, timeModificationVars.
  repeat case_match; reflexivity.
Qed.

Lemma parseNoteChild_rest (st : Decoding) (elem : Node) :
  nodeName elem = "rest" →
  parseNoteChild RESOLUTION attrs st elem
  = Ok (with_noteObj
          (fun o => match displayKey elem with
                    | Some k => NoteObj.set_keys (Some [k]) (NoteObj.set_rest true o)
                    | None => NoteObj.set_rest true o
                    end) st).
Proof.
  intros Hname. unfold parseNoteChild. rewrite Hname. closed_names.
  unfold parseRest, displayKey.
  repeat case_match; simplify_eq; simpl in *; simplify_eq; reflexivity.
Qed.

End Frame.

(** ** Note decoding: exact ticks *)

Section Ticks.

Variable RESOLUTION : Z.
Variable attrs : Attributes.

(** The [<duration>] child writes [durationTicks], and throws when there
    are none. *)
Lemma parseNoteChild_duration (st : Decoding) (elem : Node) :
  nodeName elem = "duration" →
  parseNoteChild RESOLUTION attrs st elem
  = match durationTicks RESOLUTION attrs elem with
    | Some t => Ok (with_noteObj (NoteObj.set_intrinsicTicks (Some t)) st)
    | None => Err invalidDuration
    end.
Proof.
  intros Hname. unfold parseNoteChild. rewrite Hname. closed_names.
  unfold parseDuration, durationTicks, divisionsValue, exactTicks, Fraction.simplify.
  simpl Fraction.numerator. simpl Fraction.denominator.
  destruct (parseInt (textContent elem)) as [| d]; simpl; [by destruct (divisions attrs) |].
  destruct (divisions attrs) as [[| v] |]; simpl; try reflexivity.
  destruct (v =? 0) eqn:Hv; simpl; [reflexivity |].
  destruct (v `div` Z.gcd (RESOLUTION `div` 4 * d) v =? 1); reflexivity.
Qed.

(** [exactTicks] is the fraction in lowest terms. *)
Lemma exactTicks_reduced (d v : Z) :
  v ≠ 0 →
  ∃ n k,
    n * v = RESOLUTION / 4 * d * k ∧ Z.gcd n k = 1 ∧ k ≠ 0 ∧
    exactTicks RESOLUTION d v
    = if k =? 1 then TicksNumber (VNum (Int n))
      else TicksFraction (Fraction.mk (VNum (Int n)) (VNum (Int k))).
Proof.
  intros Hv. unfold exactTicks. cbv zeta.
  set (u := RESOLUTION / 4 * d). set (g := Z.gcd u v).
  assert (Hg : g ≠ 0) by (unfold g; intros H; apply Z.gcd_eq_0_r in H; done).
  destruct (Z.gcd_divide_l u v) as [a Ha]. destruct (Z.gcd_divide_r u v) as [b Hb].
  fold g in Ha, Hb.
  assert (Hu : u / g = a) by (rewrite Ha at 1; by apply Z.div_mul).
  assert (Hk : v / g = b) by (rewrite Hb at 1; by apply Z.div_mul).
  assert (Hgcd : Z.gcd (u / g) (v / g) = 1) by by apply Z.gcd_div_gcd.
  exists (u / g), (v / g). rewrite Hu, Hk in *. clearbody g u.
  repeat split; [subst u v; ring | done | intros ->; lia].
Qed.

(** Under four divisions a raw duration of 4 is a quarter note. *)
Lemma exactTicks_quarter :
  exactTicks RESOLUTION 4 4 = TicksNumber (VNum (Int (RESOLUTION / 4))).
Proof.
  unfold exactTicks. cbv zeta.
  rewrite (Z.gcd_comm _ 4), (Z.mul_comm _ 4), Z.gcd_mul_diag_l by lia.
  change (4 `div` 4 =? 1) with true. cbv iota.
  by rewrite (Z.mul_comm 4), Z.div_mul.
Qed.

(** It is not the whole note, whatever the positive number of its ticks. *)
Lemma exactTicks_quarter_not_whole :
  0 < RESOLUTION → exactTicks RESOLUTION 4 4 ≠ TicksNumber (VNum (Int RESOLUTION)).
Proof.
  intros Hpos. rewrite exactTicks_quarter. intros H. simplify_eq.
  pose proof (Z.div_lt RESOLUTION 4 Hpos). lia.
Qed.

(** After the children [cs], the ticks are those of the last [<duration>]
    child among them. *)
Lemma forEach_intrinsicTicks (cs : list Node) (st st' : Decoding) :
  forEach (parseNoteChild RESOLUTION attrs) cs st = Ok st' →
  NoteObj.intrinsicTicks (noteObj st')
  = match last (filter (fun c => nodeName c = "duration") cs) with
    | Some elem => durationTicks RESOLUTION attrs elem
    | None => NoteObj.intrinsicTicks (noteObj st)
    end.
Proof.
  revert st. induction cs as [| c cs IH]; intros st H; simpl in H.
  - by simplify_eq.
  - destruct (parseNoteChild RESOLUTION attrs st c) as [st1 |] eqn:E; simpl in H; [| done].
    apply IH in H. rewrite H. rewrite filter_cons.
    destruct (decide (nodeName c = "duration")) as [Hc | Hc].
    + rewrite last_cons.
      destruct (last (filter (λ c0 : Node, nodeName c0 = "duration") cs)); [reflexivity |].
      rewrite parseNoteChild_duration in E by done.
      destruct (durationTicks RESOLUTION attrs c); by simplify_eq.
    + apply parseNoteChild_frame in E as (_ & _ & _ & Hticks).
      destruct (last (filter (λ c0 : Node, nodeName c0 = "duration") cs)); [reflexivity |].
      by apply Hticks.
Qed.

Lemma finishNote_intrinsicTicks (st : Decoding) :
  NoteObj.intrinsicTicks (finishNote attrs st) = NoteObj.intrinsicTicks (noteObj st).
Proof. unfold finishNote. repeat case_match; reflexivity. Qed.

(** C5.  For a [<duration>] child with the raw integer [d], decoded under
    [v] divisions: the child fails with the invalid-duration error exactly
    when the numerator or the denominator of the reduced fraction is not a
    number, which is when the raw duration is no integer or the divisions
    are absent, no number or zero; otherwise it sets the ticks to the
    fraction (RESOLUTION/4 × d) / v in lowest terms, a plain integer when
    the reduced denominator is 1; these are the ticks of the decoded note
    when the child is its last [<duration>]; and with four divisions a raw
    duration of 4 gives the integer RESOLUTION/4, the ticks of a quarter
    note. *)
Theorem parseDuration_exact_ticks (st : Decoding) (elem : Node)
    (Hname : nodeName elem = "duration") :
  let fraction :=
    Fraction.simplify
      (Fraction.mk (VNum (num_mul (Int (RESOLUTION / 4)) (parseInt (textContent elem))))
                   (divisionsValue attrs)) in
  (parseNoteChild RESOLUTION attrs st elem = Err invalidDuration
   ↔ isNaN (Fraction.numerator fraction) = true ∨ isNaN (Fraction.denominator fraction) = true) ∧
  (isNaN (Fraction.numerator fraction) = true ∨ isNaN (Fraction.denominator fraction) = true
   ↔ ¬ ∃ d v, parseInt (textContent elem) = Int d ∧ divisions attrs = Some (Int v) ∧ v ≠ 0) ∧
  (∀ d v,
     parseInt (textContent elem) = Int d → divisions attrs = Some (Int v) → v ≠ 0 →
     parseNoteChild RESOLUTION attrs st elem
     = Ok (with_noteObj (NoteObj.set_intrinsicTicks (Some (exactTicks RESOLUTION d v))) st) ∧
     (∀ noteElem noteObj,
        last (childrenNamed "duration" noteElem) = Some elem →
        parseNote RESOLUTION noteElem attrs = Ok noteObj →
        NoteObj.intrinsicTicks noteObj = Some (exactTicks RESOLUTION d v)) ∧
     ∃ n k,
       n * v = RESOLUTION / 4 * d * k ∧ Z.gcd n k = 1 ∧ k ≠ 0 ∧
       exactTicks RESOLUTION d v
       = if k =? 1 then TicksNumber (VNum (Int n))
         else TicksFraction (Fraction.mk (VNum (Int n)) (VNum (Int k)))) ∧
  (parseInt (textContent elem) = Int 4 → divisions attrs = Some (Int 4) →
   parseNoteChild RESOLUTION attrs st elem
   = Ok (with_noteObj
           (NoteObj.set_intrinsicTicks (Some (TicksNumber (VNum (Int (RESOLUTION / 4)))))) st)).
Proof.
  cbv zeta. rewrite parseNoteChild_duration by done.
  unfold durationTicks, divisionsValue, Fraction.simplify.
  simpl Fraction.numerator. simpl Fraction.denominator.
  split; [| split; [| split]].
  - destruct (parseInt (textContent elem)) as [| d]; simpl.
    { destruct (divisions attrs); simpl; intuition. }
    destruct (divisions attrs) as [[| v] |]; simpl; try (intuition; fail).
    destruct (v =? 0); simpl; intuition congruence.
  - destruct (parseInt (textContent elem)) as [| d]; simpl.
    { destruct (divisions attrs); simpl; split; try (intuition; fail);
        intros _ (d & v & ? & _); done. }
    destruct (divisions attrs) as [[| v] |]; simpl;
      try (split; [intros _ (d' & v' & _ & ? & _); done | intuition]).
    destruct (v =? 0) eqn:Hv; simpl.
    + split; [| intuition]. intros _ (d' & v' & _ & ? & ?). simplify_eq. lia.
    + split; [intros [? | ?]; done |].
      intros Hno. exfalso. apply Hno. exists d, v. repeat split. lia.
  - intros d v Hd Hdiv Hv. rewrite Hd, Hdiv.
    destruct (v =? 0) eqn:Hv0; [lia |].
    split; [reflexivity |]. split; [| by apply exactTicks_reduced].
    intros noteElem noteObj Hlast Hnote. unfold parseNote in Hnote.
    destruct (forEach _ _ _) as [st1 |] eqn:E; simpl in Hnote; [| done].
    simplify_eq. rewrite finishNote_intrinsicTicks.
    apply forEach_intrinsicTicks in E. unfold childrenNamed in Hlast.
    rewrite E, Hlast. unfold durationTicks. by rewrite Hd, Hdiv, Hv0.
  - intros -> ->. simpl. by rewrite exactTicks_quarter.
Qed.

End Ticks.

(** Under four divisions the note [<duration>4</duration>] has 4096 of the
    16384 ticks of a whole note. *)
Lemma parseDuration_exact_ticks_witness :
  parseNoteChild sampleResolution fourDivisions
    (mkDecoding NoteObj.init VNull VNull) (leaf "duration" "4")
  = Ok (with_noteObj (NoteObj.set_intrinsicTicks (Some (TicksNumber (VNum (Int 4096)))))
          (mkDecoding NoteObj.init VNull VNull)) ∧
  (∀ noteObj,
     parseNote sampleResolution quarterNote fourDivisions = Ok noteObj →
     NoteObj.intrinsicTicks noteObj = Some (TicksNumber (VNum (Int 4096)))).
Proof.
  destruct (parseDuration_exact_ticks sampleResolution fourDivisions
              (mkDecoding NoteObj.init VNull VNull) (leaf "duration" "4") eq_refl)
    as (_ & _ & Hticks & Hquarter).
  split.
  - apply Hquarter; reflexivity.
  - intros noteObj Hnote.
    destruct (Hticks 4 4 eq_refl eq_refl) as (_ & Hlast & _); [lia |].
    apply (Hlast quarterNote noteObj); [reflexivity | exact Hnote].
Defined.

(** C5, as first stated, has a raw duration of 4 under four divisions give
    the integer RESOLUTION.  With a whole note of 16384 ticks the decoded
    note has 4096 ticks. *)
Lemma quarter_duration_is_not_resolution :
  ∃ noteObj,
    parseNote sampleResolution quarterNote fourDivisions = Ok noteObj ∧
    NoteObj.intrinsicTicks noteObj = Some (TicksNumber (VNum (Int 4096))) ∧
    NoteObj.intrinsicTicks noteObj ≠ Some (TicksNumber (VNum (Int sampleResolution))).
Proof.
  eexists. split; [reflexivity |]. split; [reflexivity |].
  vm_compute. discriminate.
Qed.

(** ** Note decoding: tuplets *)

Section Tuplets.

Variable RESOLUTION : Z.
Variable attrs : Attributes.

(** After the children [cs], the two local variables are those of the last
    [<time-modification>] child among them. *)
Lemma forEach_time_modification (cs : list Node) (st st' : Decoding) :
  forEach (parseNoteChild RESOLUTION attrs) cs st = Ok st' →
  (num_notes st', beats_occupied st')
  = match last (filter (fun c => nodeName c = "time-modification") cs) with
    | Some elem => timeModificationVars elem
    | None => (num_notes st, beats_occupied st)
    end.
Proof.
  revert st. induction cs as [| c cs IH]; intros st H; simpl in H.
  - by simplify_eq.
  - destruct (parseNoteChild RESOLUTION attrs st c) as [st1 |] eqn:E; simpl in H; [| done].
    apply IH in H. rewrite H. rewrite filter_cons.
    destruct (decide (nodeName c = "time-modification")) as [Hc | Hc].
    + rewrite last_cons.
      destruct (last (filter (λ c0 : Node, nodeName c0 = "time-modification") cs));
        [reflexivity |].
      rewrite parseNoteChild_time_modification in E by done.
      simplify_eq. simpl. by destruct (timeModificationVars c).
    + apply parseNoteChild_frame in E as (Hvars & _).
      destruct (last (filter (λ c0 : Node, nodeName c0 = "time-modification") cs));
        [reflexivity |].
      destruct (Hvars Hc) as [-> ->]. reflexivity.
Qed.

(** The variables of a [<time-modification>] are both truthy exactly when
    it supplies two counts that are integers other than 0. *)
Lemma timeModificationVars_truthy (elem : Node) :
  match suppliedCounts elem with
  | Some (actual, normal) =>
      timeModificationVars elem = (VNum (Int actual), VNum (Int normal)) ∧
      actual ≠ 0 ∧ normal ≠ 0
  | None =>
      truthy (timeModificationVars elem).1 && truthy (timeModificationVars elem).2 = false
  end.
Proof.
  unfold suppliedCounts, timeModificationVars.
  destruct (head (getElementsByTagName elem "actual-notes")) as [a |]; simpl;
    [| by destruct (head (getElementsByTagName elem "normal-notes"))].
  destruct (head (getElementsByTagName elem "normal-notes")) as [n |]; simpl;
    [| reflexivity].
  destruct (parseInt (textContent a)) as [| x]; simpl; [reflexivity |].
  destruct (parseInt (textContent n)) as [| y]; simpl; [by rewrite andb_false_r |].
  destruct (x =? 0) eqn:Hx; simpl; [reflexivity |].
  destruct (y =? 0) eqn:Hy; simpl; [reflexivity |].
  repeat split; lia.
Qed.

Lemma finishNote_tuplet (st : Decoding) :
  (NoteObj.tickMultiplier (finishNote attrs st), NoteObj.tuplet (finishNote attrs st))
  = if truthy (num_notes st) && truthy (beats_occupied st)
    then (Some (Fraction.mk (beats_occupied st) (num_notes st)),
          Some (Tuplet.mk (num_notes st) (beats_occupied st)))
    else (Some (Fraction.mk (VNum (Int 1)) (VNum (Int 1))), None).
Proof. unfold finishNote. repeat case_match; reflexivity. Qed.

(** C6.  For every decoded note element: when its [<time-modification>]
    child (the last one, if there are several) supplies an actual-notes
    and a normal-notes count that both read as integers other than 0, the
    tick multiplier is the fraction normal/actual and the tuplet
    descriptor holds the two counts; otherwise (no such child, a count
    missing, or a count that reads as 0 or as no number) the tick
    multiplier is 1/1 and the tuplet descriptor is null. *)
Theorem parseNote_tuplet (noteElem : Node) (noteObj : NoteObj.t) :
  parseNote RESOLUTION noteElem attrs = Ok noteObj →
  match tupletCounts noteElem with
  | Some (actual, normal) =>
      actual ≠ 0 ∧ normal ≠ 0 ∧
      NoteObj.tickMultiplier noteObj
      = Some (Fraction.mk (VNum (Int normal)) (VNum (Int actual))) ∧
      NoteObj.tuplet noteObj = Some (Tuplet.mk (VNum (Int actual)) (VNum (Int normal)))
  | None =>
      NoteObj.tickMultiplier noteObj = Some (Fraction.mk (VNum (Int 1)) (VNum (Int 1))) ∧
      NoteObj.tuplet noteObj = None
  end.
Proof.
  unfold parseNote. intros Hnote.
  destruct (forEach _ _ _) as [st |] eqn:E; simpl in Hnote; [| done].
  simplify_eq. apply forEach_time_modification in E. simpl in E.
  pose proof (finishNote_tuplet st) as Hfinish.
  unfold tupletCounts, childrenNamed.
  destruct (last (filter (λ c : Node, nodeName c = "time-modification") (childNodes noteElem)))
    as [elem |]; simpl.
  - pose proof (timeModificationVars_truthy elem) as Hvars.
    destruct (suppliedCounts elem) as [[actual normal] |].
    + destruct Hvars as (Hvars & Ha & Hn). rewrite Hvars in E.
      injection E as Hnn Hbo. rewrite Hnn, Hbo in Hfinish. simpl in Hfinish.
      destruct (actual =? 0) eqn:Ha0; [lia |]. destruct (normal =? 0) eqn:Hn0; [lia |].
      simpl in Hfinish. by simplify_eq.
    + rewrite <- E in Hvars. simpl in Hvars. rewrite Hvars in Hfinish. by simplify_eq.
  - injection E as Hnn Hbo. rewrite Hnn, Hbo in Hfinish. simpl in Hfinish. by simplify_eq.
Qed.

End Tuplets.

(** A triplet: three notes in the time of two have the multiplier 2/3. *)
Lemma parseNote_tuplet_witness :
  ∃ noteObj,
    parseNote sampleResolution (tupletNote "3" "2") noAttributes = Ok noteObj ∧
    NoteObj.tickMultiplier noteObj = Some (Fraction.mk (VNum (Int 2)) (VNum (Int 3))) ∧
    NoteObj.tuplet noteObj = Some (Tuplet.mk (VNum (Int 3)) (VNum (Int 2))).
Proof.
  eexists. split; [reflexivity |].
  apply (parseNote_tuplet sampleResolution noAttributes (tupletNote "3" "2")).
  reflexivity.
Defined.

(** C6, as first stated, gives every note whose [<time-modification>]
    supplies both counts the multiplier normal/actual and a tuplet
    descriptor.  With the counts 3 and 0 both are supplied, and the note
    has the multiplier 1/1 and no descriptor: a count of 0 is falsy. *)
Lemma tuplet_with_zero_count_dropped :
  is_Some (head (getElementsByTagName (tupletNote "3" "0") "actual-notes")) ∧
  is_Some (head (getElementsByTagName (tupletNote "3" "0") "normal-notes")) ∧
  ∃ noteObj,
    parseNote sampleResolution (tupletNote "3" "0") noAttributes = Ok noteObj ∧
    NoteObj.tickMultiplier noteObj ≠ Some (Fraction.mk (VNum (Int 0)) (VNum (Int 3))) ∧
    NoteObj.tickMultiplier noteObj = Some (Fraction.mk (VNum (Int 1)) (VNum (Int 1))) ∧
    NoteObj.tuplet noteObj = None.
Proof.
  split; [vm_compute; eauto |]. split; [vm_compute; eauto |].
  eexists. split; [reflexivity |]. split; [vm_compute; discriminate |].
  split; reflexivity.
Qed.

(** ** Note decoding: rests *)

Section Rests.

Variable RESOLUTION : Z.
Variable attrs : Attributes.

Lemma last_omap_cons {A B : Type} (f : A → option B) (x : A) (l : list A) :
  last (omap f (x :: l))
  = match last (omap f l) with Some y => Some y | None => f x end.
Proof.
  change (omap f (x :: l)) with (match f x with Some y => y :: omap f l | None => omap f l end).
  destruct (f x) as [y |]; [| by destruct (last (omap f l))].
  rewrite last_cons. by destruct (last (omap f l)).
Qed.


Lemma finishNote_rest (st : Decoding) :
  NoteObj.rest (noteObj st) = true →
  NoteObj.rest (finishNote attrs st) = true ∧
  NoteObj.stave (finishNote attrs st) = NoteObj.stave (noteObj st) ∧
  NoteObj.keys (finishNote attrs st)
  = match NoteObj.keys (noteObj st) with
    | Some keys => Some keys
    | None => Some [defaultRestKey (clefInForce attrs (NoteObj.stave (noteObj st)))]
    end.
Proof.
  intros Hrest. unfold finishNote, defaultRestKey.
  set (o := if truthy (num_notes st) && truthy (beats_occupied st) then _ else _).
  assert (Ho : NoteObj.rest o = NoteObj.rest (noteObj st) ∧
               NoteObj.keys o = NoteObj.keys (noteObj st) ∧
               NoteObj.stave o = NoteObj.stave (noteObj st)).
  { unfold o. by destruct (truthy (num_notes st) && truthy (beats_occupied st)). }
  destruct Ho as (Hr & Hk & Hs). rewrite Hr, Hk, Hs, Hrest. clearbody o.
  destruct (NoteObj.keys (noteObj st)) as [keys |] eqn:Hkeys.
  - rewrite bool_decide_eq_false_2 by done. simpl. by rewrite Hr, Hk, Hs, Hrest.
  - rewrite bool_decide_eq_true_2 by done. simpl.
    by destruct (clefInForce attrs (NoteObj.stave (noteObj st))) as [[] |]; simpl;
      rewrite Hr, Hs, Hrest.
Qed.


End Rests.

(** ** The voices of a part *)

Lemma getVoice_setNumberOfVoices (part : Measure.Part) (n i : Z) :
  Measure.getVoice (Measure.setNumberOfVoices part n) i
  = if decide (i < n) then Measure.getVoice part i else Measure.emptyVoice.
Proof.
  unfold Measure.getVoice, Measure.setNumberOfVoices. simpl.
  destruct (decide (i < n)) as [Hi | Hi].
  - destruct (Measure.voices part !! i) as [voice |] eqn:E.
    + erewrite (proj2 (map_lookup_filter_Some _ _ i voice)); [reflexivity | done].
    + erewrite (proj2 (map_lookup_filter_None _ _ i)); [reflexivity | by left].
  - erewrite (proj2 (map_lookup_filter_None _ _ i)); [reflexivity |].
    right. intros voice _. done.
Qed.

Lemma getVoice_setVoice (part : Measure.Part) (i j : Z) (voice : Measure.Voice) :
  Measure.getVoice (Measure.setVoice part i voice) j
  = if decide (i = j) then voice else Measure.getVoice part j.
Proof.
  unfold Measure.getVoice, Measure.setVoice. simpl.
  rewrite lookup_insert. by destruct (decide (i = j)).
Qed.

(** Setting the number of voices adds no note to any voice. *)
Lemma bucket_setNumberOfVoices (part : Measure.Part) (n w : Z) :
  (length (bucket (Measure.setNumberOfVoices part n) w) ≤ length (bucket part w))%nat.
Proof.
  unfold bucket. rewrite getVoice_setNumberOfVoices.
  destruct (decide (w < n)); simpl; lia.
Qed.

(** ** Measure materialization: chord notes *)

(** The part and the voice [placeNote] works on: the number of voices is
    set when the note has a voice id above 0, which keeps the voice of
    that id. *)
Lemma placeNote_chord_unfold (part : Measure.Part) (noteObj : NoteObj.t) :
  NoteObj.chord noteObj = true →
  ∃ part0,
    bucket part0 (voiceNumber noteObj) = bucket part (voiceNumber noteObj) ∧
    (∀ w, length (bucket part0 w) ≤ length (bucket part w))%nat ∧
    placeNote part noteObj
    = (let voice := Measure.getVoice part0 (voiceNumber noteObj) in
       let voice :=
         match Measure.notes voice, NoteObj.stave noteObj with
         | [], Some stave => Measure.mkVoice (Measure.notes voice) (Some stave)
         | _, _ => voice
         end in
       previous <- defined "voice.notes[voice.notes.length-1]" (last (Measure.notes voice)) ;;
       keys <- defined "noteObj.keys" (NoteObj.keys noteObj) ;;
       key <- defined "noteObj.keys[0]" (head keys) ;;
       Ok (Measure.setVoice part0 (voiceNumber noteObj)
             (Measure.mkVoice
                (removelast (Measure.notes voice) ++
                 [Measure.mkNote (Measure.keys previous ++ [key]) (Measure.decoded previous)])
                (Measure.stave voice)))).
Proof.
  intros Hchord. unfold placeNote, voiceNumber.
  destruct (NoteObj.voice noteObj) as [voice |] eqn:Hvoice; simpl.
  - destruct (voice =? 0) eqn:Hzero.
    + assert (voice = 0) as -> by lia. exists part. rewrite Hchord. by repeat split.
    + destruct (1 <=? voice) eqn:Hone.
      * exists (Measure.setNumberOfVoices part (voice + 1)). simpl. rewrite Hchord.
        split; [| split; [intros w; apply bucket_setNumberOfVoices | reflexivity]].
        unfold bucket. rewrite getVoice_setNumberOfVoices.
        destruct (decide (voice < voice + 1)); [reflexivity | lia].
      * exists part. simpl. rewrite Hchord. by repeat split.
  - exists part. rewrite Hchord. by repeat split.
Qed.

(** The chord branch reads the last note of the voice of the chord note
    without a guard.  When that voice has a note, the note read exists,
    and the chord note is merged when it has a key; when the voice has no
    note, the read hits no element and [placeNote] fails with a
    TypeError. *)
Lemma placeNote_chord_bucket (part : Measure.Part) (noteObj : NoteObj.t) :
  NoteObj.chord noteObj = true →
  (bucket part (voiceNumber noteObj) ≠ [] →
   ∃ previous,
     last (bucket part (voiceNumber noteObj)) = Some previous ∧
     placeNote part noteObj ≠ Err (TypeError "voice.notes[voice.notes.length-1]") ∧
     (∀ key keys, NoteObj.keys noteObj = Some (key :: keys) →
                  ∃ part', placeNote part noteObj = Ok part')) ∧
  (bucket part (voiceNumber noteObj) = [] →
   placeNote part noteObj = Err (TypeError "voice.notes[voice.notes.length-1]")).
Proof.
  intros Hchord.
  destruct (placeNote_chord_unfold part noteObj Hchord) as (part0 & Hbucket & _ & ->).
  unfold bucket in *. cbv zeta. rewrite !Hbucket.
  destruct (Measure.notes (Measure.getVoice part (voiceNumber noteObj))) as [| n notes] eqn:Hn.
  - split; [done |]. intros _.
    destruct (NoteObj.stave noteObj); simpl; rewrite ?Hbucket; reflexivity.
  - split; [| done]. intros _.
    destruct (last (n :: notes)) as [previous |] eqn:Hlast;
      [| by apply last_None in Hlast].
    exists previous. split; [done |].
    rewrite Hbucket, Hlast. simpl.
    split.
    + destruct (NoteObj.keys noteObj) as [[| key keys] |]; simpl; done.
    + intros key keys ->. simpl. eauto.
Qed.

(** A chord note in voice 2 of [sparsePart], which ends with "F/4", is
    merged; in voice 1, which has no note, it fails. *)
Lemma placeNote_chord_sparsePart :
  (∃ part', placeNote sparsePart (plainNote "A/4" (Some 2) true) = Ok part') ∧
  placeNote sparsePart (plainNote "A/4" (Some 1) true)
  = Err (TypeError "voice.notes[voice.notes.length-1]").
Proof.
  split.
  - destruct (placeNote_chord_bucket sparsePart (plainNote "A/4" (Some 2) true) eq_refl)
      as [Hsome _].
    destruct Hsome as (previous & _ & _ & Hmerge); [vm_compute; discriminate |].
    apply (Hmerge "A/4" []). reflexivity.
  - destruct (placeNote_chord_bucket sparsePart (plainNote "A/4" (Some 1) true) eq_refl)
      as [_ Hnone].
    apply Hnone. reflexivity.
Qed.

(** A note that is no chord note becomes the last event of its voice. *)
Lemma placeNote_plain (part : Measure.Part) (noteObj : NoteObj.t) :
  NoteObj.chord noteObj = false →
  ∃ part' event,
    placeNote part noteObj = Ok part' ∧
    Measure.keys event = default [] (NoteObj.keys noteObj) ∧
    bucket part' (voiceNumber noteObj) = (bucket part (voiceNumber noteObj) ++ [event])%list.
Proof.
  intros Hchord. unfold placeNote, voiceNumber, bucket.
  destruct (NoteObj.voice noteObj) as [voice |] eqn:Hvoice; simpl.
  - destruct (voice =? 0) eqn:Hzero.
    + assert (voice = 0) as -> by lia. rewrite Hchord.
      eexists _, (Measure.newNote noteObj). split; [reflexivity |]. split; [reflexivity |].
      rewrite getVoice_setVoice. destruct (decide (0 = 0)); [| done].
      destruct (Measure.notes (Measure.getVoice part 0)) eqn:Hn, (NoteObj.stave noteObj);
        simpl; rewrite ?Hn; reflexivity.
    + simpl. rewrite Hchord.
      eexists _, (Measure.newNote (NoteObj.set_voice None noteObj)).
      split; [reflexivity |]. split; [reflexivity |].
      rewrite getVoice_setVoice. destruct (decide (voice = voice)); [| done].
      assert (Hsame : Measure.getVoice
                        (if 1 <=? voice then Measure.setNumberOfVoices part (voice + 1) else part)
                        voice = Measure.getVoice part voice).
      { destruct (1 <=? voice); [| reflexivity].
        rewrite getVoice_setNumberOfVoices. destruct (decide (voice < voice + 1)); [done | lia]. }
      rewrite Hsame.
      destruct (Measure.notes (Measure.getVoice part voice)) eqn:Hn, (NoteObj.stave noteObj);
        simpl; rewrite ?Hn; reflexivity.
  - rewrite Hchord. eexists _, (Measure.newNote noteObj).
    split; [reflexivity |]. split; [reflexivity |].
    rewrite getVoice_setVoice. destruct (decide (0 = 0)); [| done].
    destruct (Measure.notes (Measure.getVoice part 0)) eqn:Hn, (NoteObj.stave noteObj);
      simpl; rewrite ?Hn; reflexivity.
Qed.

(** C4.  A chord note with a key, placed while the voice of its own voice
    id has a last event: no event is created; its key is appended to the
    key list of that last event, the most recent note of the same voice id
    that was no chord note; the number of events of the voice is
    unchanged, and no voice gains an event.  When the note placed just
    before was no chord note and had the same voice id, that last event is
    the event of this note. *)
Theorem placeNote_chord_merge (part : Measure.Part) (noteObj : NoteObj.t)
    (key : string) (keys : list string)
    (init : list Measure.Note) (previous : Measure.Note) :
  NoteObj.chord noteObj = true →
  NoteObj.keys noteObj = Some (key :: keys) →
  bucket part (voiceNumber noteObj) = (init ++ [previous])%list →
  (∃ part',
     placeNote part noteObj = Ok part' ∧
     bucket part' (voiceNumber noteObj)
     = (init ++ [Measure.mkNote (Measure.keys previous ++ [key]) (Measure.decoded previous)])%list ∧
     length (bucket part' (voiceNumber noteObj)) = length (bucket part (voiceNumber noteObj)) ∧
     (∀ w, length (bucket part' w) ≤ length (bucket part w))%nat) ∧
  (∀ part0 before,
     NoteObj.chord before = false →
     voiceNumber before = voiceNumber noteObj →
     placeNote part0 before = Ok part →
     init = bucket part0 (voiceNumber noteObj) ∧
     Measure.keys previous = default [] (NoteObj.keys before)).
Proof.
  intros Hchord Hkeys Hbucket. split; cycle 1.
  { intros part0 before Hplain Hsame Hplace.
    destruct (placeNote_plain part0 before Hplain) as (part1 & event & Hplace1 & Hevent & Hb).
    rewrite Hplace in Hplace1. simplify_eq. rewrite Hsame, Hbucket in Hb.
    apply app_inj_tail in Hb as [-> ->]. by split. }
  destruct (placeNote_chord_unfold part noteObj Hchord) as (part0 & Hsame & Hle & ->).
  unfold bucket in *. cbv zeta. rewrite Hbucket in Hsame. rewrite !Hsame, Hkeys.
  assert (Hvoice : match (init ++ [previous])%list, NoteObj.stave noteObj with
                   | [], Some stave =>
                       Measure.mkVoice (init ++ [previous])%list (Some stave)
                   | _, _ => Measure.getVoice part0 (voiceNumber noteObj)
                   end = Measure.getVoice part0 (voiceNumber noteObj)).
  { destruct init; simpl; by destruct (NoteObj.stave noteObj). }
  rewrite Hvoice, Hsame, last_snoc, removelast_last. simpl.
  eexists. split; [reflexivity |].
  rewrite getVoice_setVoice. destruct (decide (voiceNumber noteObj = voiceNumber noteObj)); [| done].
  simpl. split; [reflexivity |]. split.
  - rewrite Hbucket, !length_app. reflexivity.
  - intros w. rewrite getVoice_setVoice.
    destruct (decide (voiceNumber noteObj = w)) as [<- | Hw]; simpl.
    + rewrite Hbucket, !length_app. simpl. lia.
    + apply Hle.
Qed.

(** The chord note "A/4" of voice 2 of [sparsePart] joins the event "F/4",
    the last of that voice, and the voice keeps its two events. *)
Lemma placeNote_chord_merge_witness :
  ∃ part',
    placeNote sparsePart (plainNote "A/4" (Some 2) true) = Ok part' ∧
    Measure.keys <$> bucket part' 2 = [["E/4"]; ["F/4"; "A/4"]] ∧
    length (bucket part' 2) = length (bucket sparsePart 2).
Proof.
  destruct (placeNote_chord_merge sparsePart (plainNote "A/4" (Some 2) true) "A/4" []
              [Measure.newNote (plainNote "E/4" None false)]
              (Measure.newNote (plainNote "F/4" None false))
              eq_refl eq_refl eq_refl)
    as [(part' & Hplace & Hbucket & Hlength & _) _].
  exists part'. split; [exact Hplace |]. split; [| exact Hlength].
  change (voiceNumber (plainNote "A/4" (Some 2) true)) with 2 in Hbucket.
  rewrite Hbucket. reflexivity.
Defined.

(** C4, as first stated, has the key of a chord note join the non-chord
    event just before it.  In [crossVoiceChord] the chord note "G/4" comes
    just after the note "E/4" of voice 1 and has no voice id itself: its
    key joins the note "C/4" of voice 0, and "E/4" stays alone. *)
Lemma chord_joins_its_own_voice :
  ∃ this measure part,
    parse noParser newMusicXML (DataDocument crossVoiceChord) = Ok this ∧
    getMeasure sampleResolution this 0 = Ok measure ∧
    Measure.parts measure = [part] ∧
    Measure.keys <$> bucket part 0 = [["C/4"; "G/4"]] ∧
    Measure.keys <$> bucket part 1 = [["E/4"]] ∧
    Measure.keys <$> bucket part 1 ≠ [["E/4"; "G/4"]].
Proof.
  eexists _, _, _. split; [vm_compute; reflexivity |].
  split; [vm_compute; reflexivity |].
  split; [reflexivity |].
  split; [vm_compute; reflexivity |].
  split; [vm_compute; reflexivity |].
  vm_compute. discriminate.
Qed.

(** ** Voice compaction *)

Open Scope list_scope.

(** The loop of [compactVoices] over the voice numbers [l]: the voices
    [acc] already copied sit at the indices below [v], and the voices of
    [l] that have notes are copied after them. *)
Lemma compactVoices_loop (part : Measure.Part) (l : list Z)
    (newPart : Measure.Part) (v : Z) (acc : list Measure.Voice) :
  v = Z.of_nat (length acc) →
  (∀ k voice, acc !! k = Some voice → Measure.voices newPart !! Z.of_nat k = Some voice) →
  ∃ newPart',
    foldl
      (fun '(newPart, v) i =>
         if (0 <? length (Measure.notes (Measure.getVoice part i)))%nat
         then (Measure.setVoice newPart v (Measure.getVoice part i), v + 1)
         else (newPart, v))
      (newPart, v) l
    = (newPart', Z.of_nat (length (acc ++ filter hasNotes (Measure.getVoice part <$> l)))) ∧
    (∀ k voice,
       (acc ++ filter hasNotes (Measure.getVoice part <$> l)) !! k = Some voice →
       Measure.voices newPart' !! Z.of_nat k = Some voice).
Proof.
  revert newPart v acc. induction l as [| i l IH]; intros newPart v acc Hv Hacc.
  - exists newPart. simpl. rewrite app_nil_r. by subst v.
  - simpl foldl. rewrite fmap_cons, filter_cons.
    destruct (decide (hasNotes (Measure.getVoice part i))) as [Hnotes | Hnotes].
    + apply Is_true_true in Hnotes. unfold hasNotes in Hnotes. rewrite Hnotes.
      destruct (IH (Measure.setVoice newPart v (Measure.getVoice part i)) (v + 1)
                   (acc ++ [Measure.getVoice part i])) as (newPart' & Hfold & Hlookup).
      * rewrite length_app. simpl. lia.
      * intros k voice Hk. simpl.
        destruct (decide (k < length acc)%nat) as [Hlt | Hge].
        -- rewrite lookup_app_l in Hk by done.
           rewrite lookup_insert_ne by lia. by apply Hacc.
        -- rewrite lookup_app_r in Hk by lia.
           destruct (k - length acc)%nat as [| n] eqn:Hdiff; simpl in Hk; [| done].
           simplify_eq. replace (Z.of_nat k) with (Z.of_nat (length acc)) by lia.
           apply lookup_insert_eq.
      * exists newPart'. rewrite <- !app_assoc in Hfold, Hlookup. done.
    + apply Is_true_false in Hnotes. unfold hasNotes in Hnotes. rewrite Hnotes.
      by apply IH.
Qed.

(** Compaction takes the voices of a part at the indices below its
    number of voices in ascending order, skips every voice without notes,
    and puts the others, unchanged (notes and staff), at the indices 0, 1,
    ..., N-1 of the new part, which has N voices and none at an index from
    N on. *)
Lemma compactVoices_voiceList (part : Measure.Part) :
  voiceList (compactVoices part) = filter hasNotes (voiceList part) ∧
  Measure.getNumberOfVoices (compactVoices part)
  = Z.of_nat (length (filter hasNotes (voiceList part))) ∧
  (∀ i, Measure.getNumberOfVoices (compactVoices part) ≤ i →
        Measure.voices (compactVoices part) !! i = None).
Proof.
  assert (Hcompact : ∃ newPart,
            compactVoices part
            = Measure.setNumberOfVoices newPart
                (Z.of_nat (length (filter hasNotes (voiceList part)))) ∧
            ∀ k voice, filter hasNotes (voiceList part) !! k = Some voice →
                       Measure.voices newPart !! Z.of_nat k = Some voice).
  { destruct (compactVoices_loop part (seqZ 0 (Measure.getNumberOfVoices part)) part 0 [])
      as (newPart & Hfold & Hlookup); [reflexivity | by intros k voice | ].
    exists newPart. unfold compactVoices. rewrite Hfold. by split. }
  destruct Hcompact as (newPart & -> & Hlookup).
  set (voices := filter hasNotes (voiceList part)) in *.
  split; [| split; [reflexivity |]].
  - unfold voiceList at 1. simpl Measure.getNumberOfVoices.
    apply list_eq. intros k. rewrite list_lookup_fmap.
    destruct (decide (k < length voices)%nat) as [Hlt | Hge].
    + rewrite lookup_seqZ_lt by lia. simpl.
      destruct (lookup_lt_is_Some_2 voices k Hlt) as [voice Hvoice].
      rewrite Hvoice. f_equal. rewrite getVoice_setNumberOfVoices.
      destruct (decide (0 + Z.of_nat k < Z.of_nat (length voices))); [| lia].
      unfold Measure.getVoice. replace (0 + Z.of_nat k) with (Z.of_nat k) by lia.
      by rewrite (Hlookup k voice).
    + rewrite lookup_seqZ_ge by lia. simpl. symmetry. apply lookup_ge_None. lia.
  - intros i Hi. simpl in *.
    apply map_lookup_filter_None. right. intros voice _. simpl. lia.
Qed.

(** ** Measure materialization: the time signature *)

Lemma forEach_ext {S E : Type} (f g : S → E → result S) (l : list E) (s : S) :
  (∀ s x, f s x = g s x) → forEach f l s = forEach g l s.
Proof.
  intros Hfg. revert s. induction l as [| x l IH]; intros s; [reflexivity |].
  simpl. rewrite Hfg. destruct (g s x); simpl; [apply IH | reflexivity].
Qed.

Lemma forEach_invariant {S E : Type} (P : S → Prop) (f : S → E → result S)
    (l : list E) (s s' : S) :
  (∀ s x s', f s x = Ok s' → P s → P s') →
  P s → forEach f l s = Ok s' → P s'.
Proof.
  intros Hstep. revert s. induction l as [| x l IH]; intros s Hs H; simpl in H.
  - by simplify_eq.
  - destruct (f s x) as [s1 |] eqn:Hf; simpl in H; [| done].
    apply (IH s1); [by apply (Hstep s x) | done].
Qed.

Section Time.

Variable RESOLUTION : Z.

Lemma placeNote_part_time (part part' : Measure.Part) (noteObj : NoteObj.t) :
  placeNote part noteObj = Ok part' → Measure.part_time part' = Measure.part_time part.
Proof.
  unfold placeNote, defined, bind. intros H.
  repeat case_match; simplify_eq; reflexivity.
Qed.

Lemma compactVoices_part_time (part : Measure.Part) :
  Measure.part_time (compactVoices part) = Measure.part_time part.
Proof.
  unfold compactVoices.
  generalize (seqZ 0 (Measure.getNumberOfVoices part)). intros l.
  assert (H : ∀ newPart v,
            Measure.part_time
              (foldl
                 (fun '(newPart, v) i =>
                    if (0 <? length (Measure.notes (Measure.getVoice part i)))%nat
                    then (Measure.setVoice newPart v (Measure.getVoice part i), v + 1)
                    else (newPart, v))
                 (newPart, v) l).1
            = Measure.part_time newPart).
  { induction l as [| i l IH]; intros newPart v; [reflexivity |].
    simpl. destruct (0 <? length (Measure.notes (Measure.getVoice part i)))%nat;
      rewrite IH; reflexivity. }
  specialize (H part 0). destruct (foldl _ _ _) as [newPart v]. exact H.
Qed.

Lemma getMeasurePart_time (this : MusicXML) (time : TimeSig) (row : JSArray.t Node)
    (m p : nat) (part : Measure.Part) :
  getMeasurePart RESOLUTION this time row m p = Ok part → Measure.part_time part = time.
Proof.
  unfold getMeasurePart. cbv zeta. intros H.
  destruct (defined _ _) as [node |]; simpl in H; [| done].
  destruct (forEach _ _ _) as [placed |] eqn:E; simpl in H; [| done].
  simplify_eq. rewrite compactVoices_part_time.
  apply (forEach_invariant (λ part, Measure.part_time part = time)) in E; [done | |].
  - intros part x part' Hstep <-. revert Hstep. unfold bind.
    destruct (parseNote RESOLUTION x _); [apply placeNote_part_time | discriminate].
  - destruct (clef (getAttributes this m p)) as [[c | a] |]; try reflexivity.
    destruct (JSArray.get (numStaves this) p) as [[| n] |]; try reflexivity.
    assert (Hfold : ∀ (l : list nat) (part0 : Measure.Part),
              Measure.part_time part0 = time →
              Measure.part_time
                (foldl (λ part s, Measure.setStave part s (mjoin (JSArray.get a s))) part0 l)
              = time).
    { induction l as [| s l IH]; intros part0 Hpart0; [done |]. simpl. by apply IH. }
    by apply Hfold.
Qed.

(** The decoder reads the divisions and the clef of the attributes, not
    their time. *)
Lemma parseNote_sameButTime (a b : Attributes) (noteElem : Node) :
  sameButTime a b → parseNote RESOLUTION noteElem a = parseNote RESOLUTION noteElem b.
Proof.
  intros (_ & _ & Hclef & Hdivisions). unfold parseNote.
  rewrite (forEach_ext (parseNoteChild RESOLUTION a) (parseNoteChild RESOLUTION b)).
  - destruct (forEach _ _ _); simpl; [| reflexivity].
    unfold finishNote, clefInForce. by rewrite Hclef.
  - intros st e. unfold parseNoteChild, parseDuration, divisionsValue. by rewrite Hdivisions.
Qed.

Lemma getMeasurePart_sameButTime (this this' : MusicXML) (time : TimeSig)
    (row : JSArray.t Node) (m p : nat) :
  numStaves this' = numStaves this →
  sameButTime (getAttributes this' m p) (getAttributes this m p) →
  getMeasurePart RESOLUTION this' time row m p = getMeasurePart RESOLUTION this time row m p.
Proof.
  intros HnumStaves Hattrs. unfold getMeasurePart. cbv zeta.
  rewrite HnumStaves. destruct Hattrs as (Hs & Hk & Hclef & Hdivisions). rewrite Hclef.
  destruct (defined _ _) as [node |]; simpl; [| reflexivity].
  erewrite forEach_ext; [reflexivity |].
  intros part noteElem. simpl. by rewrite (parseNote_sameButTime _ (getAttributes this m p)).
Qed.

(** C9.  Every measure [getMeasure] produces carries the time signature
    4/4, and so does each of its parts, whatever [<time>] elements were
    parsed: the measure is the same when the stored attributes differ in
    their time alone. *)
Theorem getMeasure_time (this : MusicXML) (m : nat) (measure : Measure.t) :
  getMeasure RESOLUTION this m = Ok measure →
  Measure.time measure = mkTime (Int 4) (Int 4) ∧
  Forall (fun part => Measure.part_time part = mkTime (Int 4) (Int 4))
         (Measure.parts measure) ∧
  ∀ this',
    measures this' = measures this →
    numStaves this' = numStaves this →
    (∀ p, sameButTime (getAttributes this' m p) (getAttributes this m p)) →
    getMeasure RESOLUTION this' m = Ok measure.
Proof.
  unfold getMeasure. cbv zeta. intros H.
  destruct (defined _ _) as [row |] eqn:Hrow; simpl in H; [| done].
  destruct (forEach _ _ _) as [parts |] eqn:E; simpl in H; [| done].
  simplify_eq. simpl. split; [reflexivity |]. split.
  - apply (forEach_invariant
             (Forall (λ part, Measure.part_time part = mkTime (Int 4) (Int 4)))) in E;
      [done | | by constructor].
    intros parts0 p parts1 Hstep Hparts0. revert Hstep. unfold bind.
    destruct (getMeasurePart _ _ _ _ _ _) as [part |] eqn:Hpart; [| discriminate].
    intros Hstep. simplify_eq. apply Forall_app. split; [done |].
    constructor; [| constructor]. by apply getMeasurePart_time in Hpart.
  - intros this' Hmeasures HnumStaves Hattrs. rewrite Hmeasures, Hrow. simpl.
    erewrite forEach_ext; [by rewrite E |].
    intros parts0 p. simpl.
    by rewrite (getMeasurePart_sameButTime this this' _ row m p HnumStaves (Hattrs p)).
Qed.

End Time.

(** The first measure of [waltz] declares the time 3/4 and is produced
    with the time 4/4. *)
Lemma getMeasure_time_witness :
  time (getAttributes waltz 0 0) = Some (mkTime (Int 3) (Int 4)) ∧
  ∃ measure,
    getMeasure sampleResolution waltz 0 = Ok measure ∧
    Measure.time measure = mkTime (Int 4) (Int 4).
Proof.
  split; [vm_compute; reflexivity |].
  destruct (getMeasure sampleResolution waltz 0) as [measure |] eqn:E.
  - exists measure. split; [reflexivity |].
    by destruct (getMeasure_time sampleResolution waltz 0 measure E) as [Htime _].
  - vm_compute in E. discriminate.
Defined.

(** The voices 0, 2 and 5 of [sparsePart] become the three voices of the
    compacted part, and the staff of voice 2 goes with it. *)
Lemma compactVoices_sparsePart :
  Measure.getNumberOfVoices (compactVoices sparsePart) = 3 ∧
  (fun voice => (Measure.keys <$> Measure.notes voice, Measure.stave voice))
    <$> voiceList (compactVoices sparsePart)
  = [([["C/4"]], None); ([["E/4"]; ["F/4"]], Some 1); ([["G/2"]], None)] ∧
  Measure.voices (compactVoices sparsePart) !! 3 = None.
Proof.
  destruct (compactVoices_voiceList sparsePart) as (Hvoices & Hnumber & Hnone).
  split; [rewrite Hnumber; reflexivity |].
  split; [rewrite Hvoices; reflexivity |].
  apply Hnone. rewrite Hnumber. vm_compute. discriminate.
Qed.

(** * Further properties *)

(** ** What parse throws *)

Lemma get_set {A : Type} (a : JSArray.t A) (i j : nat) (x : A) :
  JSArray.get (JSArray.set a i x) j = if decide (i = j) then Some x else JSArray.get a j.
Proof. unfold JSArray.get, JSArray.set. simpl. apply lookup_insert. Qed.

Lemma has_get {A : Type} (a : JSArray.t A) (i : nat) :
  JSArray.has a i = true ↔ is_Some (JSArray.get a i).
Proof. unfold JSArray.has, JSArray.get. apply bool_decide_eq_true. Qed.

Lemma dense_empty {A : Type} : dense (@JSArray.empty A).
Proof.
  intros i. unfold JSArray.get. simpl. rewrite lookup_empty. split; [by intros [] | lia].
Qed.

Lemma dense_set {A : Type} (a : JSArray.t A) (i : nat) (x : A) :
  dense a → (i ≤ JSArray.length a)%nat → dense (JSArray.set a i x).
Proof.
  intros Ha Hi j. rewrite get_set. simpl.
  destruct (decide (i = j)) as [<- | Hne].
  - split; [lia | eauto].
  - rewrite (Ha j). lia.
Qed.

Lemma storeAttribute_frame (m p : nat) (change : Attributes → Attributes) (this : MusicXML) :
  measures (storeAttribute m p change this) = measures this ∧
  numStaves (storeAttribute m p change this) = numStaves this ∧
  valid (storeAttribute m p change this) = valid this.
Proof. done. Qed.

Lemma parseAttribute_frame (m p : nat) (attr : Node) (this this' : MusicXML)
    (attrObject : AttrObject) :
  parseAttribute m p attr this = Ok (this', attrObject) →
  measures this' = measures this ∧ valid this' = valid this.
Proof.
  unfold parseAttribute, firstText, defined, bind, newArray. cbv zeta. intros H.
  repeat case_match; simplify_eq; done.
Qed.

Lemma parseAttribute_errors (m p : nat) (attr : Node) (this : MusicXML) (e : error) :
  parseAttribute m p attr this = Err e → attributeError e.
Proof.
  unfold parseAttribute, firstText, defined, bind, newArray, attributeError. cbv zeta.
  intros H. repeat case_match; simplify_eq; set_solver.
Qed.

Lemma parseAttributes_frame (m p : nat) (attributes : Node) (this this' : MusicXML)
    (attrObject : AttrObject) :
  parseAttributes m p attributes this = Ok (this', attrObject) →
  measures this' = measures this ∧ valid this' = valid this.
Proof.
  unfold parseAttributes. generalize AttrUndefined (childNodes attributes). intros o l.
  revert this o.
  induction l as [| attr l IH]; intros this o H; simpl in H; [by simplify_eq |].
  destruct (parseAttribute m p attr this) as [[this1 object1] |] eqn:Hattr; simpl in H; [| done].
  apply parseAttribute_frame in Hattr as [Hm Hv].
  destruct (IH this1 object1 H) as [-> ->]. done.
Qed.

Lemma parseAttributes_errors (m p : nat) (attributes : Node) (this : MusicXML) (e : error) :
  parseAttributes m p attributes this = Err e → attributeError e.
Proof.
  unfold parseAttributes. generalize AttrUndefined (childNodes attributes). intros o l.
  revert this o.
  induction l as [| attr l IH]; intros this o H; simpl in H; [done |].
  destruct (parseAttribute m p attr this) as [[this1 object1] |] eqn:Hattr; simpl in H.
  - by apply (IH this1 object1).
  - simplify_eq. by apply parseAttribute_errors in Hattr.
Qed.

(** The loop over the measures of a part keeps the grid without holes and
    reads no row that is not there. *)
Lemma parseMeasures_grid (partNum : nat) (children : list Node) (j measureNum : nat)
    (this : MusicXML) :
  dense (measures this) →
  (measureNum ≤ j)%nat →
  (measureNum ≤ JSArray.length (measures this))%nat →
  match parseMeasures partNum children j measureNum this with
  | Ok (Next this') | Ok (Return this') => dense (measures this')
  | Err e => attributeError e
  end.
Proof.
  revert j measureNum this.
  induction children as [| measure children IH]; intros j measureNum this Hdense Hj Hlen;
    [done |].
  simpl. destruct (negb (nodeName measure =? "measure")%string).
  { apply IH; [done | lia | done]. }
  set (this1 := if negb (JSArray.has (measures this) j) then _ else this).
  assert (H1 : dense (measures this1) ∧
               (measureNum < JSArray.length (measures this1))%nat).
  { unfold this1. destruct (JSArray.has (measures this) j) eqn:Hhas; simpl.
    - split; [done |]. apply has_get, Hdense in Hhas. lia.
    - split; [by apply dense_set | lia]. }
  destruct H1 as [Hdense1 Hlt1]. clearbody this1.
  destruct (JSArray.get (measures this1) measureNum) as [row |] eqn:Hrow;
    [| by apply Hdense1 in Hlt1 as [? ?]; simplify_eq].
  simpl. destruct (negb (JSArray.length row =? partNum)%nat); [done |].
  set (this2 := set_measures _ this1).
  assert (H2 : dense (measures this2) ∧
               (measureNum < JSArray.length (measures this2))%nat).
  { unfold this2. simpl. split; [apply dense_set; [done | lia] | lia]. }
  destruct H2 as [Hdense2 Hlt2]. clearbody this2.
  destruct (head (getElementsByTagName measure "attributes")) as [attributes |].
  - destruct (parseAttributes measureNum partNum attributes this2) as [[this3 object3] | e]
      eqn:Hattrs; simpl.
    + apply parseAttributes_frame in Hattrs as [Hm _].
      apply IH; rewrite ?Hm; [done | lia | lia].
    + by apply parseAttributes_errors in Hattrs.
  - simpl. apply IH; [done | lia | lia].
Qed.

Lemma parseParts_grid (nodes : list Node) (partNum : nat) (this : MusicXML) :
  dense (measures this) →
  match parseParts nodes partNum this with
  | Ok (Next this') | Ok (Return this') => dense (measures this')
  | Err e => attributeError e
  end.
Proof.
  revert partNum this. induction nodes as [| node nodes IH]; intros partNum this Hdense;
    [done |].
  simpl. destruct (nodeName node =? "part")%string; [| by apply IH].
  pose proof (parseMeasures_grid partNum (childNodes node) 0 0 this Hdense) as Hgrid.
  destruct (parseMeasures partNum (childNodes node) 0 0 this) as [[this1 | this1] | e];
    simpl; try (apply Hgrid; lia).
  apply IH. destruct (negb (JSArray.has (numStaves this1) partNum)); simpl; apply Hgrid; lia.
Qed.

(** The errors of [parse] on a document. *)
Lemma parse_document_errors (window : Window) (this : MusicXML) (documentElement : Node)
    (e : error) :
  dense (measures this) →
  parse window this (DataDocument documentElement) = Err e →
  documentError (Some documentElement) e.
Proof.
  intros Hdense. rewrite parse_document. unfold documentError.
  destruct (String.eqb_spec (nodeName documentElement) "score-partwise") as [Hname | Hname];
    simpl.
  - pose proof (parseParts_grid (childNodes documentElement) 0 this Hdense) as Hgrid.
    destruct (parseParts (childNodes documentElement) 0 this) as [[this1 | this1] | e'];
      simpl; [done | done |].
    intros [= <-]. by right.
  - intros [= <-]. by left.
Qed.

(** After the document is there, [parse] goes on as on a document. *)
Lemma parse_read (window : Window) (this : MusicXML) (document : option Node) :
  (documentElement <- defined "this.documentElement" document ;;
   if negb (String.eqb (nodeName documentElement) "score-partwise")
   then Err (RERR "ArgumentError" "VexFlow only supports partwise scores")
   else
     r <- parseParts (childNodes documentElement) 0 this ;;
     match r with
     | Return this => Ok this
     | Next this => Ok (set_valid true this)
     end)
  = match document with
    | Some documentElement => parse window this (DataDocument documentElement)
    | None => Err (TypeError "this.documentElement")
    end.
Proof. by destruct document. Qed.

(** X1.  What [parse] throws.  On a backend whose measure grid has no
    holes (a new backend has none), an error of [parse] is one of these.
    For an argument that is neither a string nor a document: the
    ArgumentError that asks for one, which is thrown for every such
    argument.  For a string, when the window has no [DOMParser] (or no
    [XMLDocument]): the UnsupportedBrowserError, when it has no
    [ActiveXObject] either, and else what [new ActiveXObject] throws, when
    it throws.  For a document, given or read from a string: the
    TypeError of a document without a document element; the
    ArgumentError of a document element that is not [score-partwise],
    thrown for such a document only; and for a [score-partwise] document
    one of the errors of [parseAttributes], the TypeError of a missing
    [fifths], [beats], [beat-type], [sign] or [line] element or the
    RangeError of the clef array.  No read of a row of the grid fails. *)
Theorem parse_errors (window : Window) (this : MusicXML) (data : Data) (e : error) :
  dense (measures this) →
  parse window this data = Err e →
  match data with
  | DataOther => e = notDocument
  | DataDocument documentElement => documentError (Some documentElement) e
  | DataString text =>
      match domParser window, ActiveXObject window with
      | Some parseFromString, _ => documentError (parseFromString text) e
      | None, None => e = noXMLParser
      | None, Some (Err thrown) => e = thrown
      | None, Some (Ok loadXML) => documentError (loadXML text) e
      end
  end.
Proof.
  intros Hdense. destruct data as [text | documentElement |].
  - assert (Hdocument : ∀ document,
              parse window this (DataString text)
              = match document with
                | Some documentElement => parse window this (DataDocument documentElement)
                | None => Err (TypeError "this.documentElement")
                end →
              parse window this (DataString text) = Err e →
              documentError document e).
    { intros [documentElement |] ->; [by apply parse_document_errors |].
      by intros [= <-]. }
    unfold domParser.
    destruct (DOMParser window) as [parseFromString |] eqn:Hdom;
      [destruct (XMLDocument window) eqn:Hxml |].
    + apply Hdocument. unfold parse at 1. rewrite Hdom, Hxml. cbn [bind]. apply parse_read.
    + destruct (ActiveXObject window) as [[loadXML | thrown] |] eqn:Hactive.
      * apply Hdocument. unfold parse at 1. rewrite Hdom, Hxml, Hactive. cbn [bind].
        apply parse_read.
      * unfold parse. rewrite Hdom, Hxml, Hactive. cbn [bind]. by intros [= <-].
      * unfold parse. rewrite Hdom, Hxml, Hactive. cbn [bind]. by intros [= <-].
    + destruct (ActiveXObject window) as [[loadXML | thrown] |] eqn:Hactive.
      * apply Hdocument. unfold parse at 1. rewrite Hdom, Hactive. cbn [bind].
        apply parse_read.
      * unfold parse. rewrite Hdom, Hactive. cbn [bind]. by intros [= <-].
      * unfold parse. rewrite Hdom, Hactive. cbn [bind]. by intros [= <-].
  - by apply parse_document_errors.
  - unfold parse. cbn [bind]. by intros [= <-].
Qed.

Lemma parse_dense (window : Window) (this this' : MusicXML) (documentElement : Node) :
  dense (measures this) →
  parse window this (DataDocument documentElement) = Ok this' →
  dense (measures this').
Proof.
  intros Hdense. rewrite parse_document.
  destruct (negb (nodeName documentElement =? "score-partwise")%string); [done |].
  pose proof (parseParts_grid (childNodes documentElement) 0 this Hdense) as Hgrid.
  destruct (parseParts (childNodes documentElement) 0 this) as [[this1 | this1] | e'];
    simpl; [| | done]; by intros [= <-].
Qed.

(** ** What parseNote throws *)

Section NoteErrors.

Variable RESOLUTION : Z.
Variable attrs : Attributes.

Lemma parseNotations_errors (st : Decoding) (elem : Node) (e : error) :
  parseNotations st elem = Err e → e = TypeError "tie.toString".
Proof.
  unfold parseNotations. generalize (childNodes elem). intros l. revert st.
  induction l as [| n l IH]; intros st H; simpl in H; [done |].
  destruct (parseNotation st n) as [st1 |] eqn:Hn; simpl in H; [by apply (IH st1) |].
  simplify_eq. revert Hn. unfold parseNotation, defined, bind.
  repeat case_match; intros; simplify_eq; done.
Qed.

Lemma parseNoteChild_errors (st : Decoding) (elem : Node) (e : error) :
  parseNoteChild RESOLUTION attrs st elem = Err e → childError elem e.
Proof.
  unfold parseNoteChild, childError. cbv zeta.
  repeat match goal with
  | |- context [String.eqb ?a ?b] => destruct (String.eqb_spec a b)
  end;
  intros H;
  try (apply parseNotations_errors in H; subst e; intuition; fail);
  unfold parsePitch, parseType, parseDot, parseDuration, parseTimeModification, parseRest,
    parseVoice, parseStaff, parseStem, parseBeam, Assert, firstText, defined, bind,
    invalidDuration in *;
  repeat case_match; simplify_eq; intuition.
Qed.

Lemma parseNoteChild_total (st : Decoding) (elem : Node) :
  ¬ fallible (nodeName elem) → ∃ st', parseNoteChild RESOLUTION attrs st elem = Ok st'.
Proof.
  intros Hsafe.
  destruct (parseNoteChild RESOLUTION attrs st elem) as [st' | e] eqn:H; [eauto |].
  apply parseNoteChild_errors in H. exfalso. apply Hsafe. unfold fallible, childError in *.
  destruct H as [[-> _] | [[-> _] | [[-> _] | [[-> _] | [-> _]]]]]; set_solver.
Qed.

Lemma parseNote_error_child (noteElem : Node) (e : error) :
  parseNote RESOLUTION noteElem attrs = Err e →
  ∃ elem, elem ∈ childNodes noteElem ∧ childError elem e.
Proof.
  unfold parseNote.
  generalize (mkDecoding NoteObj.init VNull VNull) (childNodes noteElem).
  intros st l. revert st. induction l as [| c l IH]; intros st H; simpl in H; [done |].
  destruct (parseNoteChild RESOLUTION attrs st c) as [st1 | e1] eqn:Hc; simpl in H.
  - destruct (IH st1 H) as (elem & Hin & Herr). exists elem. split; [by right | done].
  - simplify_eq. exists c. split; [left | by apply parseNoteChild_errors in Hc].
Qed.

(** X2.  What [parseNote] throws.  Every error comes from one child of
    the note: a [<pitch>] without step or octave, a [<dot>] when no
    duration is set, a [<duration>] that gives no number, a [<beam>] of an
    unknown kind, a [<notations>] with a [<tied>] without type.  A note
    with none of these five kinds of children is always decoded. *)
Theorem parseNote_errors (noteElem : Node) :
  (∀ e, parseNote RESOLUTION noteElem attrs = Err e →
        ∃ elem, elem ∈ childNodes noteElem ∧ childError elem e) ∧
  ((∀ elem, elem ∈ childNodes noteElem → ¬ fallible (nodeName elem)) →
   ∃ noteObj, parseNote RESOLUTION noteElem attrs = Ok noteObj).
Proof.
  split; [apply parseNote_error_child |]. unfold parseNote.
  generalize (mkDecoding NoteObj.init VNull VNull) (childNodes noteElem).
  intros st l. revert st. induction l as [| c l IH]; intros st Hsafe; simpl; [eauto |].
  destruct (parseNoteChild_total st c) as [st1 ->]; [apply Hsafe; left |]. simpl.
  apply IH. intros elem Hin. apply Hsafe. by right.
Qed.

End NoteErrors.

(** ** Children without a case, and the keys *)

Section NoteChildren.

Variable RESOLUTION : Z.
Variable attrs : Attributes.

Lemma parseNoteChild_unknown (st : Decoding) (elem : Node) :
  nodeName elem ∉ noteChildNames → parseNoteChild RESOLUTION attrs st elem = Ok st.
Proof.
  intros Hname. unfold parseNoteChild. cbv zeta.
  repeat match goal with
  | |- context [String.eqb ?a ?b] =>
      destruct (String.eqb_spec a b) as [Heq | _];
        [exfalso; apply Hname; rewrite Heq; unfold noteChildNames; set_solver |]
  end.
  reflexivity.
Qed.

(** X3.  [parseNote] ignores the children of a note whose name its
    switch has no case for, text nodes among them: the note and the note
    without these children are decoded to the same result, object or
    error. *)
Theorem parseNote_ignores_unknown (attributes : list (string * string))
    (children : list Node) :
  parseNote RESOLUTION (noteOf attributes children) attrs
  = parseNote RESOLUTION
      (noteOf attributes (filter (fun c => nodeName c ∈ noteChildNames) children)) attrs.
Proof.
  unfold parseNote, noteOf. simpl childNodes.
  generalize (mkDecoding NoteObj.init VNull VNull). intros st.
  f_equal. revert st. induction children as [| c children IH]; intros st; [reflexivity |].
  rewrite filter_cons. destruct (decide (nodeName c ∈ noteChildNames)) as [Hin | Hout].
  - simpl. destruct (parseNoteChild RESOLUTION attrs st c); simpl; [apply IH | reflexivity].
  - simpl. rewrite parseNoteChild_unknown by done. simpl. apply IH.
Qed.

End NoteChildren.

Section NoteKeys.

Variable RESOLUTION : Z.
Variable attrs : Attributes.

(** A child sets the keys to a one-element array or leaves them; it never
    clears the keys or the rest flag; a pitch sets the keys and a rest the
    flag. *)
Lemma parseNoteChild_keys (st st' : Decoding) (elem : Node) :
  parseNoteChild RESOLUTION attrs st elem = Ok st' →
  (NoteObj.keys (noteObj st') = NoteObj.keys (noteObj st) ∨
   ∃ key, NoteObj.keys (noteObj st') = Some [key]) ∧
  (NoteObj.rest (noteObj st) = true → NoteObj.rest (noteObj st') = true) ∧
  (nodeName elem = "pitch" → ∃ key, NoteObj.keys (noteObj st') = Some [key]) ∧
  (nodeName elem = "rest" → NoteObj.rest (noteObj st') = true).
Proof.
  intros H.
  destruct (decide (nodeName elem = "rest")) as [Hrest | Hrest].
  { rewrite parseNoteChild_rest in H by done. simplify_eq. simpl.
    rewrite Hrest. destruct (displayKey elem); simpl; repeat split; eauto; done. }
  destruct (decide (nodeName elem = "pitch")) as [Hpitch | Hpitch].
  { revert H. unfold parseNoteChild. rewrite Hpitch. closed_names.
    unfold parsePitch, firstText, defined, bind.
    repeat case_match; intros; simplify_eq; simpl; repeat split; eauto; done. }
  apply parseNoteChild_frame in H as (_ & Hr & Hk & _).
  rewrite (Hr Hrest), (Hk Hrest Hpitch). repeat split; eauto; done.
Qed.

Lemma forEach_keys (cs : list Node) (st st' : Decoding) :
  forEach (parseNoteChild RESOLUTION attrs) cs st = Ok st' →
  (NoteObj.keys (noteObj st') = NoteObj.keys (noteObj st) ∨
   ∃ key, NoteObj.keys (noteObj st') = Some [key]) ∧
  (NoteObj.rest (noteObj st) = true → NoteObj.rest (noteObj st') = true) ∧
  ((∃ c, c ∈ cs ∧ nodeName c = "pitch") → ∃ key, NoteObj.keys (noteObj st') = Some [key]) ∧
  ((∃ c, c ∈ cs ∧ nodeName c = "rest") → NoteObj.rest (noteObj st') = true) ∧
  ((∀ c, c ∈ cs → nodeName c ≠ "pitch" ∧ nodeName c ≠ "rest") →
   NoteObj.keys (noteObj st') = NoteObj.keys (noteObj st) ∧
   NoteObj.rest (noteObj st') = NoteObj.rest (noteObj st)).
Proof.
  revert st. induction cs as [| c cs IH]; intros st H; simpl in H.
  { simplify_eq. repeat split; eauto; intros (c & Hc & _); by apply elem_of_nil in Hc. }
  destruct (parseNoteChild RESOLUTION attrs st c) as [st1 |] eqn:Hc; simpl in H; [| done].
  destruct (IH st1 H) as (Hkeys & Hrest & Hpitch & Hflag & Hnone).
  pose proof (parseNoteChild_keys st st1 c Hc) as (Hkeys1 & Hrest1 & Hpitch1 & Hflag1).
  split; [| split; [| split; [| split]]].
  - destruct Hkeys as [-> | ?]; [done | by right].
  - auto.
  - intros (c' & Hin & Hname). apply elem_of_cons in Hin as [-> | Hin]; [| eauto].
    destruct (Hpitch1 Hname) as [key Hkey].
    destruct Hkeys as [-> | ?]; eauto.
  - intros (c' & Hin & Hname). apply elem_of_cons in Hin as [-> | Hin]; [| eauto]. auto.
  - intros Hall. destruct (Hall c) as [Hp Hr]; [left |].
    apply parseNoteChild_frame in Hc as (_ & Hr' & Hk' & _).
    destruct Hnone as [-> ->]; [intros c' Hin; apply Hall; by right |].
    by rewrite (Hr' Hr), (Hk' Hr Hp).
Qed.

(** X4.  The keys of a decoded note.  A note with a [<pitch>] or a
    [<rest>] child is decoded with exactly one key; a note with neither
    has no keys and is no rest. *)
Theorem parseNote_keys (noteElem : Node) (noteObj : NoteObj.t) :
  parseNote RESOLUTION noteElem attrs = Ok noteObj →
  ((childrenNamed "pitch" noteElem ≠ [] ∨ childrenNamed "rest" noteElem ≠ []) →
   ∃ key, NoteObj.keys noteObj = Some [key]) ∧
  (childrenNamed "pitch" noteElem = [] → childrenNamed "rest" noteElem = [] →
   NoteObj.keys noteObj = None ∧ NoteObj.rest noteObj = false).
Proof.
  unfold parseNote, childrenNamed. intros H.
  destruct (forEach _ _ _) as [st |] eqn:E; simpl in H; [| done]. simplify_eq.
  apply forEach_keys in E as (Hkeys & _ & Hpitch & Hflag & Hnone). simpl in *.
  assert (Hfilter : ∀ name,
            filter (λ c : Node, nodeName c = name) (childNodes noteElem) ≠ [] →
            ∃ c, c ∈ childNodes noteElem ∧ nodeName c = name).
  { intros name Hne.
    destruct (filter (λ c : Node, nodeName c = name) (childNodes noteElem)) as [| c l] eqn:Hf;
      [done |].
    exists c. assert (Hc : c ∈ c :: l) by left. rewrite <- Hf in Hc.
    apply list_elem_of_filter in Hc as [? ?]. done. }
  split.
  - intros Hsome.
    assert (Hcases : (∃ key, NoteObj.keys (noteObj st) = Some [key]) ∨
                     (NoteObj.keys (noteObj st) = None ∧ NoteObj.rest (noteObj st) = true)).
    { destruct Hsome as [Hp | Hr]; [left; by apply Hpitch, Hfilter |].
      destruct Hkeys as [Hk | ?]; [| by left]. right. split; [done |].
      by apply Hflag, Hfilter. }
    destruct Hcases as [[key Hkey] | [Hkey Hrest]].
    + exists key. unfold finishNote.
      destruct (truthy (num_notes st) && truthy (beats_occupied st)); simpl;
        rewrite Hkey, bool_decide_eq_false_2, andb_false_r by done; simpl; done.
    + destruct (finishNote_rest attrs st Hrest) as (_ & _ & ->). rewrite Hkey. eauto.
  - intros Hp Hr. destruct Hnone as [Hk Hf].
    { intros c Hin. split; intros Hname.
      - assert (Hc : c ∈ filter (λ c : Node, nodeName c = "pitch") (childNodes noteElem))
          by by apply list_elem_of_filter.
        rewrite Hp in Hc. by apply elem_of_nil in Hc.
      - assert (Hc : c ∈ filter (λ c : Node, nodeName c = "rest") (childNodes noteElem))
          by by apply list_elem_of_filter.
        rewrite Hr in Hc. by apply elem_of_nil in Hc. }
    unfold finishNote.
    destruct (truthy (num_notes st) && truthy (beats_occupied st)); simpl;
      rewrite Hf; simpl; done.
Qed.

End NoteKeys.

(** ** Dots *)

Lemma forEach_app {S E : Type} (f : S → E → result S) (l1 l2 : list E) (s : S) :
  forEach f (l1 ++ l2) s = (s' <- forEach f l1 s ;; forEach f l2 s').
Proof.
  revert s. induction l1 as [| x l1 IH]; intros s; [reflexivity |].
  simpl. destruct (f s x); simpl; [apply IH | reflexivity].
Qed.

Lemma append_cons (a : ascii) (s t : string) :
  (String a s ++ t = String a (s ++ t))%string.
Proof. reflexivity. Qed.

Lemma append_assoc (s t u : string) : ((s ++ t) ++ u = s ++ (t ++ u))%string.
Proof.
  induction s as [| a s IH]; [reflexivity |]. rewrite !append_cons. by rewrite IH.
Qed.

Lemma append_empty (s : string) : (s ++ "" = s)%string.
Proof. induction s as [| a s IH]; [reflexivity |]. rewrite append_cons. by rewrite IH. Qed.

Lemma occurs_app (c : ascii) (s t : string) :
  occurs c (s ++ t)%string = occurs c s || occurs c t.
Proof.
  induction s as [| a s IH]; [reflexivity |]. rewrite append_cons. simpl.
  by rewrite IH, orb_assoc.
Qed.

Lemma indexOf_absent (s : string) (c : ascii) : occurs c s = false → indexOf s c = -1.
Proof.
  induction s as [| a s IH]; simpl; [done |].
  intros H. apply orb_false_iff in H as [Ha Hs]. rewrite Ha, (IH Hs). reflexivity.
Qed.

Lemma indexOf_first (s t : string) (c : ascii) :
  occurs c s = false → indexOf (s ++ String c t)%string c = Z.of_nat (String.length s).
Proof.
  induction s as [| a s IH].
  - intros _. change ("" ++ String c t)%string with (String c t). simpl.
    by rewrite Ascii.eqb_refl.
  - rewrite append_cons. simpl. intros H. apply orb_false_iff in H as [Ha Hs].
    rewrite Ha, (IH Hs).
    destruct (Z.of_nat (String.length s) <? 0) eqn:Hneg; lia.
Qed.

Lemma substring0_prefix (s t : string) :
  substring0 (s ++ t)%string (Z.of_nat (String.length s)) = s.
Proof.
  unfold substring0. rewrite Nat2Z.id.
  induction s as [| a s IH].
  - change ("" ++ t)%string with t. by destruct t.
  - rewrite append_cons. simpl. by rewrite IH.
Qed.

Lemma dots_snoc (n : nat) : (dots n ++ "d" = dots (S n))%string.
Proof.
  induction n as [| n IH]; [reflexivity |].
  change (dots (S n)) with (String "d" (dots n)). rewrite append_cons. by rewrite IH.
Qed.

Lemma upTo_absent (c : ascii) (s : string) : upTo c s = None ↔ occurs c s = false.
Proof.
  induction s as [| a s IH]; simpl; [done |].
  destruct (Ascii.eqb a c); simpl; [done |].
  rewrite <- IH. by destruct (upTo c s).
Qed.

Lemma upTo_no_occurrence (c : ascii) (s t : string) : upTo c s = Some t → occurs c t = false.
Proof.
  revert t. induction s as [| a s IH]; intros t; simpl; [done |].
  destruct (Ascii.eqb a c) eqn:Ha; [by intros [= <-] |].
  destruct (upTo c s) as [u |]; simpl; [| done].
  intros [= <-]. simpl. by rewrite Ha, (IH u).
Qed.

Lemma restCode_no_r (d : string) : occurs "r" (restCode d) = false.
Proof.
  unfold restCode. destruct (upTo "r" d) as [t |] eqn:H; simpl; [| done].
  by apply upTo_no_occurrence in H.
Qed.

(** What [substring(0, indexOf("r"))] cuts off a text. *)
Lemma substring0_indexOf (d : string) : substring0 d (indexOf d "r") = restCode d.
Proof.
  unfold restCode. destruct (upTo "r" d) as [t |] eqn:H.
  - simpl. revert t H. induction d as [| a d IH]; intros t; simpl; [done |].
    destruct (Ascii.eqb a "r") eqn:Ha; [by intros [= <-] |].
    destruct (upTo "r" d) as [u |] eqn:Hu; simpl; [| done].
    intros [= <-]. specialize (IH u eq_refl).
    assert (Hi : 0 ≤ indexOf d "r").
    { clear IH. revert u Hu. induction d as [| b d IHd]; intros u; simpl; [done |].
      destruct (Ascii.eqb b "r"); [lia |].
      destruct (upTo "r" d) as [w |]; simpl; [| done].
      intros _. specialize (IHd w eq_refl).
      destruct (indexOf d "r" <? 0) eqn:Hneg; lia. }
    destruct (indexOf d "r" <? 0) eqn:Hneg; [lia |].
    unfold substring0 in *. rewrite Z2Nat.inj_add by lia.
    change (Z.to_nat 1) with 1%nat. rewrite Nat.add_1_r. simpl. by rewrite IH.
  - simpl. apply upTo_absent in H. rewrite (indexOf_absent d "r" H).
    unfold substring0. simpl. by destruct d.
Qed.

Lemma restCode_snoc (c t : string) : occurs "r" c = false → restCode (c ++ String "r" t) = c.
Proof.
  intros Hc. rewrite <- substring0_indexOf, (indexOf_first c t "r" Hc).
  apply substring0_prefix.
Qed.

Lemma occurs_dots (n : nat) : occurs "r" (dots n) = false.
Proof. induction n as [| n IH]; [reflexivity |]. simpl. exact IH. Qed.

(** One more dot on a text that [n] dots made. *)
Lemma dotsText_step (rest : bool) (n : nat) (d : string) :
  dotsText rest n (if rest then substring0 d (indexOf d "r") ++ "dr" else d ++ "d")%string
  = dotsText rest (S n) d.
Proof.
  unfold dotsText. destruct rest.
  - rewrite substring0_indexOf. destruct n as [| n]; [reflexivity |].
    change "dr" with ("d" ++ String "r" "")%string.
    rewrite <- (append_assoc (restCode d) "d" (String "r" "")), restCode_snoc.
    + rewrite append_assoc. reflexivity.
    + rewrite occurs_app, restCode_no_r. reflexivity.
  - rewrite append_assoc. reflexivity.
Qed.

Section Dots.

Variable RESOLUTION : Z.
Variable attrs : Attributes.

Lemma parseNoteChild_dot (st : Decoding) (elem : Node) :
  nodeName elem = "dot" →
  parseNoteChild RESOLUTION attrs st elem
  = match NoteObj.duration (noteObj st) with
    | None | Some (DurationMember _) => Err (TypeError "noteObj.duration")
    | Some (DurationString d) =>
        Ok (with_noteObj
              (NoteObj.set_duration
                 (Some (DurationString
                          (if NoteObj.rest (noteObj st)
                           then substring0 d (indexOf d "r") ++ "dr"
                           else d ++ "d")%string))) st)
    | Some (DurationMemberText name edit) =>
        Ok (with_noteObj
              (NoteObj.set_duration
                 (Some (DurationMemberText name
                          (λ t, if NoteObj.rest (noteObj st)
                                then substring0 (edit t) (indexOf (edit t) "r") ++ "dr"
                                else edit t ++ "d")%string))) st)
    end.
Proof.
  intros Hname. unfold parseNoteChild. rewrite Hname. closed_names.
  unfold parseDot. by destruct (NoteObj.duration (noteObj st)) as [[] |].
Qed.

(** [n] dots on a state whose duration is a string. *)
Lemma forEach_dots (n : nat) (dot : Node) (st : Decoding) (duration : Duration) :
  nodeName dot = "dot" →
  NoteObj.duration (noteObj st) = Some duration →
  (∀ name, duration ≠ DurationMember name) →
  ∃ duration',
    forEach (parseNoteChild RESOLUTION attrs) (replicate n dot) st
    = Ok (with_noteObj (NoteObj.set_duration (Some duration')) st) ∧
    ∀ engine d,
      durationText engine duration = Some d →
      durationText engine duration' = Some (dotsText (NoteObj.rest (noteObj st)) n d).
Proof.
  intros Hname. revert st duration. induction n as [| n IH]; intros st duration Hd Hstring.
  - exists duration. split.
    + destruct st as [o nn bo]. destruct o. simpl in *. by subst.
    + intros engine d ->. unfold dotsText. destruct (NoteObj.rest (noteObj st)); [done |].
      change (dots 0) with "". by rewrite append_empty.
  - simpl. rewrite (parseNoteChild_dot st dot Hname), Hd.
    destruct duration as [d | name | name edit]; [| by destruct (Hstring name) |]; simpl.
    + set (d1 := (if NoteObj.rest (noteObj st)
                  then substring0 d (indexOf d "r") ++ "dr" else d ++ "d")%string).
      destruct (IH (with_noteObj (NoteObj.set_duration (Some (DurationString d1))) st)
                  (DurationString d1) eq_refl) as (duration' & Hrun & Htext); [done |].
      exists duration'. split; [rewrite Hrun; reflexivity |].
      intros engine d' [= <-]. rewrite (Htext engine d1 eq_refl). simpl NoteObj.rest.
      unfold d1. by rewrite dotsText_step.
    + set (edit1 := (λ t, if NoteObj.rest (noteObj st)
                          then substring0 (edit t) (indexOf (edit t) "r") ++ "dr"
                          else edit t ++ "d")%string).
      destruct (IH (with_noteObj (NoteObj.set_duration (Some (DurationMemberText name edit1))) st)
                  (DurationMemberText name edit1) eq_refl) as (duration' & Hrun & Htext);
        [done |].
      exists duration'. split; [rewrite Hrun; reflexivity |].
      intros engine d' [= <-]. rewrite (Htext engine (edit1 (engine name)) eq_refl).
      simpl NoteObj.rest. unfold edit1. by rewrite dotsText_step.
Qed.

Lemma finishNote_set_duration (st : Decoding) (duration : option Duration) :
  finishNote attrs (with_noteObj (NoteObj.set_duration duration) st)
  = NoteObj.set_duration duration (finishNote attrs st).
Proof.
  destruct st as [o nn bo]. destruct o.
  unfold finishNote. cbv zeta.
  destruct (truthy nn && truthy bo) eqn:Htruthy; simpl; rewrite Htruthy; simpl;
    destruct rest, keys; simpl; try reflexivity;
    by destruct (clefInForce attrs stave) as [[] |].
Qed.

(** X5.  Dots.  Let a note be decoded to an object.  When the duration
    of the object is a string, the note with [n] more [<dot>] children at
    its end is decoded to the same object with another duration, again a
    string.  Whatever text the engine prints the members of
    [Object.prototype] as, if the first string reads [d], the second
    reads: [d] followed by [n] letters d for a note that is no rest; and
    for a rest [d] itself when [n] is 0, and otherwise what [d] has before
    its first r (nothing, when [d] has no r, as for a rest whose [<rest>]
    follows its [<type>]), [n] letters d and then r.  When the duration
    of the object is no string (there is none, or it is a member of
    [Object.prototype]), a [<dot>] after the children makes [parseNote]
    throw a TypeError. *)
Theorem parseNote_dots (attributes : list (string * string)) (children : list Node)
    (dot : Node) (n : nat) (noteObj : NoteObj.t) :
  nodeName dot = "dot" →
  parseNote RESOLUTION (noteOf attributes children) attrs = Ok noteObj →
  match NoteObj.duration noteObj with
  | None | Some (DurationMember _) =>
      ∀ more, parseNote RESOLUTION (noteOf attributes (children ++ dot :: more)) attrs
              = Err (TypeError "noteObj.duration")
  | Some duration =>
      ∃ duration',
        parseNote RESOLUTION (noteOf attributes (children ++ replicate n dot)) attrs
        = Ok (NoteObj.set_duration (Some duration') noteObj) ∧
        ∀ engine d,
          durationText engine duration = Some d →
          durationText engine duration' = Some (dotsText (NoteObj.rest noteObj) n d)
  end.
Proof.
  intros Hname. unfold parseNote, noteOf. simpl childNodes. intros H.
  destruct (forEach _ children _) as [st |] eqn:E; simpl in H; [| done]. simplify_eq.
  assert (Hd : NoteObj.duration (finishNote attrs st) = NoteObj.duration (noteObj st)).
  { unfold finishNote. repeat case_match; reflexivity. }
  assert (Hr : NoteObj.rest (finishNote attrs st) = NoteObj.rest (noteObj st)).
  { unfold finishNote. repeat case_match; reflexivity. }
  rewrite Hd, Hr.
  assert (Hfail : (NoteObj.duration (noteObj st) = None ∨
                   ∃ name, NoteObj.duration (noteObj st) = Some (DurationMember name)) →
                  ∀ more, (st' <- forEach (parseNoteChild RESOLUTION attrs)
                                    (children ++ dot :: more)
                                    (mkDecoding NoteObj.init VNull VNull) ;;
                           Ok (finishNote attrs st'))
                          = Err (TypeError "noteObj.duration")).
  { intros Hno more. rewrite forEach_app, E. simpl.
    rewrite (parseNoteChild_dot st dot Hname). by destruct Hno as [-> | [name ->]]. }
  assert (Hdots : ∀ duration,
            NoteObj.duration (noteObj st) = Some duration →
            (∀ name, duration ≠ DurationMember name) →
            ∃ duration',
              (st' <- forEach (parseNoteChild RESOLUTION attrs) (children ++ replicate n dot)
                        (mkDecoding NoteObj.init VNull VNull) ;;
               Ok (finishNote attrs st'))
              = Ok (NoteObj.set_duration (Some duration') (finishNote attrs st)) ∧
              ∀ engine d,
                durationText engine duration = Some d →
                durationText engine duration'
                = Some (dotsText (NoteObj.rest (noteObj st)) n d)).
  { intros duration Hdur Hstring.
    destruct (forEach_dots n dot st duration Hname Hdur Hstring) as (duration' & Hrun & Htext).
    exists duration'. split; [| done].
    rewrite forEach_app, E. simpl. rewrite Hrun. simpl. by rewrite finishNote_set_duration. }
  destruct (NoteObj.duration (noteObj st)) as [[d | name | name edit] |] eqn:Hdur.
  - by apply Hdots.
  - apply Hfail. right. eauto.
  - by apply Hdots.
  - apply Hfail. by left.
Qed.

End Dots.

(** ** What parseAttributes changes *)

Lemma snapshot_storeAttribute (m p i q : nat) (change : Attributes → Attributes)
    (this : MusicXML) :
  snapshot (storeAttribute m p change this) i q
  = if decide (i = m ∧ q = p)
    then Some (change (default noAttributes (snapshot this m p)))
    else snapshot this i q.
Proof.
  unfold snapshot, storeAttribute. simpl. rewrite get_set.
  destruct (decide (m = i)) as [<- | Hm]; simpl.
  - rewrite get_set. destruct (decide (p = q)) as [<- | Hp].
    + rewrite decide_True by done.
      by destruct (JSArray.get (attributes this) m).
    + rewrite decide_False by (intros [_ ?]; done).
      destruct (JSArray.get (attributes this) m); simpl; [done |].
      unfold JSArray.get. simpl. apply lookup_empty.
  - rewrite decide_False by (intros [? _]; done). reflexivity.
Qed.

(** One child of [<attributes>] changes the snapshot of its own measure
    and part and, at measure 0, the stave count of its part, and nothing
    else. *)
Lemma parseAttribute_cell (m p : nat) (attr : Node) (this this' : MusicXML)
    (attrObject : AttrObject) :
  parseAttribute m p attr this = Ok (this', attrObject) →
  (∀ i q, ¬ (i = m ∧ q = p) → snapshot this' i q = snapshot this i q) ∧
  (∀ q, q ≠ p → JSArray.get (numStaves this') q = JSArray.get (numStaves this) q) ∧
  (m ≠ 0%nat → numStaves this' = numStaves this) ∧
  (nodeName attr ≠ "staves" → numStaves this' = numStaves this) ∧
  (∀ q, is_Some (JSArray.get (numStaves this) q) → is_Some (JSArray.get (numStaves this') q)).
Proof.
  unfold parseAttribute, firstText, defined, bind, newArray. cbv zeta.
  repeat match goal with
  | |- context [String.eqb ?a ?b] => destruct (String.eqb_spec a b)
  end;
  intros H; repeat case_match; simplify_eq;
  (split; [intros i q Hiq; rewrite ?snapshot_storeAttribute, ?decide_False by done; done |]);
  simpl; rewrite ?Nat.eqb_eq, ?Nat.eqb_neq in *;
  repeat split; try done; try (intros; exfalso; lia);
  intros q; rewrite ?get_set; intros; case_decide; eauto; done.
Qed.

Lemma parseAttributes_cells (m p : nat) (attributes : Node) (this this' : MusicXML)
    (attrObject : AttrObject) :
  parseAttributes m p attributes this = Ok (this', attrObject) →
  (∀ i q, ¬ (i = m ∧ q = p) → snapshot this' i q = snapshot this i q) ∧
  (∀ q, q ≠ p → JSArray.get (numStaves this') q = JSArray.get (numStaves this) q) ∧
  (m ≠ 0%nat → numStaves this' = numStaves this) ∧
  (childrenNamed "staves" attributes = [] → numStaves this' = numStaves this) ∧
  (∀ q, is_Some (JSArray.get (numStaves this) q) → is_Some (JSArray.get (numStaves this') q)).
Proof.
  unfold parseAttributes, childrenNamed.
  generalize AttrUndefined (childNodes attributes). intros o l.
  revert this o. induction l as [| attr l IH]; intros this o H; simpl in H.
  { simplify_eq. repeat split; done. }
  destruct (parseAttribute m p attr this) as [[this1 object1] |] eqn:Hattr; simpl in H; [| done].
  apply parseAttribute_cell in Hattr as (Hs1 & Hq1 & Hm1 & Hn1 & Hi1).
  destruct (IH this1 object1 H) as (Hs & Hq & Hm & Hn & Hi).
  split; [| split; [| split; [| split]]].
  - intros i q Hiq. by rewrite Hs, Hs1.
  - intros q Hqp. by rewrite Hq, Hq1.
  - intros Hm0. by rewrite Hm, Hm1.
  - rewrite filter_cons. destruct (decide (nodeName attr = "staves")); [done |].
    intros Hnone. by rewrite Hn, Hn1.
  - auto.
Qed.

(** X6.  What a call of [parseAttributes] can change.  A call for the
    measure [m] and the part [p] that returns leaves the measure grid and
    the valid flag, every stored snapshot but the one of [m] and [p], and
    the stave count of every other part; it leaves the stave count of [p]
    too when [m] is not 0 or the block has no [<staves>] child; and it
    removes no stave count. *)
Theorem parseAttributes_cell (m p : nat) (attributes : Node) (this this' : MusicXML)
    (attrObject : AttrObject) :
  parseAttributes m p attributes this = Ok (this', attrObject) →
  measures this' = measures this ∧
  valid this' = valid this ∧
  (∀ i q, ¬ (i = m ∧ q = p) → snapshot this' i q = snapshot this i q) ∧
  (∀ q, q ≠ p → JSArray.get (numStaves this') q = JSArray.get (numStaves this) q) ∧
  (m ≠ 0%nat → numStaves this' = numStaves this) ∧
  (childrenNamed "staves" attributes = [] → numStaves this' = numStaves this) ∧
  (∀ q, is_Some (JSArray.get (numStaves this) q) → is_Some (JSArray.get (numStaves this') q)).
Proof.
  intros H. destruct (parseAttributes_frame m p attributes this this' attrObject H) as [Hm Hv].
  split; [done |]. split; [done |]. by eapply parseAttributes_cells.
Qed.

Lemma parseAttribute_unknown (m p : nat) (attr : Node) (this : MusicXML) :
  nodeName attr ∉ attributeNames → parseAttribute m p attr this = Ok (this, AttrNull).
Proof.
  intros Hname. unfold parseAttribute. cbv zeta.
  repeat match goal with
  | |- context [String.eqb ?a ?b] =>
      destruct (String.eqb_spec a b) as [Heq | _];
        [exfalso; apply Hname; rewrite Heq; unfold attributeNames; set_solver |]
  end.
  reflexivity.
Qed.

(** The loop over the children, and the loop over those of them that have
    a case. *)
Lemma parseAttributesLoop_known (m p : nat) (children : list Node) (this : MusicXML)
    (o1 o2 : AttrObject) :
  match parseAttributesLoop m p children this o1,
        parseAttributesLoop m p (filter (λ c, nodeName c ∈ attributeNames) children) this o2
  with
  | Ok (this1, object1), Ok (this2, object2) =>
      this1 = this2 ∧
      object1 = match last children with
                | None => o1
                | Some c => if decide (nodeName c ∈ attributeNames) then object2 else AttrNull
                end
  | Err e1, Err e2 => e1 = e2
  | _, _ => False
  end.
Proof.
  revert this o1 o2. induction children as [| c children IH]; intros this o1 o2; [done |].
  rewrite filter_cons, last_cons.
  destruct (decide (nodeName c ∈ attributeNames)) as [Hin | Hout].
  - simpl. destruct (parseAttribute m p c this) as [[this' o'] |]; simpl; [| done].
    specialize (IH this' o' o').
    destruct (last children) as [c' |] eqn:Hlast.
    + destruct (parseAttributesLoop m p children this' o') as [[this1 object1] |];
        destruct (parseAttributesLoop m p (filter _ children) this' o') as [[this2 object2] |];
        try done.
    + apply last_None in Hlast as ->. simpl. by rewrite decide_True.
  - simpl. rewrite parseAttribute_unknown by done. simpl.
    specialize (IH this AttrNull o2).
    destruct (parseAttributesLoop m p children this AttrNull) as [[this1 object1] |];
      destruct (parseAttributesLoop m p (filter _ children) this o2) as [[this2 object2] |];
      try done.
    destruct IH as [-> ->]. split; [done |].
    destruct (last children); [done |]. by rewrite decide_False.
Qed.

(** X7.  [parseAttributes] ignores the children of the block that are
    not named [staves], [key], [time], [clef] or [divisions], but for the
    value it returns.  With and without these children the call throws the
    same error, or leaves the same backend.  The value it returns is that
    of the last child of the block: undefined for a block without
    children, null when the last child is one of those it ignores, and
    otherwise what the call without the ignored children returns. *)
Theorem parseAttributes_ignores_unknown (m p : nat) (name : string)
    (attributes : list (string * string)) (children : list Node) (this : MusicXML) :
  match parseAttributes m p (Element name attributes children) this,
        parseAttributes m p
          (Element name attributes (filter (λ c, nodeName c ∈ attributeNames) children)) this
  with
  | Ok (this1, object1), Ok (this2, object2) =>
      this1 = this2 ∧
      object1 = match last children with
                | None => AttrUndefined
                | Some c => if decide (nodeName c ∈ attributeNames) then object2 else AttrNull
                end
  | Err e1, Err e2 => e1 = e2
  | _, _ => False
  end.
Proof.
  unfold parseAttributes. simpl childNodes. apply parseAttributesLoop_known.
Qed.

(** ** Declarations and the effective attributes *)

(** The effective attributes, measure by measure. *)
Lemma getAttributes_step (this : MusicXML) (m p : nat) :
  getAttributes this (S m) p
  = match snapshot this (S m) p with
    | Some s => Merge (getAttributes this m p) s
    | None => getAttributes this m p
    end.
Proof.
  unfold getAttributes at 1. rewrite (seq_S (S m)), foldl_app. simpl.
  fold (getAttributes this m p). unfold snapshot.
  destruct (JSArray.get (attributes this) (S m)) as [row |]; simpl; [| done].
  by destruct (JSArray.get row p).
Qed.

Lemma getAttributes_zero (this : MusicXML) (p : nat) :
  getAttributes this 0 p = default noAttributes (snapshot this 0 p).
Proof.
  unfold getAttributes, snapshot. simpl.
  destruct (JSArray.get (attributes this) 0) as [row |]; simpl; [| done].
  destruct (JSArray.get row p) as [[s k t c d] |]; simpl; [| done].
  by destruct s, k, t, c, d.
Qed.

(** Backends that store the same snapshots for a part up to measure [m]
    have the same effective attributes there. *)
Lemma getAttributes_same (this this' : MusicXML) (m p : nat) :
  (∀ i, (i ≤ m)%nat → snapshot this' i p = snapshot this i p) →
  getAttributes this' m p = getAttributes this m p.
Proof.
  induction m as [| m IH]; intros Hsame.
  - by rewrite !getAttributes_zero, Hsame.
  - rewrite !getAttributes_step, Hsame, IH by auto with lia. done.
Qed.

Section Declared.

Context {A : Type} (f : Attributes → option A) (name : string) (valueOf : Node → option A).

Hypothesis f_Merge :
  ∀ destination source,
    f (Merge destination source)
    = match f source with Some v => Some v | None => f destination end.

Hypothesis f_noAttributes : f noAttributes = None.

(** A child named [name] that is parsed writes its declaration under the
    key [f]; any other child leaves the key. *)
Hypothesis f_child :
  ∀ m p attr this this' attrObject,
    parseAttribute m p attr this = Ok (this', attrObject) →
    storedField f this' m p
    = if decide (nodeName attr = name) then valueOf attr else storedField f this m p.

Hypothesis valueOf_parsed :
  ∀ m p attr this this' attrObject,
    parseAttribute m p attr this = Ok (this', attrObject) →
    nodeName attr = name → is_Some (valueOf attr).

Lemma parseAttributes_storedField (m p : nat) (attributes : Node) (this this' : MusicXML)
    (attrObject : AttrObject) :
  parseAttributes m p attributes this = Ok (this', attrObject) →
  storedField f this' m p
  = match declared name valueOf attributes with
    | Some v => Some v
    | None => storedField f this m p
    end ∧
  (childrenNamed name attributes ≠ [] → is_Some (declared name valueOf attributes)).
Proof.
  unfold parseAttributes, declared, childrenNamed.
  generalize AttrUndefined (childNodes attributes).
  intros o l. revert this o. induction l as [| attr l IH]; intros this o H; simpl in H.
  { simplify_eq. split; done. }
  destruct (parseAttribute m p attr this) as [[this1 object1] |] eqn:Hattr; simpl in H; [| done].
  destruct (IH this1 object1 H) as [Hfield Hsome]. rewrite Hfield, (f_child _ _ _ _ _ _ Hattr).
  rewrite filter_cons.
  destruct (decide (nodeName attr = name)) as [Hname | Hname]; [| done].
  rewrite last_cons.
  destruct (last (filter (λ c : Node, nodeName c = name) l)) as [c |] eqn:Hlast; simpl.
  - destruct Hsome as [v Hv]; [intros Hnil; by rewrite Hnil in Hlast |].
    simpl in Hv. rewrite Hv. eauto.
  - destruct (valueOf_parsed _ _ _ _ _ _ Hattr Hname) as [v Hv]. rewrite Hv. eauto.
Qed.

Lemma getAttributes_storedField (this : MusicXML) (m p : nat) :
  f (getAttributes this m p)
  = match storedField f this m p with
    | Some v => Some v
    | None =>
        match m with
        | O => None
        | S m' => f (getAttributes this m' p)
        end
    end.
Proof.
  unfold storedField. destruct m as [| m].
  - rewrite getAttributes_zero. by destruct (snapshot this 0 p) as [s |]; simpl; [destruct (f s) |].
  - rewrite getAttributes_step. destruct (snapshot this (S m) p) as [s |]; simpl; [| done].
    by rewrite f_Merge.
Qed.

Lemma parseAttributes_declared (m p : nat) (attributes : Node) (this this' : MusicXML)
    (attrObject : AttrObject) :
  parseAttributes m p attributes this = Ok (this', attrObject) →
  f (getAttributes this' m p)
  = match declared name valueOf attributes with
    | Some v => Some v
    | None => f (getAttributes this m p)
    end ∧
  (childrenNamed name attributes ≠ [] → is_Some (declared name valueOf attributes)).
Proof.
  intros H.
  destruct (parseAttributes_storedField m p attributes this this' attrObject H) as [Hf Hsome].
  split; [| done].
  rewrite (getAttributes_storedField this'), (getAttributes_storedField this), Hf.
  destruct (declared name valueOf attributes); [done |].
  destruct (storedField f this m p); [done |].
  destruct m as [| m]; [done |].
  f_equal. apply getAttributes_same. intros i Hi.
  apply parseAttributes_cells in H as (Hcell & _). apply Hcell. lia.
Qed.

End Declared.

Lemma storedField_storeAttribute {A : Type} (f : Attributes → option A) (m p : nat)
    (change : Attributes → Attributes) (this : MusicXML) :
  storedField f (storeAttribute m p change this) m p
  = f (change (default noAttributes (snapshot this m p))).
Proof. unfold storedField. rewrite snapshot_storeAttribute, decide_True by done. done. Qed.

Lemma attributeNames_cases (name : string) :
  name = "staves" ∨ name = "key" ∨ name = "time" ∨ name = "clef" ∨ name = "divisions" ∨
  name ∉ attributeNames.
Proof.
  destruct (decide (name ∈ attributeNames)) as [Hin | Hout]; [| by repeat right].
  unfold attributeNames in Hin.
  repeat (apply elem_of_cons in Hin as [-> | Hin]; [tauto |]).
  by apply elem_of_nil in Hin.
Qed.

(** A child that is parsed and has a known name stores a change of the
    snapshot, and the change writes the key named after the child and no
    other. *)
Lemma parseAttribute_store (m p : nat) (attr : Node) (this this' : MusicXML)
    (attrObject : AttrObject) :
  parseAttribute m p attr this = Ok (this', attrObject) →
  nodeName attr ∈ attributeNames →
  ∃ this0 change,
    this' = storeAttribute m p change this0 ∧
    attributes this0 = attributes this ∧
    ∀ o,
      divisions (change o)
      = (if decide (nodeName attr = "divisions") then divisionsOf attr else divisions o) ∧
      key (change o) = (if decide (nodeName attr = "key") then keyOf attr else key o) ∧
      time (change o) = (if decide (nodeName attr = "time") then timeOf attr else time o).
Proof.
  intros H Hin. revert H. unfold parseAttribute. cbv zeta.
  destruct (attributeNames_cases (nodeName attr))
    as [Hname | [Hname | [Hname | [Hname | [Hname | Hname]]]]]; [.. | done];
    rewrite Hname; closed_names.
  - intros [= <-]. eexists _, _. split; [reflexivity |]. split; [by destruct (m =? 0)%nat |].
    intros o. repeat case_decide; done.
  - unfold keyOf. destruct (firstText attr "fifths") as [f |]; unfold bind; [| done].
    intros [= <-]. eexists _, _. split; [reflexivity |]. split; [done |].
    intros o. repeat case_decide; done.
  - unfold timeOf. destruct (firstText attr "beats") as [b |]; unfold bind; [| done].
    destruct (firstText attr "beat-type") as [t |]; [| done].
    intros [= <-]. eexists _, _. split; [reflexivity |]. split; [done |].
    intros o. repeat case_decide; done.
  - destruct (firstText attr "sign") as [sign |]; unfold bind; [| done].
    destruct (firstText attr "line") as [line |]; [| done].
    match goal with |- context [match ?x with Ok a => _ | Err e => Err e end] =>
      destruct x as [clefs |]; [| done] end.
    intros [= <-]. eexists _, _. split; [reflexivity |]. split; [done |].
    intros o. repeat case_decide; done.
  - intros [= <-]. eexists _, _. split; [reflexivity |]. split; [done |].
    intros o. repeat case_decide; done.
Qed.

Lemma parseAttribute_storedField {A : Type} (f : Attributes → option A)
    (name : string) (valueOf : Node → option A) :
  (∀ attr this0 change m p,
     (∀ o,
        divisions (change o)
        = (if decide (nodeName attr = "divisions") then divisionsOf attr else divisions o) ∧
        key (change o) = (if decide (nodeName attr = "key") then keyOf attr else key o) ∧
        time (change o) = (if decide (nodeName attr = "time") then timeOf attr else time o)) →
     f (change (default noAttributes (snapshot this0 m p)))
     = if decide (nodeName attr = name) then valueOf attr
       else storedField f this0 m p) →
  name ∈ attributeNames →
  ∀ m p attr this this' attrObject,
    parseAttribute m p attr this = Ok (this', attrObject) →
    storedField f this' m p
    = if decide (nodeName attr = name) then valueOf attr else storedField f this m p.
Proof.
  intros Hchange Hname m p attr this this' attrObject H.
  destruct (decide (nodeName attr ∈ attributeNames)) as [Hin | Hout].
  - destruct (parseAttribute_store m p attr this this' attrObject H Hin)
      as (this0 & change & -> & Ha & Hc).
    rewrite storedField_storeAttribute, (Hchange attr this0 change m p Hc).
    unfold storedField, snapshot. by rewrite Ha.
  - rewrite parseAttribute_unknown in H by done. simplify_eq.
    rewrite decide_False; [done |]. intros Heq. apply Hout. by rewrite Heq.
Qed.

Lemma divisions_child :
  ∀ m p attr this this' attrObject,
    parseAttribute m p attr this = Ok (this', attrObject) →
    storedField divisions this' m p
    = if decide (nodeName attr = "divisions") then divisionsOf attr
      else storedField divisions this m p.
Proof.
  apply parseAttribute_storedField; [| unfold attributeNames; set_solver].
  intros attr this0 change m p Hc. destruct (Hc (default noAttributes (snapshot this0 m p)))
    as (-> & _ & _).
  unfold storedField. by destruct (snapshot this0 m p).
Qed.

Lemma key_child :
  ∀ m p attr this this' attrObject,
    parseAttribute m p attr this = Ok (this', attrObject) →
    storedField key this' m p
    = if decide (nodeName attr = "key") then keyOf attr else storedField key this m p.
Proof.
  apply parseAttribute_storedField; [| unfold attributeNames; set_solver].
  intros attr this0 change m p Hc. destruct (Hc (default noAttributes (snapshot this0 m p)))
    as (_ & -> & _).
  unfold storedField. by destruct (snapshot this0 m p).
Qed.

Lemma time_child :
  ∀ m p attr this this' attrObject,
    parseAttribute m p attr this = Ok (this', attrObject) →
    storedField time this' m p
    = if decide (nodeName attr = "time") then timeOf attr else storedField time this m p.
Proof.
  apply parseAttribute_storedField; [| unfold attributeNames; set_solver].
  intros attr this0 change m p Hc. destruct (Hc (default noAttributes (snapshot this0 m p)))
    as (_ & _ & ->).
  unfold storedField. by destruct (snapshot this0 m p).
Qed.

Lemma key_parsed :
  ∀ m p attr this this' attrObject,
    parseAttribute m p attr this = Ok (this', attrObject) →
    nodeName attr = "key" → is_Some (keyOf attr).
Proof.
  intros m p attr this this' attrObject H Hname. unfold keyOf.
  destruct (firstText attr "fifths") as [f | e] eqn:Hf; [eauto |].
  exfalso. revert H. unfold parseAttribute. cbv zeta. rewrite Hname. closed_names.
  rewrite Hf. unfold bind. discriminate.
Qed.

Lemma time_parsed :
  ∀ m p attr this this' attrObject,
    parseAttribute m p attr this = Ok (this', attrObject) →
    nodeName attr = "time" → is_Some (timeOf attr).
Proof.
  intros m p attr this this' attrObject H Hname. unfold timeOf.
  destruct (firstText attr "beats") as [b | e] eqn:Hb;
    [destruct (firstText attr "beat-type") as [t | e] eqn:Ht; [eauto |] |];
    exfalso; revert H; unfold parseAttribute; cbv zeta; rewrite Hname; closed_names;
    rewrite Hb, ?Ht; unfold bind; discriminate.
Qed.

(** X8.  Declarations reach the effective attributes.  After
    [parseAttributes] has read a block for the measure [m] and the part
    [p], the divisions, the key and the time [getAttributes] gives for [m]
    and [p] are those of the last [<divisions>], [<key>] and [<time>]
    child of the block, and what they were before for a kind the block has
    no child of; a block with such a child declares a value.  The
    effective attributes of the other parts, and of the measures before
    [m], are unchanged. *)
Theorem parseAttributes_declares (m p : nat) (attributes : Node) (this this' : MusicXML)
    (attrObject : AttrObject) :
  parseAttributes m p attributes this = Ok (this', attrObject) →
  divisions (getAttributes this' m p)
  = match declared "divisions" divisionsOf attributes with
    | Some v => Some v
    | None => divisions (getAttributes this m p)
    end ∧
  key (getAttributes this' m p)
  = match declared "key" keyOf attributes with
    | Some v => Some v
    | None => key (getAttributes this m p)
    end ∧
  time (getAttributes this' m p)
  = match declared "time" timeOf attributes with
    | Some v => Some v
    | None => time (getAttributes this m p)
    end ∧
  (childrenNamed "divisions" attributes ≠ [] →
   is_Some (declared "divisions" divisionsOf attributes)) ∧
  (childrenNamed "key" attributes ≠ [] → is_Some (declared "key" keyOf attributes)) ∧
  (childrenNamed "time" attributes ≠ [] → is_Some (declared "time" timeOf attributes)) ∧
  (∀ m' q, q ≠ p ∨ (m' < m)%nat → getAttributes this' m' q = getAttributes this m' q).
Proof.
  intros H.
  destruct (parseAttributes_declared divisions "divisions" divisionsOf
              (λ _ _, eq_refl) eq_refl divisions_child
              (λ _ _ _ _ _ _ _ _, mk_is_Some _ _ eq_refl)
              m p attributes this this' attrObject H) as [Hd Hd'].
  destruct (parseAttributes_declared key "key" keyOf
              (λ _ _, eq_refl) eq_refl key_child key_parsed
              m p attributes this this' attrObject H)
    as [Hk Hk'].
  destruct (parseAttributes_declared time "time" timeOf
              (λ _ _, eq_refl) eq_refl time_child time_parsed
              m p attributes this this' attrObject H)
    as [Ht Ht'].
  repeat split; try done.
  intros m' q Hother. apply getAttributes_same. intros i Hi.
  apply parseAttributes_cells in H as (Hcell & _). apply Hcell. lia.
Qed.

(** ** Stave counts *)

Lemma parseAttribute_staves (m p : nat) (attr : Node) (this this' : MusicXML)
    (attrObject : AttrObject) :
  parseAttribute m p attr this = Ok (this', attrObject) →
  JSArray.get (numStaves this') p
  = if decide (nodeName attr = "staves" ∧ m = 0%nat)
    then Some (parseInt (textContent attr))
    else JSArray.get (numStaves this) p.
Proof.
  intros H. destruct (decide (nodeName attr = "staves")) as [Hname | Hname].
  - revert H. unfold parseAttribute. cbv zeta. rewrite Hname. closed_names.
    intros [= <-]. destruct (storeAttribute_frame m p
      (λ o, mkAttributes (Some ()) (key o) (time o) (clef o) (divisions o))
      (if (m =? 0)%nat
       then set_numStaves (JSArray.set (numStaves this) p (parseInt (textContent attr))) this
       else this)) as (_ & -> & _).
    destruct (Nat.eqb_spec m 0) as [-> | Hm].
    + rewrite decide_True by done. cbn [numStaves set_numStaves].
      rewrite get_set. by rewrite decide_True.
    + rewrite decide_False by (intros [_ ?]; done). done.
  - rewrite decide_False by (intros [? _]; done).
    apply parseAttribute_cell in H as (_ & _ & _ & Hn & _). by rewrite Hn.
Qed.

Lemma parseAttributes_staves (m p : nat) (attributes : Node) (this this' : MusicXML)
    (attrObject : AttrObject) :
  parseAttributes m p attributes this = Ok (this', attrObject) →
  JSArray.get (numStaves this') p
  = match last (childrenNamed "staves" attributes) with
    | Some staves =>
        if decide (m = 0%nat) then Some (parseInt (textContent staves))
        else JSArray.get (numStaves this) p
    | None => JSArray.get (numStaves this) p
    end.
Proof.
  unfold parseAttributes, childrenNamed.
  generalize AttrUndefined (childNodes attributes). intros o l.
  revert this o. induction l as [| attr l IH]; intros this o H; simpl in H; [by simplify_eq |].
  destruct (parseAttribute m p attr this) as [[this1 object1] |] eqn:Hattr; simpl in H; [| done].
  rewrite (IH this1 object1 H), (parseAttribute_staves _ _ _ _ _ _ Hattr), filter_cons.
  destruct (decide (nodeName attr = "staves")) as [Hname | Hname].
  - rewrite last_cons.
    destruct (last (filter (λ c : Node, nodeName c = "staves") l)); [| ].
    + destruct (decide (m = 0%nat)); [done |]. by rewrite decide_False by (intros [_ ?]; done).
    + destruct (decide (m = 0%nat)); [by rewrite decide_True | ].
      by rewrite decide_False by (intros [_ ?]; done).
  - rewrite decide_False by (intros [? _]; done). done.
Qed.

(** The loop over the measures of part [partNum], at measure number
    [measureNum]: the stave count of the part is what the first measure
    declares, when the loop starts at measure 0, and no other stave count
    changes. *)
Lemma parseMeasures_numStaves (partNum : nat) (children : list Node) (j measureNum : nat)
    (this this' : MusicXML) :
  parseMeasures partNum children j measureNum this = Ok (Next this') →
  (∀ q, q ≠ partNum → JSArray.get (numStaves this') q = JSArray.get (numStaves this) q) ∧
  JSArray.get (numStaves this') partNum
  = match (if decide (measureNum = 0%nat)
           then declaredStaves (Element "part" [] children) else None) with
    | Some n => Some n
    | None => JSArray.get (numStaves this) partNum
    end.
Proof.
  revert j measureNum this.
  induction children as [| measure children IH]; intros j measureNum this H; simpl in H.
  { simplify_eq. split; [intros q Hq; reflexivity |].
    destruct (decide (measureNum = 0%nat)); reflexivity. }
  unfold declaredStaves, childrenNamed in *. simpl childNodes in *. rewrite filter_cons.
  destruct (String.eqb_spec (nodeName measure) "measure") as [Hname | Hname]; simpl in H.
  2:{ rewrite (decide_False (P := nodeName measure = "measure")) by done.
      by apply (IH (S j) measureNum). }
  rewrite (decide_True (P := nodeName measure = "measure")) by done. simpl head.
  set (this1 := if negb (JSArray.has (measures this) j) then _ else this) in H.
  assert (H1 : numStaves this1 = numStaves this).
  { unfold this1. by destruct (negb (JSArray.has (measures this) j)). }
  clearbody this1.
  destruct (JSArray.get (measures this1) measureNum) as [row |]; simpl in H; [| done].
  destruct (negb (JSArray.length row =? partNum)%nat); [done |].
  set (this2 := set_measures _ this1) in H.
  assert (H2 : numStaves this2 = numStaves this) by done. clearbody this2.
  destruct (head (getElementsByTagName measure "attributes")) as [attributes |] eqn:Hhead;
    simpl in H.
  - destruct (parseAttributes measureNum partNum attributes this2) as [[this3 object3] |]
      eqn:Hattrs; simpl in H; [| done].
    destruct (IH (S j) (S measureNum) this3 H) as [Hq Hp].
    pose proof (parseAttributes_staves _ _ _ _ _ _ Hattrs) as Hstaves.
    apply parseAttributes_cells in Hattrs as (_ & Hq3 & _).
    split.
    + intros q Hne. by rewrite Hq, Hq3, H2.
    + rewrite Hp, decide_False, Hstaves, H2 by lia. simpl. rewrite ?Hhead. simpl.
      unfold childrenNamed.
      destruct (decide (measureNum = 0%nat)); simpl;
        by destruct (last (filter (λ c : Node, nodeName c = "staves") (childNodes attributes))).
  - destruct (IH (S j) (S measureNum) this2 H) as [Hq Hp].
    split.
    + intros q Hne. by rewrite Hq, H2.
    + rewrite Hp, decide_False, H2 by lia. simpl. rewrite ?Hhead.
      by destruct (decide (measureNum = 0%nat)).
Qed.

Lemma parseParts_numStaves (nodes : list Node) (partNum : nat) (this this' : MusicXML) :
  parseParts nodes partNum this = Ok (Next this') →
  (∀ q, (partNum ≤ q)%nat → JSArray.get (numStaves this) q = None) →
  (∀ q, (q < partNum)%nat → JSArray.get (numStaves this') q = JSArray.get (numStaves this) q) ∧
  (∀ q part,
     filter (λ n, nodeName n = "part") nodes !! q = Some part →
     JSArray.get (numStaves this') (partNum + q) = Some (default (Int 1) (declaredStaves part))) ∧
  (∀ q, (partNum + length (filter (λ n, nodeName n = "part") nodes) ≤ q)%nat →
        JSArray.get (numStaves this') q = None).
Proof.
  revert partNum this.
  induction nodes as [| node nodes IH]; intros partNum this H Hfresh; simpl in H.
  { simplify_eq. split; [done |]. split.
    - intros q part Hq. by rewrite filter_nil in Hq.
    - intros q Hq. apply Hfresh. rewrite filter_nil in Hq. simpl in Hq. lia. }
  rewrite filter_cons.
  destruct (String.eqb_spec (nodeName node) "part") as [Hname | Hname].
  2:{ rewrite decide_False by done. by apply IH. }
  rewrite decide_True by done.
  destruct (parseMeasures partNum (childNodes node) 0 0 this) as [[this1 | this1] |] eqn:Hpart;
    simpl in H; [| done | done].
  destruct (parseMeasures_numStaves _ _ _ _ _ _ Hpart) as [Hq1 Hp1].
  rewrite decide_True in Hp1 by done.
  assert (Hnode : declaredStaves (Element "part" [] (childNodes node)) = declaredStaves node).
  { by destruct node. }
  rewrite Hnode, Hfresh in Hp1 by lia.
  set (this2 := if negb (JSArray.has (numStaves this1) partNum) then _ else this1) in H.
  assert (H2 : (∀ q, q ≠ partNum → JSArray.get (numStaves this2) q = JSArray.get (numStaves this) q) ∧
               JSArray.get (numStaves this2) partNum = Some (default (Int 1) (declaredStaves node))).
  { unfold this2. destruct (JSArray.has (numStaves this1) partNum) eqn:Hhas; simpl.
    - split; [done |]. apply has_get in Hhas as [n Hn]. rewrite Hn in *.
      by destruct (declaredStaves node).
    - split; [intros q Hne; rewrite get_set, decide_False by done; by apply Hq1 |].
      rewrite get_set, decide_True by done.
      destruct (declaredStaves node); [| done]. apply not_true_iff_false in Hhas.
      exfalso. apply Hhas, has_get. rewrite Hp1. eauto. }
  destruct H2 as [Hq2 Hp2]. clearbody this2.
  destruct (IH (S partNum) this2 H) as (Hbelow & Hparts & Habove).
  { intros q Hq. rewrite Hq2 by lia. apply Hfresh. lia. }
  split; [| split].
  - intros q Hq. rewrite Hbelow, Hq2 by lia. done.
  - intros [| q] part Hq; simpl in Hq.
    + simplify_eq. rewrite Nat.add_0_r, Hbelow by lia. done.
    + replace (partNum + S q)%nat with (S partNum + q)%nat by lia. by apply Hparts.
  - intros q Hq. simpl in Hq. apply Habove. lia.
Qed.

Lemma parseMeasures_return (partNum : nat) (children : list Node) (j measureNum : nat)
    (this this' : MusicXML) :
  parseMeasures partNum children j measureNum this = Ok (Return this') →
  valid this' = Some false.
Proof.
  revert j measureNum this.
  induction children as [| measure children IH]; intros j measureNum this H; simpl in H;
    [done |].
  destruct (negb (String.eqb (nodeName measure) "measure")); [by eapply IH |].
  set (this1 := if negb (JSArray.has (measures this) j) then _ else this) in H.
  clearbody this1.
  destruct (JSArray.get (measures this1) measureNum) as [row |]; simpl in H; [| done].
  destruct (negb (JSArray.length row =? partNum)%nat); [by simplify_eq |].
  set (this2 := set_measures _ this1) in H. clearbody this2.
  destruct (head (getElementsByTagName measure "attributes")) as [attributes |];
    [| by eapply IH].
  destruct (parseAttributes measureNum partNum attributes this2) as [[this3 object3] |];
    simpl in H; [by eapply IH | done].
Qed.

Lemma parseParts_return (nodes : list Node) (partNum : nat) (this this' : MusicXML) :
  parseParts nodes partNum this = Ok (Return this') → valid this' = Some false.
Proof.
  revert partNum this.
  induction nodes as [| node nodes IH]; intros partNum this H; simpl in H; [done |].
  destruct (String.eqb (nodeName node) "part"); [| by eapply IH].
  destruct (parseMeasures partNum (childNodes node) 0 0 this) as [[this1 | this1] |] eqn:Hpart;
    simpl in H; [by eapply IH | | done].
  simplify_eq. by eapply parseMeasures_return.
Qed.

Lemma parse_stave_counts (window : Window) (documentElement : Node) (this : MusicXML) :
  parse window newMusicXML (DataDocument documentElement) = Ok this →
  isValid this = Some true →
  ∀ p,
    JSArray.get (numStaves this) p
    = (λ part, default (Int 1) (declaredStaves part)) <$> partNodes documentElement !! p.
Proof.
  rewrite parse_document. unfold isValid. intros H Hvalid p.
  destruct (negb (String.eqb (nodeName documentElement) "score-partwise")); [done |].
  destruct (parseParts (childNodes documentElement) 0 newMusicXML) as [[this1 | this1] |]
    eqn:Hparts; simpl in H; simplify_eq.
  2:{ apply parseParts_return in Hparts. congruence. }
  apply parseParts_numStaves in Hparts as (_ & Hin & Hout); [| done].
  cbn [numStaves set_valid]. unfold partNodes, childrenNamed.
  destruct (filter (λ n, nodeName n = "part") (childNodes documentElement) !! p)
    as [part |] eqn:Hp.
  - apply Hin in Hp. simpl in Hp. by rewrite Hp.
  - apply lookup_ge_None in Hp. by rewrite Hout by (simpl; lia).
Qed.

(** X9.  Stave counts.  After a parse that leaves a new backend valid,
    [numStaves] has one entry for each [<part>] child of the document
    element, in order, and no other: the integer read from the last
    [<staves>] child of the first [<attributes>] element of the first
    measure of the part, and 1 when there is none. *)
Theorem parse_numStaves (window : Window) (documentElement : Node) (this : MusicXML) :
  parse window newMusicXML (DataDocument documentElement) = Ok this →
  isValid this = Some true →
  ∀ p,
    JSArray.get (numStaves this) p
    = (λ part, default (Int 1) (declaredStaves part)) <$> partNodes documentElement !! p.
Proof. apply parse_stave_counts. Qed.

(** ** The measure grid *)

Lemma nonIncreasing_nil : nonIncreasing [].
Proof. intros i j a b _ Hi. by rewrite lookup_nil in Hi. Qed.

Lemma nonIncreasing_last (counts : list nat) (q c : nat) :
  nonIncreasing counts → counts !! q = Some c → (default 0%nat (last counts) ≤ c)%nat.
Proof.
  intros Hmono Hq. rewrite last_lookup.
  destruct (counts !! pred (length counts)) as [l |] eqn:Hl; simpl; [| lia].
  apply (Hmono q (pred (length counts)) c l); [| done | done].
  apply lookup_lt_Some in Hq. lia.
Qed.

Lemma nonIncreasing_hd (counts : list nat) (q c : nat) :
  nonIncreasing counts → counts !! q = Some c → (c ≤ hd 0%nat counts)%nat.
Proof.
  intros Hmono Hq. destruct counts as [| c0 counts]; [by rewrite lookup_nil in Hq |].
  simpl. apply (Hmono 0%nat q c0 c); [lia | done | done].
Qed.

Lemma nonIncreasing_snoc (counts : list nat) (n : nat) :
  nonIncreasing counts →
  (counts ≠ [] → (n ≤ default 0%nat (last counts))%nat) →
  nonIncreasing (counts ++ [n]).
Proof.
  intros Hmono Hn i j a b Hij Hi Hj.
  destruct (decide (j < length counts)%nat) as [Hlt | Hge].
  - rewrite lookup_app_l in Hi, Hj by lia. by apply (Hmono i j).
  - assert (j = length counts) as ->.
    { apply lookup_lt_Some in Hj. rewrite length_app in Hj. simpl in Hj. lia. }
    rewrite list_lookup_middle in Hj by done. simplify_eq.
    destruct (decide (i = length counts)) as [-> | Hne].
    + rewrite list_lookup_middle in Hi by done. by simplify_eq.
    + rewrite lookup_app_l in Hi by lia.
      pose proof (nonIncreasing_last counts i a Hmono Hi).
      assert (counts ≠ []) as Hcounts by (by intros ->; rewrite lookup_nil in Hi).
      specialize (Hn Hcounts). lia.
Qed.

Lemma partsWith_all (counts : list nat) (i : nat) :
  partsWith counts i = length counts ↔ Forall (λ c, (i < c)%nat) counts.
Proof.
  unfold partsWith. induction counts as [| c counts IH]; [by split |].
  rewrite filter_cons. destruct (decide (i < c)%nat) as [Hc | Hc]; simpl.
  - rewrite Forall_cons. split.
    + intros Heq. injection Heq as Heq. split; [done |]. by apply IH.
    + intros [_ H]. f_equal. by apply IH.
  - pose proof (length_filter (λ c, (i < c)%nat) counts) as Hle. split; [lia |].
    intros Hall%Forall_cons. by destruct Hall.
Qed.

Lemma partsWith_last (counts : list nat) (i : nat) :
  nonIncreasing counts → counts ≠ [] →
  partsWith counts i = length counts ↔ (i < default 0%nat (last counts))%nat.
Proof.
  intros Hmono Hcounts. rewrite partsWith_all. split.
  - intros Hall. destruct (last counts) as [l |] eqn:Hl.
    + simpl. rewrite Forall_forall in Hall. apply Hall. by apply last_Some_elem_of.
    + by apply last_None in Hl.
  - intros Hi. apply Forall_forall. intros c [q Hq]%list_elem_of_lookup.
    pose proof (nonIncreasing_last counts q c Hmono Hq). lia.
Qed.

Lemma partsWith_snoc (counts : list nat) (n i : nat) :
  partsWith (counts ++ [n]) i
  = (partsWith counts i + if decide (i < n)%nat then 1 else 0)%nat.
Proof.
  unfold partsWith. rewrite filter_app, length_app, filter_cons, filter_nil.
  by destruct (decide (i < n)%nat).
Qed.

Lemma nthMeasure_snoc (done : list Node) (part : Node) (i q : nat) :
  nthMeasure (done ++ [part]) i q
  = if decide (q = length done) then childrenNamed "measure" part !! i
    else nthMeasure done i q.
Proof.
  unfold nthMeasure. destruct (decide (q = length done)) as [-> | Hne].
  - by rewrite list_lookup_middle.
  - destruct (decide (q < length done)%nat).
    + by rewrite lookup_app_l by lia.
    + rewrite !(proj2 (lookup_ge_None _ _)); [done | lia |].
      rewrite length_app. simpl. lia.
Qed.

Lemma rowsOf_empty : rowsOf JSArray.empty [] [].
Proof.
  split; [done |]. split.
  { intros i. simpl. unfold JSArray.get. simpl. rewrite lookup_empty. split; [by intros [] | lia]. }
  split; [by intros i row H |]. split; [apply nonIncreasing_nil | done].
Qed.

(** A part that has been read to its end becomes one of the parts done. *)
Lemma rowsOf_next (grid : JSArray.t (JSArray.t Node)) (done : list Node) (part : Node) :
  rowsOf grid done (childrenNamed "measure" part) → rowsOf grid (done ++ [part]) [].
Proof.
  unfold rowsOf. cbv zeta. intros (Hlen & Hhas & Hrow & Hmono & Hlast).
  rewrite fmap_app. change (measureCount <$> [part]) with [measureCount part].
  simpl length. fold (measureCount part) in *.
  set (counts := measureCount <$> done) in *. set (n := measureCount part) in *.
  assert (Hh : Nat.max (hd 0%nat (counts ++ [n])) 0
               = Nat.max (hd 0%nat counts) n).
  { destruct done as [| part0 done]; [simpl; fold n; lia |].
    specialize (Hlast ltac:(done)). simpl.
    assert (default 0%nat (last counts) ≤ hd 0%nat counts)%nat.
    { apply (nonIncreasing_last counts 0%nat); [done | done]. }
    simpl in *. fold n. lia. }
  rewrite Hh. split; [done |]. split; [done |]. split.
  - intros i row Hi. split; [lia |]. intros _.
    destruct (Hrow i row Hi) as [Hbelow Habove].
    rewrite partsWith_snoc. fold n.
    destruct (decide (i < n)%nat) as [Hin | Hin].
    + destruct (Hbelow Hin) as [Hl Hq]. split.
      * rewrite Hl. destruct done as [| part0 done]; [done |].
        specialize (Hlast ltac:(done)).
        rewrite (proj2 (partsWith_last counts i Hmono ltac:(done))) by lia.
        unfold counts. rewrite length_fmap. lia.
      * intros q. rewrite Hq, nthMeasure_snoc. done.
    + destruct (Habove ltac:(lia)) as [Hl Hq]. split; [lia |].
      intros q. rewrite Hq, nthMeasure_snoc.
      destruct (decide (q = length done)) as [-> | Hne]; [| done].
      unfold nthMeasure. rewrite (proj2 (lookup_ge_None done _)) by lia.
      symmetry. apply lookup_ge_None. fold (measureCount part). fold n. lia.
  - split; [by apply nonIncreasing_snoc; [| intros H; apply Hlast; by intros ->] |].
    intros _. simpl. lia.
Qed.

(** The row of the next measure takes the measure of the part being
    read. *)
Lemma rowsOf_step (grid grid1 : JSArray.t (JSArray.t Node)) (done current : list Node)
    (measure : Node) (row : JSArray.t Node) :
  rowsOf grid done current →
  (∀ i, i ≠ length current → JSArray.get grid1 i = JSArray.get grid i) →
  (JSArray.length grid ≤ JSArray.length grid1)%nat →
  (JSArray.length grid1 ≤ Nat.max (JSArray.length grid) (S (length current)))%nat →
  JSArray.length row = length done →
  (∀ q, JSArray.get row q = nthMeasure done (length current) q) →
  (done ≠ [] → (length current < default 0%nat (last (measureCount <$> done)))%nat) →
  rowsOf (JSArray.set grid1 (length current) (JSArray.set row (length done) measure))
         done (current ++ [measure]).
Proof.
  unfold rowsOf. cbv zeta. intros (Hlen & Hhas & Hrow & Hmono & Hlast) Hsame Hge Hle Hl Hq Hk.
  rewrite length_app. simpl length. rewrite Nat.add_1_r.
  set (counts := measureCount <$> done) in *. set (k := length current) in *.
  split; [simpl; lia |]. split; [| split; [| split; [done | intros H; specialize (Hk H); lia]]].
  - intros i. rewrite get_set. destruct (decide (k = i)) as [<- | Hne].
    + split; [lia | eauto].
    + rewrite Hsame, Hhas by done. lia.
  - intros i row' Hi. rewrite get_set in Hi. destruct (decide (k = i)) as [<- | Hne].
    + simplify_eq. split; [intros _ | lia]. split; [simpl; lia |].
      intros q. rewrite get_set, Hq. unfold k. rewrite list_lookup_middle by done.
      destruct (decide (length done = q)) as [<- | Hne]; [by rewrite decide_True |].
      by rewrite decide_False.
    + rewrite Hsame in Hi by done. destruct (Hrow i row' Hi) as [Hbelow Habove]. split.
      * intros Hlt. destruct (Hbelow ltac:(lia)) as [Hl' Hq']. split; [done |].
        intros q. rewrite Hq'. by rewrite lookup_app_l by (fold k; lia).
      * intros Hlt. apply Habove. lia.
Qed.

(** The loop over the children of the part [length done]: when it goes
    to its end, every measure of the part is in its row; when it stops, the
    document is marked invalid, and for a part of measures only the part
    has more measures than the part before it. *)
Lemma parseMeasures_rows (done current children : list Node) (j : nat) (this : MusicXML) :
  rowsOf (measures this) done current → (length current ≤ j)%nat →
  match parseMeasures (length done) children j (length current) this with
  | Ok (Next this') =>
      rowsOf (measures this') done (current ++ filter (λ c, nodeName c = "measure") children)
  | Ok (Return this') =>
      valid this' = Some false ∧
      (j = length current → Forall (λ c, nodeName c = "measure") children →
       done ≠ [] ∧
       (default 0%nat (last (measureCount <$> done)) < length current + length children)%nat)
  | Err _ => True
  end.
Proof.
  revert current j this.
  induction children as [| measure children IH]; intros current j this Hrows Hj.
  { simpl. by rewrite filter_nil, app_nil_r. }
  simpl parseMeasures. rewrite filter_cons.
  destruct (String.eqb_spec (nodeName measure) "measure") as [Hname | Hname]; cbn [negb].
  2:{ rewrite decide_False by done. specialize (IH current (S j) this Hrows ltac:(lia)).
      destruct (parseMeasures (length done) children (S j) (length current) this)
        as [[this' | this'] |]; [done | | done].
      split; [apply IH |]. intros _ Hall%Forall_cons. by destruct Hall. }
  rewrite decide_True by done.
  pose proof Hrows as (Hlen & Hhas & Hrow & Hmono & Hlast).
  set (counts := measureCount <$> done) in *. set (k := length current) in *.
  set (this1 := if negb (JSArray.has (measures this) j) then _ else this).
  assert (H1 : ∃ row,
    JSArray.get (measures this1) k = Some row ∧
    valid this1 = valid this ∧
    (∀ i, i ≠ k → JSArray.get (measures this1) i = JSArray.get (measures this) i) ∧
    (JSArray.length (measures this) ≤ JSArray.length (measures this1))%nat ∧
    (JSArray.length (measures this1) ≤ Nat.max (JSArray.length (measures this)) (S k))%nat ∧
    (JSArray.length row = length done →
       (∀ q, JSArray.get row q = nthMeasure done k q) ∧
       (done ≠ [] → (k < default 0%nat (last counts))%nat)) ∧
    (JSArray.length row ≠ length done →
       j = k → done ≠ [] ∧ (default 0%nat (last counts) ≤ k)%nat)).
  { unfold this1. destruct (JSArray.has (measures this) j) eqn:Hin; cbn [negb].
    - apply has_get, Hhas in Hin.
      assert (Hk : (k < hd 0%nat counts)%nat) by lia.
      assert (Hdone : done ≠ []) by (intros ->; simpl in Hk; lia).
      destruct (proj2 (Hhas k) ltac:(lia)) as [row Hget]. exists row.
      destruct (Hrow k row Hget) as [_ Habove]. destruct (Habove ltac:(lia)) as [Hl Hq].
      pose proof (partsWith_last counts k Hmono) as Hparts.
      assert (Hcounts : counts ≠ []) by (unfold counts; by destruct done).
      specialize (Hparts Hcounts). unfold counts in Hparts at 2. rewrite length_fmap in Hparts.
      repeat split; try done; lia.
    - exists JSArray.empty. cbn [measures set_measures valid].
      split; [by rewrite get_set, decide_True |]. split; [done |]. split.
      { intros i Hne. by rewrite get_set, decide_False. }
      split; [simpl; lia |]. split; [simpl; lia |]. split.
      + simpl. intros Hdone. symmetry in Hdone. apply nil_length_inv in Hdone as ->. done.
      + intros Hne ->. assert (Hdone : done ≠ []) by (intros ->; by apply Hne).
        split; [done |]. specialize (Hlast Hdone).
        apply not_true_iff_false in Hin. rewrite has_get, Hhas in Hin.
        destruct done as [| part0 done]; [done |].
        pose proof (nonIncreasing_last counts 0%nat _ Hmono eq_refl) as Hl0.
        change (hd 0%nat counts) with (measureCount part0) in Hin. lia. }
  destruct H1 as (row & Hget & Hvalid & Hsame & Hge & Hle & Hpass & Hstop). clearbody this1.
  rewrite Hget. cbn [defined bind].
  destruct (Nat.eqb_spec (JSArray.length row) (length done)) as [Hl | Hl]; cbn [negb].
  2:{ split; [done |]. intros -> _. destruct (Hstop Hl eq_refl) as [Hdone Hk].
      split; [done |]. simpl. lia. }
  destruct (Hpass Hl) as [Hq Hk].
  pose proof (rowsOf_step _ _ _ _ measure row Hrows Hsame Hge Hle Hl Hq Hk) as Hrows2.
  set (this2 := set_measures _ this1).
  change (JSArray.set _ _ _) with (measures this2) in Hrows2. clearbody this2.
  assert (Hnext : ∀ this3, measures this3 = measures this2 →
    match parseMeasures (length done) children (S j) (S k) this3 with
    | Ok (Next this') =>
        rowsOf (measures this') done
          (current ++ measure :: filter (λ c, nodeName c = "measure") children)
    | Ok (Return this') =>
        valid this' = Some false ∧
        (j = k → Forall (λ c, nodeName c = "measure") (measure :: children) →
         done ≠ [] ∧ (default 0%nat (last counts) < k + length (measure :: children))%nat)
    | Err _ => True
    end).
  { intros this3 H3. rewrite <- H3 in Hrows2.
    specialize (IH (current ++ [measure]) (S j) this3 Hrows2).
    rewrite length_app in IH. simpl length in IH. rewrite Nat.add_1_r in IH. fold k in IH.
    specialize (IH ltac:(lia)).
    destruct (parseMeasures (length done) children (S j) (S k) this3) as [[this' | this'] |];
      [by rewrite <- app_assoc in IH | | done].
    destruct IH as [Hv IH]. split; [done |]. intros -> Hall%Forall_cons.
    destruct (IH eq_refl (proj2 Hall)) as [Hdone Hlt]. split; [done |]. simpl. lia. }
  destruct (head (getElementsByTagName measure "attributes")) as [attributes |].
  - destruct (parseAttributes k (length done) attributes this2) as [[this3 object3] |]
      eqn:Hattrs; cbn [bind fst]; [| done].
    apply parseAttributes_frame in Hattrs as [Hm _]. by apply Hnext.
  - cbn [bind]. by apply Hnext.
Qed.

Lemma filter_all {A : Type} (P : A → Prop) `{∀ x, Decision (P x)} (l : list A) :
  Forall P l → filter P l = l.
Proof.
  induction 1 as [| x l Hx Hl IH]; [done |]. by rewrite filter_cons_True, IH.
Qed.

(** The loop over the children of the document element. *)
Lemma parseParts_rows (nodes done : list Node) (this : MusicXML) :
  rowsOf (measures this) done [] →
  match parseParts nodes (length done) this with
  | Ok (Next this') =>
      rowsOf (measures this') (done ++ filter (λ n, nodeName n = "part") nodes) []
  | Ok (Return this') =>
      valid this' = Some false ∧
      ((∀ part c, part ∈ filter (λ n, nodeName n = "part") nodes → c ∈ childNodes part →
                  nodeName c = "measure") →
       ¬ nonIncreasing (measureCount <$> (done ++ filter (λ n, nodeName n = "part") nodes)))
  | Err _ => True
  end.
Proof.
  revert done this. induction nodes as [| node nodes IH]; intros done this Hrows.
  { simpl. by rewrite filter_nil, app_nil_r. }
  simpl parseParts. rewrite filter_cons.
  destruct (String.eqb_spec (nodeName node) "part") as [Hname | Hname].
  2:{ rewrite decide_False by done. by apply IH. }
  rewrite decide_True by done.
  pose proof (parseMeasures_rows done [] (childNodes node) 0 this Hrows ltac:(simpl; lia))
    as Hpart.
  simpl length in Hpart.
  destruct (parseMeasures (length done) (childNodes node) 0 0 this) as [[this1 | this1] |];
    cbn [bind]; [| | done].
  - simpl app in Hpart. apply rowsOf_next in Hpart.
    set (this2 := if negb (JSArray.has (numStaves this1) (length done)) then _ else this1).
    assert (H2 : measures this2 = measures this1).
    { unfold this2. by destruct (negb (JSArray.has (numStaves this1) (length done))). }
    clearbody this2. rewrite <- H2 in Hpart.
    specialize (IH (done ++ [node]) this2 Hpart).
    rewrite length_app in IH. simpl length in IH. rewrite Nat.add_1_r in IH.
    rewrite <- app_assoc in IH. simpl app in IH.
    destruct (parseParts nodes (S (length done)) this2) as [[this' | this'] |];
      [done | | done].
    destruct IH as [Hv IH]. split; [done |]. intros Htidy. apply IH.
    intros part c Hp. apply Htidy. by right.
  - destruct Hpart as [Hv Hpart]. split; [done |]. intros Htidy Hmono.
    assert (Hall : Forall (λ c, nodeName c = "measure") (childNodes node)).
    { apply Forall_forall. intros c. apply Htidy. by left. }
    destruct (Hpart eq_refl Hall) as [Hdone Hlt].
    rewrite fmap_app, fmap_cons in Hmono.
    assert (Hcount : measureCount node = length (childNodes node)).
    { unfold measureCount, childrenNamed. by rewrite filter_all. }
    destruct (last (measureCount <$> done)) as [l |] eqn:Hl.
    2:{ apply last_None, fmap_nil_inv in Hl. done. }
    rewrite last_lookup in Hl. simpl in Hlt.
    assert (Hp : (0 < length done)%nat) by (destruct done; [done | simpl; lia]).
    rewrite length_fmap in Hl.
    specialize (Hmono (pred (length done)) (length done) l (measureCount node)
                  ltac:(lia)).
    rewrite lookup_app_l in Hmono by (rewrite length_fmap; lia).
    rewrite list_lookup_middle in Hmono by (by rewrite length_fmap).
    specialize (Hmono Hl eq_refl). lia.
Qed.

Lemma nthMeasure_none (parts : list Node) (i p : nat) :
  nonIncreasing (measureCount <$> parts) →
  (hd 0%nat (measureCount <$> parts) ≤ i)%nat →
  nthMeasure parts i p = None.
Proof.
  intros Hmono Hi. unfold nthMeasure. destruct (parts !! p) as [part |] eqn:Hp; [| done].
  simpl. apply lookup_ge_None. fold (measureCount part).
  pose proof (nonIncreasing_hd (measureCount <$> parts) p (measureCount part) Hmono) as Hhd.
  rewrite list_lookup_fmap, Hp in Hhd. specialize (Hhd eq_refl). lia.
Qed.

Lemma parse_rows (window : Window) (documentElement : Node) (this : MusicXML) :
  parse window newMusicXML (DataDocument documentElement) = Ok this →
  isValid this = Some true →
  rowsOf (measures this) (partNodes documentElement) [].
Proof.
  rewrite parse_document. unfold isValid, partNodes, childrenNamed. intros H Hvalid.
  destruct (negb (String.eqb (nodeName documentElement) "score-partwise")); [done |].
  pose proof (parseParts_rows (childNodes documentElement) [] newMusicXML rowsOf_empty)
    as Hrows.
  simpl length in Hrows. simpl app in Hrows.
  destruct (parseParts (childNodes documentElement) 0 newMusicXML) as [[this1 | this1] |];
    cbn [bind] in H; simplify_eq; [done |].
  destruct Hrows as [Hv _]. congruence.
Qed.

(** The grid when all the parts are read. *)
Lemma rowsOf_done (grid : JSArray.t (JSArray.t Node)) (parts : list Node) :
  rowsOf grid parts [] →
  nonIncreasing (measureCount <$> parts) ∧
  JSArray.length grid = hd 0%nat (measureCount <$> parts) ∧
  (∀ i, is_Some (JSArray.get grid i) ↔ (i < hd 0%nat (measureCount <$> parts))%nat) ∧
  (∀ i row, JSArray.get grid i = Some row →
            JSArray.length row = partsWith (measureCount <$> parts) i ∧
            ∀ q, JSArray.get row q = nthMeasure parts i q).
Proof.
  intros (Hlen & Hhas & Hrow & Hmono & _). simpl length in *.
  rewrite Nat.max_0_r in Hlen, Hhas. split; [done |]. split; [done |]. split; [done |].
  intros i row Hi. destruct (Hrow i row Hi) as [_ Habove]. apply Habove. lia.
Qed.

(** X10.  The measure grid.  After a parse that leaves a new backend
    valid, no part has more measures than a part before it; the number of
    measures is that of the first part; [this.measures[i][p]] is the
    [i]-th [<measure>] child of the [p]-th part, and is missing when there
    is no such measure; and the row [i] is as long as the number of parts
    with more than [i] measures. *)
Theorem parse_measures (window : Window) (documentElement : Node) (this : MusicXML) :
  parse window newMusicXML (DataDocument documentElement) = Ok this →
  isValid this = Some true →
  nonIncreasing (measureCounts documentElement) ∧
  getNumberOfMeasures this = hd 0%nat (measureCounts documentElement) ∧
  (∀ i p, cell this i p = nthMeasure (partNodes documentElement) i p) ∧
  (∀ i row, JSArray.get (measures this) i = Some row →
            JSArray.length row = partsWith (measureCounts documentElement) i).
Proof.
  intros H Hvalid.
  destruct (rowsOf_done _ _ (parse_rows _ _ _ H Hvalid)) as (Hmono & Hlen & Hhas & Hrow).
  unfold getNumberOfMeasures, measureCounts, cell.
  split; [done |]. split; [done |]. split.
  - intros i p. destruct (JSArray.get (measures this) i) as [row |] eqn:Hi; simpl.
    + by destruct (Hrow i row Hi) as [_ ->].
    + symmetry. apply nthMeasure_none; [done |].
      destruct (decide (i < hd 0%nat (measureCount <$> partNodes documentElement))%nat)
        as [Hlt | Hge]; [| lia].
      apply Hhas in Hlt as [row Hrow']. congruence.
  - intros i row Hi. by destruct (Hrow i row Hi) as [-> _].
Qed.

(** X11.  Validity.  For a document whose parts have [<measure>]
    children only, a parse of a new backend that returns leaves it valid
    when no part has more measures than a part before it, and invalid
    otherwise. *)
Theorem parse_tidy (window : Window) (documentElement : Node) (this : MusicXML) :
  tidy documentElement →
  parse window newMusicXML (DataDocument documentElement) = Ok this →
  (isValid this = Some true ↔ nonIncreasing (measureCounts documentElement)) ∧
  (isValid this = Some false ↔ ¬ nonIncreasing (measureCounts documentElement)).
Proof.
  rewrite parse_document. unfold tidy, isValid, measureCounts, partNodes, childrenNamed.
  intros Htidy H.
  destruct (negb (String.eqb (nodeName documentElement) "score-partwise")); [done |].
  pose proof (parseParts_rows (childNodes documentElement) [] newMusicXML rowsOf_empty)
    as Hrows.
  simpl length in Hrows. simpl app in Hrows.
  destruct (parseParts (childNodes documentElement) 0 newMusicXML) as [[this1 | this1] |];
    cbn [bind] in H; simplify_eq.
  - destruct Hrows as (_ & _ & _ & Hmono & _). cbn [valid set_valid].
    split; split; done.
  - destruct Hrows as [Hv Hno]. rewrite Hv.
    assert (Hno' : ¬ nonIncreasing
              (measureCount <$> filter (λ n, nodeName n = "part") (childNodes documentElement))).
    { apply Hno. intros part c Hpart. rewrite Forall_forall in Htidy.
      specialize (Htidy part Hpart). rewrite Forall_forall in Htidy. apply Htidy. }
    split; split; done.
Qed.

(** ** appearsValid and fifthsToKey *)

Lemma startsWithIgnoreCase_spec (pattern s : string) :
  startsWithIgnoreCase pattern s = true ↔
  ∃ found after, s = (found ++ after)%string ∧ lower found = lower pattern.
Proof.
  revert s. induction pattern as [| a pattern IH]; intros s.
  - split; [| done]. intros _. by exists "", s.
  - destruct s as [| b s]; simpl.
    + split; [done |]. intros (found & after & Hs & Hfound).
      destruct found as [| c found]; [done |]. by rewrite append_cons in Hs.
    + rewrite andb_true_iff, Ascii.eqb_eq, IH. split.
      * intros (Hab & found & after & -> & Hfound). exists (String b found), after.
        rewrite append_cons. split; [done |]. simpl. by rewrite Hab, Hfound.
      * intros (found & after & Hs & Hfound). destruct found as [| c found]; [done |].
        rewrite append_cons in Hs. simpl in Hfound. simplify_eq.
        split; [done |]. by exists found, after.
Qed.

Lemma searchIgnoreCase_range (pattern s : string) :
  searchIgnoreCase pattern s = -1 ∨ 0 ≤ searchIgnoreCase pattern s.
Proof.
  induction s as [| a s IH]; simpl.
  - destruct (startsWithIgnoreCase pattern ""); [by right | by left].
  - destruct (startsWithIgnoreCase pattern (String a s)); [by right |].
    destruct (Z.ltb_spec (searchIgnoreCase pattern s) 0); [by left | right; lia].
Qed.

Lemma searchIgnoreCase_spec (pattern s : string) :
  0 ≤ searchIgnoreCase pattern s ↔ containsIgnoreCase pattern s.
Proof.
  unfold containsIgnoreCase. induction s as [| a s IH].
  - simpl. destruct (startsWithIgnoreCase pattern "") eqn:Hstart.
    + split; [| done]. intros _. apply startsWithIgnoreCase_spec in Hstart
        as (found & after & Hs & Hfound). by exists "", found, after.
    + split; [lia |]. intros (before & found & after & Hs & Hfound).
      destruct before as [| c before]; [| by rewrite append_cons in Hs].
      change ("" ++ found ++ after)%string with (found ++ after)%string in Hs.
      assert (startsWithIgnoreCase pattern "" = true); [| congruence].
      apply startsWithIgnoreCase_spec. by exists found, after.
  - cbn [searchIgnoreCase].
    destruct (startsWithIgnoreCase pattern (String a s)) eqn:Hstart.
    + split; [| done]. intros _. apply startsWithIgnoreCase_spec in Hstart
        as (found & after & Hs & Hfound). by exists "", found, after.
    + cbv zeta. destruct (Z.ltb_spec (searchIgnoreCase pattern s) 0) as [Hlt | Hge].
      * split; [lia |]. intros (before & found & after & Hs & Hfound).
        destruct before as [| c before].
        { change ("" ++ found ++ after)%string with (found ++ after)%string in Hs.
          assert (startsWithIgnoreCase pattern (String a s) = true); [| congruence].
          apply startsWithIgnoreCase_spec. by exists found, after. }
        rewrite append_cons in Hs. simplify_eq.
        assert (0 ≤ searchIgnoreCase pattern (before ++ found ++ after)%string); [| lia].
        apply IH. by exists before, found, after.
      * split; [| lia]. intros _. apply IH in Hge as (before & found & after & -> & Hfound).
        exists (String a before), found, after. by rewrite append_cons.
Qed.

(** X12.  [appearsValid] on a string is true exactly when the string
    contains the text [<score-partwise] in some letter case. *)
Theorem appearsValid_string (text : string) :
  appearsValid (DataString text) = true ↔ containsIgnoreCase "<score-partwise" text.
Proof.
  unfold appearsValid. rewrite <- searchIgnoreCase_spec, negb_true_iff, Z.eqb_neq.
  destruct (searchIgnoreCase_range "<score-partwise" text); lia.
Qed.

(** X13.  [appearsValid] on a document is false exactly when [parse]
    throws the ArgumentError of a score that is not partwise (on a
    backend whose grid has no holes); on an argument that is neither a
    string nor a document it is false. *)
Theorem appearsValid_document (window : Window) (documentElement : Node) (this : MusicXML) :
  dense (measures this) →
  (appearsValid (DataDocument documentElement) = false ↔
   parse window this (DataDocument documentElement) = Err notPartwise) ∧
  (appearsValid (DataOther) = false).
Proof.
  intros Hdense. split; [| done]. rewrite parse_document. unfold appearsValid.
  destruct (String.eqb_spec (nodeName documentElement) "score-partwise") as [Hname | Hname];
    cbn [negb]; [| done].
  split; [done |]. intros H.
  pose proof (parseParts_grid (childNodes documentElement) 0 this Hdense) as Hgrid.
  destruct (parseParts (childNodes documentElement) 0 this) as [[this1 | this1] | e'];
    cbn [bind] in H; [done | done |].
  simplify_eq. unfold attributeError, notPartwise in Hgrid.
  repeat (apply elem_of_cons in Hgrid as [Hgrid | Hgrid]; [discriminate |]).
  by apply elem_of_nil in Hgrid.
Qed.

Section KeyTable.

Variable keySpecs : list (string * option KeySpec).

Lemma matchesFifths_keyFor (z : Z) (spec : KeySpec) :
  matchesFifths (Int z) spec = true ↔ keyFor z spec.
Proof.
  unfold matchesFifths, keyFor, num_negative, num_nonnegative, num_equal, num_abs.
  destruct spec as [a [| x]]; cbn [acc num].
  - rewrite !andb_false_r. cbn [orb]. split; [done | by intros [? _]].
  - destruct (Z.ltb_spec z 0) as [Hz | Hz]; destruct (Z.leb_spec 0 z) as [Hz' | Hz'];
      try lia; cbn [andb orb]; rewrite ?orb_false_r.
    + rewrite andb_true_iff, bool_decide_eq_true, Z.eqb_eq.
      split; [intros [Ha ->]; split; [done | tauto] |].
      intros [Hx Hb]. injection Hx as ->. tauto.
    + rewrite andb_true_iff, negb_true_iff, bool_decide_eq_false, Z.eqb_eq.
      rewrite Z.abs_eq by done. split.
      * intros [Ha ->]. split; [done |]. split; [done | lia].
      * intros [Hx Hb]. injection Hx as ->. split; [| done].
        intros Ha. apply Hb in Ha. lia.
Qed.

Lemma matchesFifths_NaN (spec : KeySpec) : matchesFifths NaN spec = false.
Proof. done. Qed.

(** X14.  [fifthsToKey].  For a count of fifths that is a number, a
    key that is returned is the name of a specification of the table with
    as many accidentals as the count without its sign, flats exactly for a
    negative count; nothing is returned exactly when the table has no such
    specification.  For NaN nothing is returned. *)
Theorem fifthsToKey_table (fifths : number) :
  match fifths with
  | NaN => fifthsToKey keySpecs fifths = None
  | Int z =>
      (∀ i, fifthsToKey keySpecs fifths = Some i →
            ∃ spec, (i, Some spec) ∈ keySpecs ∧ keyFor z spec) ∧
      (fifthsToKey keySpecs fifths = None ↔
       ∀ i spec, (i, Some spec) ∈ keySpecs → ¬ keyFor z spec)
  end.
Proof.
  unfold fifthsToKey. destruct fifths as [| z].
  - induction keySpecs as [| [i [spec |]] specs IH]; cbn [fifthsToKeyLoop]; [done | | done].
    by rewrite matchesFifths_NaN.
  - induction keySpecs as [| [i [spec |]] specs IH]; cbn [fifthsToKeyLoop].
    + split; [done |]. split; [| done]. intros _ i spec Hin. by apply elem_of_nil in Hin.
    + destruct (matchesFifths (Int z) spec) eqn:Hmatch.
      * apply matchesFifths_keyFor in Hmatch. split.
        { intros ? [= <-]. exists spec. split; [by left | done]. }
        split; [done |]. intros H. by destruct (H i spec ltac:(by left)).
      * destruct IH as [IHsome IHnone]. split.
        { intros k Hk. destruct (IHsome k Hk) as (spec' & Hin & Hkey).
          exists spec'. split; [by right | done]. }
        rewrite IHnone. split.
        { intros H k spec' [Heq | Hin]%elem_of_cons; [| by apply (H k)].
          simplify_eq. rewrite <- matchesFifths_keyFor. congruence. }
        intros H k spec' Hin. apply (H k). by right.
    + destruct IH as [IHsome IHnone]. split.
      { intros k Hk. destruct (IHsome k Hk) as (spec' & Hin & Hkey).
        exists spec'. split; [by right | done]. }
      rewrite IHnone. split.
      { intros H k spec' [Heq | Hin]%elem_of_cons; [done | by apply (H k)]. }
      intros H k spec' Hin. apply (H k). by right.
Qed.

End KeyTable.

(** ** The parts and the errors of getMeasure *)

Lemma forEach_collect {A B : Type} (g : B → result A) (l : list B) (acc : list A) :
  match forEach (λ parts p, part <- g p ;; Ok (parts ++ [part])) l acc with
  | Ok parts => ∃ new, parts = acc ++ new ∧ Forall2 (λ p part, g p = Ok part) l new
  | Err e => ∃ p, p ∈ l ∧ g p = Err e
  end.
Proof.
  revert acc. induction l as [| x l IH]; intros acc; simpl.
  { exists []. by rewrite app_nil_r. }
  destruct (g x) as [part | e] eqn:Hx; simpl.
  - specialize (IH (acc ++ [part])).
    destruct (forEach _ l (acc ++ [part])) as [parts | e].
    + destruct IH as (new & -> & Hnew). exists (part :: new).
      split; [by rewrite <- app_assoc | by constructor].
    + destruct IH as (p & Hp & He). exists p. split; [by right | done].
  - exists x. split; [by left | done].
Qed.

Lemma forEach_error {S E : Type} (f : S → E → result S) (l : list E) (s : S) (e : error) :
  forEach f l s = Err e → ∃ s0 x, x ∈ l ∧ f s0 x = Err e.
Proof.
  revert s. induction l as [| x l IH]; intros s H; simpl in H; [done |].
  destruct (f s x) as [s1 | e1] eqn:Hx; simpl in H.
  - destruct (IH s1 H) as (s0 & y & Hy & He). exists s0, y. split; [by right | done].
  - simplify_eq. exists s, x. split; [by left | done].
Qed.

Lemma nonIncreasing_tail (c : nat) (counts : list nat) :
  nonIncreasing (c :: counts) → nonIncreasing counts.
Proof. intros Hmono i j a b Hij Hi Hj. apply (Hmono (S i) (S j)); [lia | done | done]. Qed.

(** With counts that do not increase, the parts that have a measure [i]
    are the first ones. *)
Lemma partsWith_lookup (counts : list nat) (i p : nat) :
  nonIncreasing counts → (p < partsWith counts i)%nat →
  ∃ c, counts !! p = Some c ∧ (i < c)%nat.
Proof.
  revert p. induction counts as [| c0 counts IH]; intros p Hmono Hp.
  { unfold partsWith in Hp. simpl in Hp. lia. }
  unfold partsWith in Hp. rewrite filter_cons in Hp.
  destruct (decide (i < c0)%nat) as [Hc0 | Hc0].
  - destruct p as [| p]; [by exists c0 |]. simpl in Hp.
    apply (IH p); [by eapply nonIncreasing_tail | unfold partsWith; lia].
  - exfalso.
    destruct (filter (λ c, (i < c)%nat) counts) as [| x l] eqn:Hf; [simpl in Hp; lia |].
    assert (Hx : x ∈ filter (λ c, (i < c)%nat) counts) by (rewrite Hf; left).
    apply list_elem_of_filter in Hx as [Hix [q Hq]%list_elem_of_lookup].
    pose proof (Hmono 0%nat (S q) c0 x ltac:(lia) eq_refl Hq). lia.
Qed.

Lemma parseNotation_chord (st st' : Decoding) (notationElem : Node) :
  parseNotation st notationElem = Ok st' →
  NoteObj.chord (noteObj st') = NoteObj.chord (noteObj st).
Proof.
  unfold parseNotation, defined, bind. intros H.
  repeat case_match; simplify_eq; simpl; done.
Qed.

Lemma parseNotations_chord (st st' : Decoding) (elem : Node) :
  parseNotations st elem = Ok st' →
  NoteObj.chord (noteObj st') = NoteObj.chord (noteObj st).
Proof.
  unfold parseNotations. generalize (childNodes elem). intros l. revert st.
  induction l as [| e l IH]; intros st H; simpl in H; [by simplify_eq |].
  destruct (parseNotation st e) as [st1 |] eqn:He; simpl in H; [| done].
  apply parseNotation_chord in He. apply IH in H. congruence.
Qed.

Section Shape.

Variable RESOLUTION : Z.

Lemma parseNoteChild_chord (attrs : Attributes) (st st' : Decoding) (elem : Node) :
  parseNoteChild RESOLUTION attrs st elem = Ok st' →
  nodeName elem ≠ "chord" →
  NoteObj.chord (noteObj st') = NoteObj.chord (noteObj st).
Proof.
  unfold parseNoteChild. cbv zeta.
  repeat match goal with
  | |- context [String.eqb ?a ?b] => destruct (String.eqb_spec a b)
  end;
  intros H Hname;
  try (by apply parseNotations_chord in H);
  unfold parsePitch, parseType, parseDot, parseDuration, parseTimeModification, parseRest,
    parseVoice, parseStaff, parseStem, parseBeam, Assert, firstText, defined, bind in H;
  repeat case_match; simplify_eq; simpl; done.
Qed.

Lemma finishNote_chord (attrs : Attributes) (st : Decoding) :
  NoteObj.chord (finishNote attrs st) = NoteObj.chord (noteObj st).
Proof. unfold finishNote. cbv zeta. repeat case_match; reflexivity. Qed.

(** A decoded note is a chord note only when the note element has a
    [<chord>] child. *)
Lemma parseNote_chord (attrs : Attributes) (noteElem : Node) (decoded : NoteObj.t) :
  parseNote RESOLUTION noteElem attrs = Ok decoded →
  NoteObj.chord decoded = true →
  ∃ elem, elem ∈ childNodes noteElem ∧ nodeName elem = "chord".
Proof.
  unfold parseNote. intros H.
  destruct (forEach _ _ _) as [st |] eqn:Hloop; simpl in H; [| done]. simplify_eq.
  rewrite finishNote_chord. revert Hloop.
  assert (Hinit : NoteObj.chord (noteObj (mkDecoding NoteObj.init VNull VNull)) = false)
    by done.
  revert Hinit. generalize (mkDecoding NoteObj.init VNull VNull) (childNodes noteElem).
  intros st0 l. revert st0. induction l as [| c l IH]; intros st0 Hinit Hloop Hchord;
    simpl in Hloop.
  { simplify_eq. congruence. }
  destruct (parseNoteChild RESOLUTION attrs st0 c) as [st1 |] eqn:Hc; simpl in Hloop;
    [| done].
  destruct (decide (nodeName c = "chord")) as [Hname | Hname].
  { exists c. split; [by left | done]. }
  apply parseNoteChild_chord in Hc; [| done].
  destruct (IH st1 ltac:(congruence) Hloop Hchord) as (elem & Hin & Helem).
  exists elem. split; [by right | done].
Qed.

Lemma placeNote_fields (part part' : Measure.Part) (decoded : NoteObj.t) :
  placeNote part decoded = Ok part' →
  Measure.numberOfStaves part' = Measure.numberOfStaves part ∧
  Measure.part_clef part' = Measure.part_clef part ∧
  Measure.staveClefs part' = Measure.staveClefs part.
Proof.
  unfold placeNote, defined, bind. intros H.
  repeat case_match; simplify_eq; done.
Qed.

(** Only a chord note makes [placeNote] throw. *)
Lemma placeNote_errors (part : Measure.Part) (decoded : NoteObj.t) (e : error) :
  placeNote part decoded = Err e → NoteObj.chord decoded = true ∧ chordError e.
Proof.
  unfold placeNote, defined, bind, chordError. intros H.
  repeat case_match; simplify_eq; (split; [done |]);
    rewrite !elem_of_cons; auto.
Qed.

Lemma compactVoices_fields (part : Measure.Part) :
  Measure.numberOfStaves (compactVoices part) = Measure.numberOfStaves part ∧
  Measure.part_clef (compactVoices part) = Measure.part_clef part ∧
  Measure.staveClefs (compactVoices part) = Measure.staveClefs part.
Proof.
  unfold compactVoices.
  generalize (seqZ 0 (Measure.getNumberOfVoices part)). intros l.
  assert (H : ∀ newPart v,
            let r := (foldl
                 (fun '(newPart, v) i =>
                    if (0 <? length (Measure.notes (Measure.getVoice part i)))%nat
                    then (Measure.setVoice newPart v (Measure.getVoice part i), v + 1)
                    else (newPart, v))
                 (newPart, v) l).1 in
            Measure.numberOfStaves r = Measure.numberOfStaves newPart ∧
            Measure.part_clef r = Measure.part_clef newPart ∧
            Measure.staveClefs r = Measure.staveClefs newPart).
  { induction l as [| i l IH]; intros newPart v; [done |].
    simpl. destruct (0 <? length (Measure.notes (Measure.getVoice part i)))%nat;
      destruct (IH (Measure.setVoice newPart v (Measure.getVoice part i)) (v + 1))
        as (? & ? & ?);
      destruct (IH newPart v) as (? & ? & ?); done. }
  specialize (H part 0). destruct (foldl _ _ _) as [newPart v]. exact H.
Qed.

Lemma setStave_fields (a : JSArray.t (option Clef)) (l : list nat) (part : Measure.Part) :
  let part' := foldl (λ part s, Measure.setStave part s (mjoin (JSArray.get a s))) part l in
  Measure.numberOfStaves part' = Measure.numberOfStaves part ∧
  Measure.part_clef part' = Measure.part_clef part ∧
  ∀ s, JSArray.get (Measure.staveClefs part') s
       = if decide (s ∈ l) then Some (mjoin (JSArray.get a s))
         else JSArray.get (Measure.staveClefs part) s.
Proof.
  revert part. induction l as [| x l IH]; intros part; simpl.
  { split; [done |]. split; [done |]. intros s.
    destruct (decide (s ∈ [])) as [Hin | _]; [by apply elem_of_nil in Hin | done]. }
  destruct (IH (Measure.setStave part x (mjoin (JSArray.get a x)))) as (Hn & Hc & Hs).
  split; [done |]. split; [done |]. intros s. rewrite Hs. cbn [Measure.staveClefs Measure.setStave].
  rewrite get_set. destruct (decide (s ∈ l)) as [Hin | Hout].
  - rewrite decide_True; [done | by right].
  - destruct (decide (x = s)) as [-> | Hne].
    + rewrite decide_True; [done | by left].
    + rewrite decide_False; [done |]. intros [-> | Hin]%elem_of_cons; done.
Qed.

(** The part of measure [m] made for part [p]: its stave count is the
    stored one, its clef option the clef in force when that is one
    clef, and with a clef per staff each staff below the stave count has
    the clef of its slot. *)
Lemma getMeasurePart_fields (this : MusicXML) (time : TimeSig) (row : JSArray.t Node)
    (m p : nat) (part : Measure.Part) :
  getMeasurePart RESOLUTION this time row m p = Ok part →
  Measure.numberOfStaves part = JSArray.get (numStaves this) p ∧
  Measure.part_clef part = scalarClef (getAttributes this m p) ∧
  ∀ a n s, clef (getAttributes this m p) = Some (ClefPerStaff a) →
           JSArray.get (numStaves this) p = Some (Int n) →
           (0 ≤ Z.of_nat s < n) →
           JSArray.get (Measure.staveClefs part) s = Some (mjoin (JSArray.get a s)).
Proof.
  unfold getMeasurePart, scalarClef. cbv zeta. intros H.
  destruct (defined _ _) as [node |]; simpl in H; [| done].
  destruct (forEach _ _ _) as [placed |] eqn:Hloop; simpl in H; [| done].
  simplify_eq. destruct (compactVoices_fields placed) as (-> & -> & ->).
  apply (forEach_invariant (λ part,
    Measure.numberOfStaves part = JSArray.get (numStaves this) p ∧
    Measure.part_clef part = scalarClef (getAttributes this m p) ∧
    ∀ a n s, clef (getAttributes this m p) = Some (ClefPerStaff a) →
             JSArray.get (numStaves this) p = Some (Int n) →
             (0 ≤ Z.of_nat s < n) →
             JSArray.get (Measure.staveClefs part) s = Some (mjoin (JSArray.get a s))))
    in Hloop; [done | |].
  - intros part x part' Hstep Hpart. revert Hstep. unfold bind.
    destruct (parseNote RESOLUTION x _); [| discriminate].
    intros (-> & -> & ->)%placeNote_fields. done.
  - unfold scalarClef.
    destruct (clef (getAttributes this m p)) as [[c | a] |] eqn:Hclef;
      [by destruct c | | done].
    destruct (JSArray.get (numStaves this) p) as [[| n] |] eqn:Hn; [done | | done].
    destruct (setStave_fields a (seq 0 (Z.to_nat n))
      (Measure.setNumberOfStaves (Measure.newPart time None) (Some (Int n))))
      as (Hstaves & Hpc & Hs).
    split; [done |]. split; [done |]. intros a' n' s [= <-] [= <-] Hrange.
    rewrite Hs, decide_True; [done |]. apply elem_of_seq. lia.
Qed.

(** X15.  The parts of a measure.  After a parse that leaves a new
    backend valid, a measure [m] that [getMeasure] returns is below the
    number of measures; it has one part for each part of the document
    with more than [m] measures, in order; each has the stave count its
    part declares (1 when it declares none), the clef in force as its
    clef option when that is one clef, and, when the clefs in force are an
    array, the clef of the slot of each staff below the stave count. *)
Theorem getMeasure_parts (window : Window) (documentElement : Node) (this : MusicXML) (m : nat)
    (measure : Measure.t) :
  parse window newMusicXML (DataDocument documentElement) = Ok this →
  isValid this = Some true →
  getMeasure RESOLUTION this m = Ok measure →
  (m < getNumberOfMeasures this)%nat ∧
  length (Measure.parts measure) = partsWith (measureCounts documentElement) m ∧
  ∀ p part,
    Measure.parts measure !! p = Some part →
    ∃ partNode,
      partNodes documentElement !! p = Some partNode ∧
      (m < measureCount partNode)%nat ∧
      Measure.numberOfStaves part = Some (default (Int 1) (declaredStaves partNode)) ∧
      Measure.part_clef part = scalarClef (getAttributes this m p) ∧
      ∀ a n s,
        clef (getAttributes this m p) = Some (ClefPerStaff a) →
        default (Int 1) (declaredStaves partNode) = Int n →
        0 ≤ Z.of_nat s < n →
        JSArray.get (Measure.staveClefs part) s = Some (mjoin (JSArray.get a s)).
Proof.
  intros Hparse Hvalid H.
  destruct (rowsOf_done _ _ (parse_rows _ _ _ Hparse Hvalid)) as (Hmono & Hlen & Hhas & Hrow).
  pose proof (parse_stave_counts _ _ _ Hparse Hvalid) as Hstaves.
  unfold getMeasure in H. cbv zeta in H. unfold getNumberOfMeasures, measureCounts.
  destruct (JSArray.get (measures this) m) as [row |] eqn:Hm; simpl in H; [| done].
  destruct (Hrow m row Hm) as [Hl _].
  pose proof (forEach_collect
    (getMeasurePart RESOLUTION this (mkTime (Int 4) (Int 4)) row m)
    (seq 0 (JSArray.length row)) []) as Hloop.
  destruct (forEach _ _ _) as [parts |]; simpl in H; [| done]. simplify_eq.
  destruct Hloop as (new & -> & Hnew). simpl.
  split; [rewrite Hlen; apply Hhas; eauto |].
  split; [apply Forall2_length in Hnew; rewrite length_seq in Hnew; lia |].
  intros p part Hp.
  destruct (Forall2_lookup_r _ _ _ _ _ Hnew Hp) as (x & Hx & Hpart).
  apply lookup_seq in Hx as [-> Hlt]. simpl in Hpart.
  rewrite Hl in Hlt. destruct (partsWith_lookup _ _ _ Hmono Hlt) as (c & Hc & Hmc).
  rewrite list_lookup_fmap in Hc.
  destruct (partNodes documentElement !! p) as [partNode |] eqn:Hnode; [| done].
  simpl in Hc. simplify_eq. exists partNode. split; [done |]. split; [done |].
  apply getMeasurePart_fields in Hpart as (-> & -> & Hclefs).
  rewrite Hstaves, Hnode. split; [done |]. split; [done |].
  intros a n s Hclef Hn Hs. apply (Hclefs a n s Hclef); [| done].
  rewrite Hstaves, Hnode. simpl. by rewrite Hn.
Qed.

(** X16.  What [getMeasure] throws after a parse that leaves a new
    backend valid: for a measure number that is not below the number of
    measures, the TypeError of reading a missing row; for any other, an
    error of one note of that measure of some part: an error of
    [parseNote] on a child of the note, or, for a note with a [<chord>]
    child, the TypeError of a chord note with no note before it in its
    voice or without a key. *)
Theorem getMeasure_errors (window : Window) (documentElement : Node) (this : MusicXML) (m : nat)
    (e : error) :
  parse window newMusicXML (DataDocument documentElement) = Ok this →
  isValid this = Some true →
  getMeasure RESOLUTION this m = Err e →
  ((getNumberOfMeasures this ≤ m)%nat ∧ e = TypeError "measures[m]") ∨
  ((m < getNumberOfMeasures this)%nat ∧
   ∃ p measureNode noteElem,
     nthMeasure (partNodes documentElement) m p = Some measureNode ∧
     noteElem ∈ getElementsByTagName measureNode "note" ∧
     ((∃ elem, elem ∈ childNodes noteElem ∧ childError elem e) ∨
      (chordError e ∧ ∃ elem, elem ∈ childNodes noteElem ∧ nodeName elem = "chord"))).
Proof.
  intros Hparse Hvalid H.
  destruct (rowsOf_done _ _ (parse_rows _ _ _ Hparse Hvalid)) as (Hmono & Hlen & Hhas & Hrow).
  unfold getMeasure in H. cbv zeta in H. unfold getNumberOfMeasures.
  destruct (JSArray.get (measures this) m) as [row |] eqn:Hm; simpl in H.
  2:{ left. simplify_eq. split; [| done]. rewrite Hlen.
      destruct (decide (m < hd 0%nat (measureCount <$> partNodes documentElement))%nat)
        as [Hlt | Hge]; [| lia].
      apply Hhas in Hlt as [row Hrow']. congruence. }
  right. split; [rewrite Hlen; apply Hhas; eauto |].
  destruct (Hrow m row Hm) as [Hl Hq].
  pose proof (forEach_collect
    (getMeasurePart RESOLUTION this (mkTime (Int 4) (Int 4)) row m)
    (seq 0 (JSArray.length row)) []) as Hloop.
  destruct (forEach _ _ _) as [parts | e']; simpl in H; [done |]. simplify_eq.
  destruct Hloop as (p & Hp & Hpart). apply elem_of_seq in Hp. rewrite Hl in Hp.
  assert (Hlt : (p < partsWith (measureCount <$> partNodes documentElement) m)%nat) by lia.
  destruct (partsWith_lookup _ _ _ Hmono Hlt) as (c & Hc & Hmc).
  rewrite list_lookup_fmap in Hc.
  destruct (partNodes documentElement !! p) as [partNode |] eqn:Hnode; [| done].
  simpl in Hc. simplify_eq.
  destruct (lookup_lt_is_Some_2 (childrenNamed "measure" partNode) m Hmc)
    as [measureNode Hnth].
  assert (Hcell : JSArray.get row p = Some measureNode).
  { rewrite Hq. unfold nthMeasure. rewrite Hnode. done. }
  exists p, measureNode. unfold getMeasurePart in Hpart. cbv zeta in Hpart.
  rewrite Hcell in Hpart. simpl in Hpart.
  destruct (forEach _ (getElementsByTagName measureNode "note") _) as [placed | e'] eqn:Hnotes;
    simpl in Hpart; [done |]. simplify_eq.
  apply forEach_error in Hnotes as (part0 & noteElem & Hin & Hnote).
  exists noteElem. split; [unfold nthMeasure; by rewrite Hnode |]. split; [done |].
  unfold bind in Hnote.
  destruct (parseNote RESOLUTION noteElem (getAttributes this m p)) as [decoded | e'] eqn:Hdec.
  - right. apply placeNote_errors in Hnote as [Hchord He]. split; [done |].
    by eapply parseNote_chord.
  - left. simplify_eq. by eapply parseNote_error_child.
Qed.

End Shape.

(** ** The attributes in force after parse *)

Lemma storedField_attributes {A : Type} (f : Attributes → option A)
    (this this' : MusicXML) (i q : nat) :
  attributes this' = attributes this → storedField f this' i q = storedField f this i q.
Proof. intros H. unfold storedField, snapshot. by rewrite H. Qed.

Lemma omap_lookup_take {A B : Type} (g : A → option B) (l : list A) (n : nat) :
  omap (λ i, l !! i ≫= g) (seq 0 n) = omap g (take n l).
Proof.
  induction n as [| n IH]; [done |].
  rewrite seq_S, omap_app, IH. simpl.
  destruct (l !! n) as [x |] eqn:Hx; simpl.
  - rewrite (take_S_r l n x Hx), omap_app. done.
  - rewrite app_nil_r. apply lookup_ge_None in Hx. by rewrite !take_ge by lia.
Qed.

Section InForce.

Context {A : Type} (f : Attributes → option A) (name : string) (valueOf : Node → option A).

Hypothesis f_Merge :
  ∀ destination source,
    f (Merge destination source)
    = match f source with Some v => Some v | None => f destination end.

Hypothesis f_noAttributes : f noAttributes = None.

Hypothesis f_child :
  ∀ m p attr this this' attrObject,
    parseAttribute m p attr this = Ok (this', attrObject) →
    storedField f this' m p
    = if decide (nodeName attr = name) then valueOf attr else storedField f this m p.

Hypothesis valueOf_parsed :
  ∀ m p attr this this' attrObject,
    parseAttribute m p attr this = Ok (this', attrObject) →
    nodeName attr = name → is_Some (valueOf attr).

Lemma parseMeasures_stored (done current children : list Node) (j : nat) (this : MusicXML) :
  storedAs f name valueOf this done current →
  match parseMeasures (length done) children j (length current) this with
  | Ok (Next this') =>
      storedAs f name valueOf this' done (current ++ filter (λ c, nodeName c = "measure") children)
  | _ => True
  end.
Proof.
  unfold storedAs. revert current j this.
  induction children as [| measure children IH]; intros current j this Hstored.
  { simpl. by rewrite filter_nil, app_nil_r. }
  simpl parseMeasures. rewrite filter_cons.
  destruct (String.eqb_spec (nodeName measure) "measure") as [Hname | Hname]; cbn [negb].
  2:{ rewrite decide_False by done. by apply IH. }
  rewrite decide_True by done.
  set (this1 := if negb (JSArray.has (measures this) j) then _ else this).
  assert (H1 : attributes this1 = attributes this).
  { unfold this1. by destruct (negb (JSArray.has (measures this) j)). }
  clearbody this1.
  destruct (JSArray.get (measures this1) (length current)) as [row |]; cbn [defined bind];
    [| done].
  destruct (negb (JSArray.length row =? length done)%nat); [done |].
  set (this2 := set_measures _ this1).
  assert (H2 : attributes this2 = attributes this) by done. clearbody this2.
  assert (Hnext : ∀ this3,
    (∀ i q, storedField f this3 i q
            = if decide (i = length current ∧ q = length done)
              then measureDeclares name valueOf measure
              else storedField f this i q) →
    match parseMeasures (length done) children (S j) (S (length current)) this3 with
    | Ok (Next this') =>
        storedAs f name valueOf this' done (current ++ measure :: filter (λ c, nodeName c = "measure") children)
    | _ => True
    end).
  { intros this3 H3.
    specialize (IH (current ++ [measure]) (S j) this3).
    rewrite length_app in IH. simpl length in IH. rewrite Nat.add_1_r in IH.
    rewrite <- app_assoc in IH. apply IH. intros i q. rewrite H3, Hstored.
    destruct (decide (q = length done)) as [-> | Hq].
    - destruct (decide (i = length current)) as [-> | Hi].
      + rewrite decide_True by done. by rewrite list_lookup_middle.
      + rewrite decide_False by (intros [? _]; done).
        destruct (decide (i < length current)%nat).
        * by rewrite lookup_app_l by lia.
        * rewrite !(proj2 (lookup_ge_None _ _)); [done | |]; rewrite ?length_app; simpl; lia.
    - by rewrite decide_False by (intros [_ ?]; done). }
  unfold measureDeclares in Hnext.
  destruct (head (getElementsByTagName measure "attributes")) as [attributes |].
  - destruct (parseAttributes (length current) (length done) attributes this2)
      as [[this3 object3] |] eqn:Hattrs; cbn [bind fst]; [| done].
    apply Hnext. intros i q.
    destruct (decide (i = length current ∧ q = length done)) as [[-> ->] | Hother].
    + destruct (parseAttributes_storedField f name valueOf f_child valueOf_parsed
                  _ _ _ _ _ _ Hattrs) as [-> _].
      simpl. destruct (declared name valueOf attributes); [done |].
      rewrite (storedField_attributes f this this2) by done.
      rewrite Hstored, decide_True by done.
      by rewrite (proj2 (lookup_ge_None _ _)) by lia.
    + apply parseAttributes_cells in Hattrs as (Hcell & _).
      unfold storedField. rewrite Hcell by done.
      by apply (storedField_attributes f).
  - cbn [bind]. apply Hnext. intros i q.
    rewrite (storedField_attributes f this this2) by done.
    destruct (decide (i = length current ∧ q = length done)) as [[-> ->] | Hother]; [| done].
    rewrite Hstored, decide_True by done.
    by rewrite (proj2 (lookup_ge_None _ _)) by lia.
Qed.

Lemma parseParts_stored (nodes done : list Node) (this : MusicXML) :
  storedAs f name valueOf this done [] →
  match parseParts nodes (length done) this with
  | Ok (Next this') => storedAs f name valueOf this' (done ++ filter (λ n, nodeName n = "part") nodes) []
  | _ => True
  end.
Proof.
  pose proof parseMeasures_stored as Hmeasures.
  unfold storedAs in *. revert done this.
  induction nodes as [| node nodes IH]; intros done this Hstored.
  { simpl. by rewrite filter_nil, app_nil_r. }
  simpl parseParts. rewrite filter_cons.
  destruct (String.eqb_spec (nodeName node) "part") as [Hname | Hname].
  2:{ rewrite decide_False by done. by apply IH. }
  rewrite decide_True by done.
  pose proof (Hmeasures done [] (childNodes node) 0%nat this Hstored) as Hpart.
  simpl length in Hpart.
  destruct (parseMeasures (length done) (childNodes node) 0 0 this) as [[this1 | this1] |];
    cbn [bind]; [| done | done].
  simpl app in Hpart.
  set (this2 := if negb (JSArray.has (numStaves this1) (length done)) then _ else this1).
  assert (H2 : attributes this2 = attributes this1).
  { unfold this2. by destruct (negb (JSArray.has (numStaves this1) (length done))). }
  clearbody this2.
  specialize (IH (done ++ [node]) this2).
  rewrite length_app in IH. simpl length in IH. rewrite Nat.add_1_r in IH.
  rewrite <- app_assoc in IH. apply IH. intros i q.
  rewrite (storedField_attributes f this1 this2) by done. rewrite Hpart.
  rewrite nthMeasure_snoc, ?length_app. simpl length. rewrite ?Nat.add_1_r.
  destruct (decide (q = length done)) as [-> | Hq].
  - by rewrite decide_False by lia.
  - destruct (decide (q = S (length done))) as [-> | Hq']; [| done].
    rewrite lookup_nil. unfold nthMeasure.
    by rewrite (proj2 (lookup_ge_None _ _)) by lia.
Qed.

Lemma parse_stored (window : Window) (documentElement : Node) (this : MusicXML) (i p : nat) :
  parse window newMusicXML (DataDocument documentElement) = Ok this →
  isValid this = Some true →
  storedField f this i p
  = nthMeasure (partNodes documentElement) i p ≫= measureDeclares name valueOf.
Proof.
  rewrite parse_document. unfold isValid, partNodes, childrenNamed. intros H Hvalid.
  destruct (negb (String.eqb (nodeName documentElement) "score-partwise")); [done |].
  pose proof (parseParts_stored (childNodes documentElement) [] newMusicXML) as Hstored.
  unfold storedAs in Hstored.
  pose proof (parseParts_return (childNodes documentElement) 0 newMusicXML) as Hreturn.
  simpl length in Hstored. simpl app in Hstored.
  destruct (parseParts (childNodes documentElement) 0 newMusicXML) as [[this1 | this1] |];
    cbn [bind] in H; simplify_eq.
  2:{ specialize (Hreturn _ eq_refl). congruence. }
  rewrite (storedField_attributes f this1 (set_valid true this1)) by done.
  rewrite Hstored.
  - destruct (decide (p = length (filter (λ n, nodeName n = "part")
                                   (childNodes documentElement)))) as [-> | Hp]; [| done].
    rewrite lookup_nil. unfold nthMeasure.
    by rewrite (proj2 (lookup_ge_None _ _)) by lia.
  - intros i' q. unfold storedField, snapshot, nthMeasure. simpl.
    unfold JSArray.get. simpl. rewrite lookup_empty. by destruct (decide (q = 0%nat)).
Qed.

(** The key [f] of the effective attributes is the last stored value
    of the measures 0..m. *)
Lemma getAttributes_last (this : MusicXML) (m p : nat) :
  f (getAttributes this m p) = last (omap (λ i, storedField f this i p) (seq 0 (S m))).
Proof.
  induction m as [| m IH].
  - rewrite (getAttributes_storedField f f_Merge f_noAttributes). simpl.
    by destruct (storedField f this 0 p).
  - rewrite (getAttributes_storedField f f_Merge f_noAttributes), IH.
    rewrite (seq_S (S m)), omap_app. simpl.
    destruct (storedField f this (S m) p) as [v |]; simpl.
    + by rewrite last_snoc.
    + by rewrite app_nil_r.
Qed.

Lemma parse_inForce (window : Window)
    (documentElement : Node) (this : MusicXML) (m p : nat) (part : Node) :
  parse window newMusicXML (DataDocument documentElement) = Ok this →
  isValid this = Some true →
  partNodes documentElement !! p = Some part →
  f (getAttributes this m p) = inForce name valueOf part m.
Proof.
  intros H Hvalid Hpart. rewrite getAttributes_last. unfold inForce.
  rewrite <- omap_lookup_take. f_equal. apply list_omap_ext, Forall2_same_length_lookup_2; [done |].
  intros i x y Hx Hy. rewrite Hx in Hy. injection Hy as <-.
  rewrite (parse_stored window documentElement) by done.
  unfold nthMeasure. by rewrite Hpart.
Qed.

End InForce.


(** X17.  The attributes in force.  After a parse that leaves a new
    backend valid, the divisions, the key and the time [getAttributes]
    gives for the measure [m] of a part are the last ones the measures
    0..m of the part declare, where a measure declares what the last such
    child of its first [<attributes>] element says: a later
    [<attributes>] element of a measure is not read. *)
Theorem parse_declarations (window : Window) (documentElement : Node) (this : MusicXML) (m p : nat)
    (part : Node) :
  parse window newMusicXML (DataDocument documentElement) = Ok this →
  isValid this = Some true →
  partNodes documentElement !! p = Some part →
  divisions (getAttributes this m p) = inForce "divisions" divisionsOf part m ∧
  key (getAttributes this m p) = inForce "key" keyOf part m ∧
  time (getAttributes this m p) = inForce "time" timeOf part m.
Proof.
  intros H Hvalid Hpart. split; [| split].
  - apply (parse_inForce divisions "divisions" divisionsOf (λ _ _, eq_refl) eq_refl
             divisions_child (λ _ _ _ _ _ _ _ _, mk_is_Some _ _ eq_refl)
             window documentElement);
      done.
  - apply (parse_inForce key "key" keyOf (λ _ _, eq_refl) eq_refl key_child key_parsed
             window documentElement); done.
  - apply (parse_inForce time "time" timeOf (λ _ _, eq_refl) eq_refl time_child time_parsed
             window documentElement); done.
Qed.

(** ** The fields of a decoded note *)

Lemma parseNotation_shape (st st' : Decoding) (notationElem : Node) :
  parseNotation st notationElem = Ok st' →
  noteObj st' = noteObj st ∨ ∃ t, noteObj st' = NoteObj.set_tie t (noteObj st).
Proof.
  unfold parseNotation, defined, bind. intros H.
  repeat case_match; simplify_eq; simpl; eauto.
Qed.

Lemma parseNotations_shape (st st' : Decoding) (elem : Node) :
  parseNotations st elem = Ok st' →
  noteObj st' = noteObj st ∨ ∃ t, noteObj st' = NoteObj.set_tie t (noteObj st).
Proof.
  unfold parseNotations. generalize (childNodes elem). intros l. revert st.
  induction l as [| e l IH]; intros st H; simpl in H; [simplify_eq; by left |].
  destruct (parseNotation st e) as [st1 |] eqn:He; simpl in H; [| done].
  apply parseNotation_shape in He. apply IH in H.
  destruct H as [-> | [t ->]]; [done |]. right. exists t.
  destruct He as [-> | [t' ->]]; done.
Qed.

Section NoteFields.

Variable RESOLUTION : Z.

Section NoteField.

Context {A : Type} (F : NoteObj.t → option A) (name : string) (valueOf : Node → option A).

Hypothesis F_child :
  ∀ attrs st elem st',
    parseNoteChild RESOLUTION attrs st elem = Ok st' →
    F (noteObj st')
    = match (if decide (nodeName elem = name) then valueOf elem else None) with
      | Some v => Some v
      | None => F (noteObj st)
      end.

Hypothesis F_finish : ∀ attrs st, F (finishNote attrs st) = F (noteObj st).

Hypothesis F_init : F NoteObj.init = None.

Lemma parseNote_field (attrs : Attributes) (noteElem : Node) (decoded : NoteObj.t) :
  parseNote RESOLUTION noteElem attrs = Ok decoded →
  F decoded = lastWritten name valueOf noteElem.
Proof.
  unfold parseNote, lastWritten, childrenNamed. intros H.
  destruct (forEach _ _ _) as [st |] eqn:Hloop; simpl in H; [| done]. simplify_eq.
  rewrite F_finish.
  assert (Hgen : ∀ l st0,
    forEach (parseNoteChild RESOLUTION attrs) l st0 = Ok st →
    F (noteObj st)
    = match last (omap valueOf (filter (λ c, nodeName c = name) l)) with
      | Some v => Some v
      | None => F (noteObj st0)
      end).
  { clear Hloop. induction l as [| c l IH]; intros st0 Hl; simpl in Hl; [by simplify_eq |].
    destruct (parseNoteChild RESOLUTION attrs st0 c) as [st1 |] eqn:Hc; simpl in Hl; [| done].
    rewrite (IH st1 Hl), (F_child _ _ _ _ Hc), filter_cons.
    destruct (decide (nodeName c = name)); [| done].
    rewrite last_omap_cons.
    by destruct (last (omap valueOf (filter (λ c, nodeName c = name) l))). }
  rewrite (Hgen _ _ Hloop). simpl. rewrite F_init.
  by destruct (last _).
Qed.

End NoteField.

Lemma note_children (attrs : Attributes) (st : Decoding) (elem : Node) (st' : Decoding) :
  parseNoteChild RESOLUTION attrs st elem = Ok st' →
  NoteObj.voice (noteObj st')
  = match (if decide (nodeName elem = "voice") then voiceOfChild elem else None) with
    | Some v => Some v
    | None => NoteObj.voice (noteObj st)
    end ∧
  NoteObj.stave (noteObj st')
  = match (if decide (nodeName elem = "staff") then staveOfChild elem else None) with
    | Some v => Some v
    | None => NoteObj.stave (noteObj st)
    end ∧
  NoteObj.stem_direction (noteObj st')
  = match (if decide (nodeName elem = "stem") then stemOfChild elem else None) with
    | Some v => Some v
    | None => NoteObj.stem_direction (noteObj st)
    end ∧
  NoteObj.beam (noteObj st')
  = match (if decide (nodeName elem = "beam") then beamOfChild elem else None) with
    | Some v => Some v
    | None => NoteObj.beam (noteObj st)
    end.
Proof.
  unfold parseNoteChild. cbv zeta.
  repeat match goal with
  | |- context [String.eqb ?a ?b] => destruct (String.eqb_spec a b) as [Hname | ?]
  end;
  intros H;
  try rewrite Hname;
  repeat match goal with
  | |- context [decide (?a = ?b)] =>
      first [ rewrite (decide_True (P := a = b)) by congruence
            | rewrite (decide_False (P := a = b)) by congruence ]
  end;
  try (apply parseNotations_shape in H as [-> | [? ->]]; done);
  unfold parsePitch, parseType, parseDot, parseDuration, parseTimeModification, parseRest,
    parseVoice, parseStaff, parseStem, parseBeam, Assert, firstText, defined, bind,
    voiceOfChild, staveOfChild, stemOfChild, beamOfChild in *;
  repeat case_match; simplify_eq; done.
Qed.

Lemma finishNote_fields (attrs : Attributes) (st : Decoding) :
  NoteObj.voice (finishNote attrs st) = NoteObj.voice (noteObj st) ∧
  NoteObj.stave (finishNote attrs st) = NoteObj.stave (noteObj st) ∧
  NoteObj.stem_direction (finishNote attrs st) = NoteObj.stem_direction (noteObj st) ∧
  NoteObj.beam (finishNote attrs st) = NoteObj.beam (noteObj st).
Proof. unfold finishNote. cbv zeta. repeat case_match; done. Qed.

Lemma forEach_chord (attrs : Attributes) (l : list Node) (st st' : Decoding) :
  forEach (parseNoteChild RESOLUTION attrs) l st = Ok st' →
  NoteObj.chord (noteObj st')
  = NoteObj.chord (noteObj st) || bool_decide (filter (λ c, nodeName c = "chord") l ≠ []).
Proof.
  revert st. induction l as [| c l IH]; intros st H; simpl in H.
  { simplify_eq. rewrite filter_nil, bool_decide_eq_false_2 by auto. by rewrite orb_false_r. }
  destruct (parseNoteChild RESOLUTION attrs st c) as [st1 |] eqn:Hc; simpl in H; [| done].
  rewrite (IH st1 H), filter_cons.
  destruct (decide (nodeName c = "chord")) as [Hname | Hname].
  - revert Hc. unfold parseNoteChild. rewrite Hname. closed_names. intros [= <-].
    rewrite (bool_decide_eq_true_2 (c :: _ ≠ [])) by done. by rewrite !orb_true_r.
  - by rewrite (parseNoteChild_chord RESOLUTION attrs st st1 c Hc Hname).
Qed.

(** X18.  The voice, the staff, the stem and the beam of a decoded note
    are those of its last [<voice>] child that reads as a number, of its
    last [<staff>] child that reads as a positive number (less 1), of its
    last [<stem>] child that says up (1) or down (-1), and the text of its
    last [<beam>] child; the note is a chord note exactly when it has a
    [<chord>] child. *)
Theorem parseNote_fields (attrs : Attributes) (noteElem : Node) (decoded : NoteObj.t) :
  parseNote RESOLUTION noteElem attrs = Ok decoded →
  NoteObj.voice decoded = lastWritten "voice" voiceOfChild noteElem ∧
  NoteObj.stave decoded = lastWritten "staff" staveOfChild noteElem ∧
  NoteObj.stem_direction decoded = lastWritten "stem" stemOfChild noteElem ∧
  NoteObj.beam decoded = last (textContent <$> childrenNamed "beam" noteElem) ∧
  NoteObj.chord decoded = bool_decide (childrenNamed "chord" noteElem ≠ []).
Proof.
  intros H. split; [| split; [| split; [| split]]].
  - apply (parseNote_field NoteObj.voice "voice" voiceOfChild
             (λ a st e st' Hc, proj1 (note_children a st e st' Hc))
             (λ attrs st, proj1 (finishNote_fields attrs st)) eq_refl attrs). done.
  - apply (parseNote_field NoteObj.stave "staff" staveOfChild
             (λ a st e st' Hc, proj1 (proj2 (note_children a st e st' Hc)))
             (λ attrs st, proj1 (proj2 (finishNote_fields attrs st))) eq_refl attrs). done.
  - apply (parseNote_field NoteObj.stem_direction "stem" stemOfChild
             (λ a st e st' Hc, proj1 (proj2 (proj2 (note_children a st e st' Hc))))
             (λ attrs st, proj1 (proj2 (proj2 (finishNote_fields attrs st)))) eq_refl attrs).
    done.
  - rewrite (parseNote_field NoteObj.beam "beam" beamOfChild
               (λ a st e st' Hc, proj2 (proj2 (proj2 (note_children a st e st' Hc))))
               (λ attrs st, proj2 (proj2 (proj2 (finishNote_fields attrs st)))) eq_refl
               attrs noteElem decoded H).
    unfold lastWritten, beamOfChild. generalize (childrenNamed "beam" noteElem).
    intros l. apply (f_equal last). induction l as [| c l IH]; [done |]. simpl. by f_equal.
  - revert H. unfold parseNote, childrenNamed.
    destruct (forEach _ _ _) as [st |] eqn:Hloop; simpl; [| done]. intros [= <-].
    rewrite finishNote_chord. by rewrite (forEach_chord _ _ _ _ Hloop).
Qed.

End NoteFields.

(** ** A clef child *)

Lemma newArray_holes {A : Type} (n : option number) (a : JSArray.t A) (s : nat) :
  newArray n = Ok a → JSArray.get a s = None.
Proof.
  unfold newArray. intros H. repeat case_match; simplify_eq;
    unfold JSArray.get, JSArray.holes; simpl; apply lookup_empty.
Qed.

(** X19.  A clef child.  After [parseAttributes] has read a [<clef>]
    child for the measure [m] and the part [p], the clef [getAttributes]
    gives for [m] and [p] is, for a child without a positive [number],
    the clef the child names; for a child with the positive number [n],
    an array whose slot [n - 1] has the clef the child names and whose
    other slots are those of the clef array the snapshot of [m] and [p]
    had, and empty when it had none: the clefs of the other staves that
    were in force from an earlier measure are not kept. *)
Theorem parseAttribute_clef (m p : nat) (attr : Node) (this this' : MusicXML)
    (attrObject : AttrObject) :
  nodeName attr = "clef" →
  parseAttribute m p attr this = Ok (this', attrObject) →
  match clefNumber attr with
  | None => clef (getAttributes this' m p) = Some (ClefScalar (clefOf attr))
  | Some n =>
      ∃ a,
        clef (getAttributes this' m p) = Some (ClefPerStaff a) ∧
        JSArray.get a (Z.to_nat (n - 1)) = Some (clefOf attr) ∧
        ∀ s, s ≠ Z.to_nat (n - 1) → JSArray.get a s = storedClefSlot this m p s
  end.
Proof.
  intros Hname. unfold parseAttribute. cbv zeta. rewrite Hname. closed_names.
  unfold clefOf, clefNumber, storedClefSlot, storedField.
  destruct (firstText attr "sign") as [sign |]; cbn [bind]; [| done].
  destruct (firstText attr "line") as [l |]; cbn [bind]; [| done].
  set (named := if String.eqb sign "G" && num_eq (parseInt l) 2 then Some treble
                else if String.eqb sign "F" && num_eq (parseInt l) 4 then Some bass
                else None).
  assert (Hstored : ∀ stored,
    clef (getAttributes
            (storeAttribute m p
               (λ o, mkAttributes (staves o) (key o) (time o) (Some stored) (divisions o))
               this) m p)
    = Some stored).
  { intros stored.
    rewrite (getAttributes_storedField clef (λ _ _, eq_refl) eq_refl).
    by rewrite storedField_storeAttribute. }
  destruct (parseInt (default "null" (getAttribute attr "number"))) as [| n]; cbn [num_gt].
  { intros [= <- <-]. apply Hstored. }
  destruct (0 <? n) eqn:Hn; [| intros [= <- <-]; apply Hstored].
  cbn [num_sub].
  destruct (snapshot this m p ≫= clef) as [[c | old] |] eqn:Hold; cbn [bind].
  - destruct (newArray (JSArray.get (numStaves this) p)) as [a |] eqn:Ha; cbn [bind]; [| done].
    intros [= <- <-]. eexists. split; [apply Hstored |]. split.
    + by rewrite get_set, decide_True.
    + intros s Hs. rewrite get_set, decide_False by done. by eapply newArray_holes.
  - intros [= <- <-]. eexists. split; [apply Hstored |]. split.
    + by rewrite get_set, decide_True.
    + intros s Hs. by rewrite get_set, decide_False by done.
  - destruct (newArray (JSArray.get (numStaves this) p)) as [a |] eqn:Ha; cbn [bind]; [| done].
    intros [= <- <-]. eexists. split; [apply Hstored |]. split.
    + by rewrite get_set, decide_True.
    + intros s Hs. rewrite get_set, decide_False by done. by eapply newArray_holes.
Qed.

(** ** The type child *)

Section TypeChild.

Variable RESOLUTION : Z.
Variable attrs : Attributes.

Lemma parseNoteChild_keeps_duration (st st' : Decoding) (elem : Node) :
  parseNoteChild RESOLUTION attrs st elem = Ok st' →
  nodeName elem ≠ "type" → nodeName elem ≠ "dot" →
  NoteObj.duration (noteObj st') = NoteObj.duration (noteObj st).
Proof.
  unfold parseNoteChild. cbv zeta.
  repeat match goal with
  | |- context [String.eqb ?a ?b] => destruct (String.eqb_spec a b)
  end;
  intros H Htype Hdot; try done;
  try (by apply parseNotations_shape in H as [-> | [? ->]]);
  unfold parsePitch, parseType, parseDot, parseDuration, parseTimeModification, parseRest,
    parseVoice, parseStaff, parseStem, parseBeam, Assert, firstText, defined, bind in H;
  repeat case_match; simplify_eq; done.
Qed.

Lemma forEach_keeps_duration (l : list Node) (st st' : Decoding) :
  (∀ c, c ∈ l → nodeName c ≠ "type" ∧ nodeName c ≠ "dot") →
  forEach (parseNoteChild RESOLUTION attrs) l st = Ok st' →
  NoteObj.duration (noteObj st') = NoteObj.duration (noteObj st).
Proof.
  revert st. induction l as [| c l IH]; intros st Hl H; simpl in H; [by simplify_eq |].
  destruct (parseNoteChild RESOLUTION attrs st c) as [st1 |] eqn:Hc; simpl in H; [| done].
  destruct (Hl c ltac:(left)) as [Htype Hdot].
  rewrite (IH st1); [| intros c' Hc'; apply Hl; by right | done].
  by apply parseNoteChild_keeps_duration in Hc.
Qed.

Lemma forEach_rest_flag (l : list Node) (st st' : Decoding) :
  forEach (parseNoteChild RESOLUTION attrs) l st = Ok st' →
  NoteObj.rest (noteObj st')
  = NoteObj.rest (noteObj st) || bool_decide (filter (λ c, nodeName c = "rest") l ≠ []).
Proof.
  revert st. induction l as [| c l IH]; intros st H; simpl in H.
  { simplify_eq. rewrite filter_nil, bool_decide_eq_false_2 by auto. by rewrite orb_false_r. }
  destruct (parseNoteChild RESOLUTION attrs st c) as [st1 |] eqn:Hc; simpl in H; [| done].
  rewrite (IH st1 H), filter_cons.
  destruct (decide (nodeName c = "rest")) as [Hname | Hname].
  - rewrite (bool_decide_eq_true_2 (c :: _ ≠ [])) by done. rewrite orb_true_r.
    rewrite parseNoteChild_rest in Hc by done. simplify_eq.
    by destruct (displayKey c).
  - apply parseNoteChild_frame in Hc as (_ & Hrest & _). by rewrite (Hrest Hname).
Qed.

Lemma finishNote_duration (st : Decoding) :
  NoteObj.duration (finishNote attrs st) = NoteObj.duration (noteObj st).
Proof. unfold finishNote. cbv zeta. repeat case_match; reflexivity. Qed.

Lemma durationOfType_typeCode (type : string) :
  durationOfType type
  = match typeCode type with
    | Some code => Some (DurationString code)
    | None =>
        if bool_decide (type ∈ objectPrototype) then Some (DurationMember type) else None
    end.
Proof.
  unfold durationOfType, typeCode, typeCodes.
  by destruct (List.find _ _).
Qed.

(** X20.  The type child.  When no [<type>] and no [<dot>] child
    follows the [<type>] child of a note, the duration of the decoded
    note is read off the text of that child.  For the name of a note
    type it is the code of the type.  For the name of a member of
    [Object.prototype] (constructor, toString, ...), which the table
    inherits, it is that member, no string.  For any other text there is
    no duration.  When a [<rest>] child comes before the [<type>] child,
    the letter r follows: the code, the text the engine prints the member
    as, or the text undefined.  A [<rest>] child after the [<type>] child
    adds no r. *)
Theorem parseNote_type (attributes : list (string * string)) (before after : list Node)
    (type : Node) (decoded : NoteObj.t) :
  nodeName type = "type" →
  (∀ c, c ∈ after → nodeName c ≠ "type" ∧ nodeName c ≠ "dot") →
  parseNote RESOLUTION (noteOf attributes (before ++ type :: after)) attrs = Ok decoded →
  NoteObj.duration decoded
  = typeDuration (bool_decide (childrenNamed "rest" (noteOf attributes before) ≠ [])) type.
Proof.
  intros Hname Hafter. unfold parseNote, noteOf, childrenNamed. simpl childNodes.
  rewrite forEach_app.
  destruct (forEach (parseNoteChild RESOLUTION attrs) before _) as [st1 |] eqn:Hbefore;
    cbn [bind]; [| done].
  apply forEach_rest_flag in Hbefore. simpl in Hbefore.
  simpl forEach.
  assert (Htype : parseNoteChild RESOLUTION attrs st1 type = parseType st1 type).
  { unfold parseNoteChild. rewrite Hname. by closed_names. }
  rewrite Htype. unfold parseType. cbv zeta. cbn [bind].
  destruct (forEach (parseNoteChild RESOLUTION attrs) after _) as [st2 |] eqn:Hloop;
    cbn [bind]; [| done].
  intros [= <-]. rewrite finishNote_duration.
  rewrite (forEach_keeps_duration _ _ _ Hafter Hloop). simpl.
  rewrite Hbefore, durationOfType_typeCode. unfold typeDuration. cbv zeta.
  destruct (typeCode (textContent type)) as [code |];
    [by destruct (bool_decide (filter _ before ≠ [])) |].
  destruct (bool_decide (textContent type ∈ objectPrototype));
    by destruct (bool_decide (filter _ before ≠ [])).
Qed.

End TypeChild.

(** ** The pitch child *)

Section PitchChild.

Variable RESOLUTION : Z.
Variable attrs : Attributes.

Lemma forEach_keeps_keys (l : list Node) (st st' : Decoding) :
  (∀ c, c ∈ l → nodeName c ≠ "pitch" ∧ nodeName c ≠ "rest") →
  forEach (parseNoteChild RESOLUTION attrs) l st = Ok st' →
  NoteObj.keys (noteObj st') = NoteObj.keys (noteObj st).
Proof.
  revert st. induction l as [| c l IH]; intros st Hl H; simpl in H; [by simplify_eq |].
  destruct (parseNoteChild RESOLUTION attrs st c) as [st1 |] eqn:Hc; simpl in H; [| done].
  destruct (Hl c ltac:(left)) as [Hpitch Hrest].
  rewrite (IH st1); [| intros c' Hc'; apply Hl; by right | done].
  apply parseNoteChild_frame in Hc as (_ & _ & Hkeys & _). by apply Hkeys.
Qed.

Lemma finishNote_keys (st : Decoding) (keys : list string) :
  NoteObj.keys (noteObj st) = Some keys → NoteObj.keys (finishNote attrs st) = Some keys.
Proof.
  intros Hkeys. unfold finishNote. cbv zeta.
  destruct (truthy (num_notes st) && truthy (beats_occupied st)); simpl;
    rewrite Hkeys, bool_decide_eq_false_2, andb_false_r by done; simpl; done.
Qed.

(** X21.  The pitch child.  When no [<pitch>] and no [<rest>] child
    follows the [<pitch>] child of a note that is decoded, the pitch has
    a step and an octave and the one key of the note is the step, the
    accidental (one or two sharps or flats for an [<alter>] of 1, 2, -1
    or -2, none otherwise), a slash and the octave read as an integer. *)
Theorem parseNote_pitch (attributes : list (string * string)) (before after : list Node)
    (pitch : Node) (decoded : NoteObj.t) :
  nodeName pitch = "pitch" →
  (∀ c, c ∈ after → nodeName c ≠ "pitch" ∧ nodeName c ≠ "rest") →
  parseNote RESOLUTION (noteOf attributes (before ++ pitch :: after)) attrs = Ok decoded →
  ∃ step octave,
    firstText pitch "step" = Ok step ∧
    firstText pitch "octave" = Ok octave ∧
    NoteObj.keys decoded = Some [pitchKey pitch step octave].
Proof.
  intros Hname Hafter. unfold parseNote, noteOf. simpl childNodes.
  rewrite forEach_app.
  destruct (forEach (parseNoteChild RESOLUTION attrs) before _) as [st1 |];
    cbn [bind]; [| done].
  simpl forEach.
  assert (Hpitch : parseNoteChild RESOLUTION attrs st1 pitch = parsePitch st1 pitch).
  { unfold parseNoteChild. rewrite Hname. by closed_names. }
  rewrite Hpitch. unfold parsePitch. cbv zeta.
  destruct (firstText pitch "step") as [step |]; cbn [bind]; [| done].
  destruct (firstText pitch "octave") as [octave |]; cbn [bind]; [| done].
  destruct (forEach (parseNoteChild RESOLUTION attrs) after _) as [st2 |] eqn:Hloop;
    cbn [bind]; [| done].
  intros [= <-]. exists step, octave. split; [done |]. split; [done |].
  apply finishNote_keys. rewrite (forEach_keeps_keys _ _ _ Hafter Hloop). simpl.
  unfold pitchKey, accidental. do 2 f_equal.
  destruct (head (getElementsByTagName pitch "alter")) as [alter |]; [| done].
  destruct (parseInt (textContent alter)) as [| [| [| [] | ] | [| [] | ]]];
    rewrite ?append_assoc; done.
Qed.

End PitchChild.

(** * Rests, voices and chord notes, over whole notes and measures *)

(** ** The voices of a materialized part *)

Lemma afterLast_snoc {A : Type} (P : A → bool) (l : list A) (x : A) :
  afterLast P (l ++ [x]) = if P x then [] else afterLast P l ++ [x].
Proof.
  induction l as [| a l IH]; simpl.
  - by destruct (P x).
  - rewrite existsb_app. simpl. rewrite orb_false_r, IH.
    destruct (P x); simpl.
    + by rewrite orb_true_r.
    + rewrite orb_false_r. destruct (existsb P l); [done |]. by destruct (P a).
Qed.

Lemma kept_snoc (v : Z) (notes : list NoteObj.t) (noteObj : NoteObj.t) :
  kept v (notes ++ [noteObj])
  = if dropsVoice v noteObj then []
    else kept v notes ++ (if decide (voiceNumber noteObj = v) then [noteObj] else []).
Proof.
  unfold kept. rewrite afterLast_snoc.
  destruct (dropsVoice v noteObj); [done |].
  rewrite filter_app, filter_cons, filter_nil.
  by destruct (decide (voiceNumber noteObj = v)).
Qed.

(** The voice [v] holds a note exactly when a note of the voice id [v]
    has no note after it that drops the voice. *)
Lemma kept_preceded (v : Z) (notes : list NoteObj.t) :
  kept v notes ≠ [] ↔
  ∃ i noteObj,
    notes !! i = Some noteObj ∧ voiceNumber noteObj = v ∧
    ∀ j later, (i < j)%nat → notes !! j = Some later → dropsVoice v later = false.
Proof.
  induction notes as [| n notes IH] using rev_ind.
  { split; [done |]. by intros (i & noteObj & Hi & _). }
  rewrite kept_snoc. split.
  - destruct (dropsVoice v n) eqn:Hdrops; [done |]. intros Hkept.
    destruct (decide (voiceNumber n = v)) as [Hn | Hn].
    + exists (length notes), n. split; [by rewrite list_lookup_middle |]. split; [done |].
      intros j later Hj Hlater. apply lookup_lt_Some in Hlater.
      rewrite length_app in Hlater. simpl in Hlater. lia.
    + rewrite app_nil_r in Hkept. apply IH in Hkept as (i & noteObj & Hi & Hv & Hlater).
      exists i, noteObj. split; [by apply lookup_app_l_Some |]. split; [done |].
      intros j later Hj Hjl.
      destruct (decide (j < length notes)%nat) as [Hlt | Hge].
      * rewrite lookup_app_l in Hjl by done. by apply (Hlater j).
      * pose proof (lookup_lt_Some _ _ _ Hjl) as Hlen. rewrite length_app in Hlen.
        simpl in Hlen. assert (j = length notes) as -> by lia.
        rewrite list_lookup_middle in Hjl by done. by simplify_eq.
  - intros (i & noteObj & Hi & Hv & Hlater).
    destruct (decide (i < length notes)%nat) as [Hlt | Hge].
    + rewrite (Hlater (length notes) n Hlt) by (by rewrite list_lookup_middle).
      rewrite lookup_app_l in Hi by done.
      assert (Hkept : kept v notes ≠ []).
      { apply IH. exists i, noteObj. split; [done |]. split; [done |].
        intros j later Hj Hjl. apply (Hlater j); [done |]. by apply lookup_app_l_Some. }
      intros Hnil. by apply app_eq_nil in Hnil as [? _].
    + pose proof (lookup_lt_Some _ _ _ Hi) as Hlen. rewrite length_app in Hlen.
      simpl in Hlen. assert (i = length notes) as -> by lia.
      rewrite list_lookup_middle in Hi by done. simplify_eq.
      assert (Hdrops : dropsVoice (voiceNumber noteObj) noteObj = false).
      { unfold dropsVoice. destruct (1 <=? voiceNumber noteObj); simpl; lia. }
      rewrite Hdrops, decide_True by done.
      intros Hnil. by apply app_eq_nil in Hnil as [_ ?].
Qed.















(** ** The loop over the note elements *)




Section Voices.

Variable RESOLUTION : Z.









End Voices.





(** ** Rests on their staff *)

Section RestPosition.

Variable RESOLUTION : Z.
Variable attrs : Attributes.




End RestPosition.


(** ** Worked examples of the further properties *)

(** A score whose [<key>] has no [<fifths>], as a document and as a
    string read by a [DOMParser]; and a string in a window without a
    parser. *)
Lemma parse_errors_witness :
  (parse noParser newMusicXML (DataDocument keylessScore) = Err (TypeError "fifths") ∧
   attributeError (TypeError "fifths")) ∧
  (parse (readsAs keylessScore) newMusicXML (DataString "<score-partwise/>")
   = Err (TypeError "fifths") ∧
   attributeError (TypeError "fifths")) ∧
  ∃ e, parse noParser newMusicXML (DataString "<score-partwise/>") = Err e ∧ e = noXMLParser.
Proof.
  split; [| split].
  - assert (H : parse noParser newMusicXML (DataDocument keylessScore)
                = Err (TypeError "fifths")) by (vm_compute; reflexivity).
    split; [exact H |].
    destruct (parse_errors noParser newMusicXML (DataDocument keylessScore) _ dense_empty H)
      as [[Hne _] | [He _]]; [discriminate Hne | exact He].
  - assert (H : parse (readsAs keylessScore) newMusicXML (DataString "<score-partwise/>")
                = Err (TypeError "fifths")) by (vm_compute; reflexivity).
    split; [exact H |].
    destruct (parse_errors (readsAs keylessScore) newMusicXML (DataString "<score-partwise/>")
                _ dense_empty H) as [[Hne _] | [He _]]; [discriminate Hne | exact He].
  - destruct (parse noParser newMusicXML (DataString "<score-partwise/>")) as [this | e] eqn:E;
      [vm_compute in E; discriminate |].
    exists e. split; [reflexivity |].
    exact (parse_errors noParser newMusicXML (DataString "<score-partwise/>") e dense_empty E).
Defined.

Lemma parseNote_errors_witness :
  ∃ elem, elem ∈ childNodes badBeamNote ∧
          childError elem (RERR "RuntimeError" "Bad beam in MusicXML: middle").
Proof.
  apply (proj1 (parseNote_errors sampleResolution noAttributes badBeamNote)).
  vm_compute. reflexivity.
Defined.

Lemma parseNote_keys_witness :
  ∃ noteObj,
    parseNote sampleResolution wholeRest bassClef = Ok noteObj ∧
    ∃ key, NoteObj.keys noteObj = Some [key].
Proof.
  destruct (parseNote sampleResolution wholeRest bassClef) as [noteObj |] eqn:E;
    [| vm_compute in E; discriminate].
  exists noteObj. split; [reflexivity |].
  apply (parseNote_keys sampleResolution bassClef wholeRest noteObj E).
  right. vm_compute. discriminate.
Defined.

(** Two dots on a quarter note give "4dd", and on a quarter rest "4ddr";
    one dot on a rest whose [<rest>] follows its [<type>], and whose
    duration has no r, gives "dr". *)
Lemma parseNote_dots_witness :
  (∃ noteObj duration',
     parseNote sampleResolution (noteOf [] [pitched "C" "4"; leaf "type" "quarter"])
       noAttributes = Ok noteObj ∧
     parseNote sampleResolution
       (noteOf [] ([pitched "C" "4"; leaf "type" "quarter"] ++ replicate 2 (elem "dot" [])))
       noAttributes
     = Ok (NoteObj.set_duration (Some duration') noteObj) ∧
     durationText (λ _, "") duration' = Some "4dd") ∧
  (∃ noteObj duration',
     parseNote sampleResolution (noteOf [] [elem "rest" []; leaf "type" "quarter"])
       noAttributes = Ok noteObj ∧
     parseNote sampleResolution
       (noteOf [] ([elem "rest" []; leaf "type" "quarter"] ++ replicate 2 (elem "dot" [])))
       noAttributes
     = Ok (NoteObj.set_duration (Some duration') noteObj) ∧
     durationText (λ _, "") duration' = Some "4ddr") ∧
  (∃ noteObj duration',
     parseNote sampleResolution (noteOf [] [leaf "type" "quarter"; elem "rest" []])
       noAttributes = Ok noteObj ∧
     parseNote sampleResolution
       (noteOf [] ([leaf "type" "quarter"; elem "rest" []] ++ replicate 1 (elem "dot" [])))
       noAttributes
     = Ok (NoteObj.set_duration (Some duration') noteObj) ∧
     durationText (λ _, "") duration' = Some "dr").
Proof.
  split; [| split].
  - destruct (parseNote sampleResolution (noteOf [] [pitched "C" "4"; leaf "type" "quarter"])
                noAttributes) as [noteObj |] eqn:E; [| vm_compute in E; discriminate].
    pose proof (parseNote_dots sampleResolution noAttributes []
                  [pitched "C" "4"; leaf "type" "quarter"] (elem "dot" []) 2 noteObj
                  eq_refl E) as H.
    exists noteObj. vm_compute in E. injection E as <-. simpl in H.
    destruct H as (duration' & Hrun & Htext).
    exists duration'. split; [reflexivity |]. split; [exact Hrun |].
    exact (Htext (λ _, "") "4" eq_refl).
  - destruct (parseNote sampleResolution (noteOf [] [elem "rest" []; leaf "type" "quarter"])
                noAttributes) as [noteObj |] eqn:E; [| vm_compute in E; discriminate].
    pose proof (parseNote_dots sampleResolution noAttributes []
                  [elem "rest" []; leaf "type" "quarter"] (elem "dot" []) 2 noteObj
                  eq_refl E) as H.
    exists noteObj. vm_compute in E. injection E as <-. simpl in H.
    destruct H as (duration' & Hrun & Htext).
    exists duration'. split; [reflexivity |]. split; [exact Hrun |].
    exact (Htext (λ _, "") "4r" eq_refl).
  - destruct (parseNote sampleResolution (noteOf [] [leaf "type" "quarter"; elem "rest" []])
                noAttributes) as [noteObj |] eqn:E; [| vm_compute in E; discriminate].
    pose proof (parseNote_dots sampleResolution noAttributes []
                  [leaf "type" "quarter"; elem "rest" []] (elem "dot" []) 1 noteObj
                  eq_refl E) as H.
    exists noteObj. vm_compute in E. injection E as <-. simpl in H.
    destruct H as (duration' & Hrun & Htext).
    exists duration'. split; [reflexivity |]. split; [exact Hrun |].
    exact (Htext (λ _, "") "4" eq_refl).
Defined.

Lemma parseAttributes_cell_witness :
  ∃ this' attrObject,
    parseAttributes 0 0 pianoBlock newMusicXML = Ok (this', attrObject) ∧
    measures this' = measures newMusicXML ∧
    snapshot this' 1 0 = None ∧
    JSArray.get (numStaves this') 1 = None.
Proof.
  destruct (parseAttributes 0 0 pianoBlock newMusicXML) as [[this' attrObject] |] eqn:E;
    [| vm_compute in E; discriminate].
  exists this', attrObject. split; [reflexivity |].
  destruct (parseAttributes_cell 0 0 pianoBlock newMusicXML this' attrObject E)
    as (Hm & _ & Hs & Hq & _).
  split; [exact Hm |]. split.
  - rewrite Hs; [reflexivity | lia].
  - rewrite Hq; [reflexivity | lia].
Defined.

Lemma parseAttributes_declares_witness :
  ∃ this' attrObject,
    parseAttributes 0 0 pianoBlock newMusicXML = Ok (this', attrObject) ∧
    divisions (getAttributes this' 0 0) = Some (Int 2) ∧
    key (getAttributes this' 0 0) = Some (mkKey (Int (-1))) ∧
    time (getAttributes this' 0 0) = None.
Proof.
  destruct (parseAttributes 0 0 pianoBlock newMusicXML) as [[this' attrObject] |] eqn:E;
    [| vm_compute in E; discriminate].
  exists this', attrObject. split; [reflexivity |].
  destruct (parseAttributes_declares 0 0 pianoBlock newMusicXML this' attrObject E)
    as (Hd & Hk & Ht & _).
  rewrite Hd, Hk, Ht. vm_compute. repeat split; reflexivity.
Defined.

Lemma parse_numStaves_witness :
  JSArray.get (numStaves duo) 0 = Some (Int 2) ∧
  JSArray.get (numStaves duo) 1 = Some (Int 1) ∧
  JSArray.get (numStaves duo) 2 = None.
Proof.
  assert (Hparse : parse noParser newMusicXML (DataDocument duoScore) = Ok duo)
    by (vm_compute; reflexivity).
  assert (Hvalid : isValid duo = Some true) by (vm_compute; reflexivity).
  rewrite !(parse_numStaves noParser duoScore duo Hparse Hvalid).
  vm_compute. repeat split; reflexivity.
Defined.

Lemma parse_measures_witness :
  getNumberOfMeasures duo = 2%nat ∧
  cell duo 1 0 = nthMeasure (partNodes duoScore) 1 0 ∧
  cell duo 1 1 = None.
Proof.
  assert (Hparse : parse noParser newMusicXML (DataDocument duoScore) = Ok duo)
    by (vm_compute; reflexivity).
  assert (Hvalid : isValid duo = Some true) by (vm_compute; reflexivity).
  destruct (parse_measures noParser duoScore duo Hparse Hvalid) as (_ & Hn & Hcell & _).
  split; [rewrite Hn; reflexivity |]. split; [apply Hcell |].
  rewrite Hcell. reflexivity.
Defined.

Lemma parse_tidy_witness :
  isValid duo = Some true ↔ nonIncreasing (measureCounts duoScore).
Proof.
  assert (Hparse : parse noParser newMusicXML (DataDocument duoScore) = Ok duo)
    by (vm_compute; reflexivity).
  apply (parse_tidy noParser duoScore duo); [| exact Hparse].
  unfold tidy. apply (bool_decide_unpack _). vm_compute. exact I.
Defined.

Lemma appearsValid_document_witness :
  parse noParser newMusicXML (DataDocument (elem "score-timewise" [])) = Err notPartwise.
Proof.
  apply (proj1 (appearsValid_document noParser (elem "score-timewise" []) newMusicXML dense_empty)).
  reflexivity.
Defined.

Lemma getMeasure_parts_witness :
  ∃ measure,
    getMeasure sampleResolution duo 1 = Ok measure ∧
    length (Measure.parts measure) = 1%nat ∧
    ∀ part, Measure.parts measure !! 0%nat = Some part →
            Measure.numberOfStaves part = Some (Int 2).
Proof.
  assert (Hparse : parse noParser newMusicXML (DataDocument duoScore) = Ok duo)
    by (vm_compute; reflexivity).
  assert (Hvalid : isValid duo = Some true) by (vm_compute; reflexivity).
  destruct (getMeasure sampleResolution duo 1) as [measure |] eqn:E;
    [| vm_compute in E; discriminate].
  exists measure. split; [reflexivity |].
  destruct (getMeasure_parts sampleResolution noParser duoScore duo 1 measure Hparse Hvalid E)
    as (_ & Hlen & Hparts).
  split; [rewrite Hlen; reflexivity |].
  intros part Hpart. destruct (Hparts 0%nat part Hpart) as (partNode & Hnode & _ & Hn & _).
  vm_compute in Hnode. injection Hnode as <-. rewrite Hn. reflexivity.
Defined.

Lemma getMeasure_errors_witness :
  getMeasure sampleResolution duo 2 = Err (TypeError "measures[m]") ∧
  (getNumberOfMeasures duo ≤ 2)%nat.
Proof.
  assert (Hparse : parse noParser newMusicXML (DataDocument duoScore) = Ok duo)
    by (vm_compute; reflexivity).
  assert (Hvalid : isValid duo = Some true) by (vm_compute; reflexivity).
  assert (H : getMeasure sampleResolution duo 2 = Err (TypeError "measures[m]"))
    by (vm_compute; reflexivity).
  split; [exact H |].
  destruct (getMeasure_errors sampleResolution noParser duoScore duo 2 _ Hparse Hvalid H)
    as [[Hle _] | [Hlt _]]; [exact Hle |].
  vm_compute in Hlt. lia.
Defined.

Lemma parse_declarations_witness :
  divisions (getAttributes duo 1 0) = Some (Int 2) ∧
  key (getAttributes duo 1 0) = Some (mkKey (Int (-1))) ∧
  time (getAttributes duo 1 0) = None.
Proof.
  assert (Hparse : parse noParser newMusicXML (DataDocument duoScore) = Ok duo)
    by (vm_compute; reflexivity).
  assert (Hvalid : isValid duo = Some true) by (vm_compute; reflexivity).
  destruct (parse_declarations noParser duoScore duo 1 0
              (elem "part"
                 [elem "measure"
                    [pianoBlock;
                     elem "note" [pitched "C" "4"; leaf "duration" "2"; leaf "type" "quarter"]];
                  elem "measure"
                    [elem "note" [pitched "D" "4"; leaf "duration" "2"; leaf "type" "quarter"]]])
              Hparse Hvalid eq_refl) as (-> & -> & ->).
  vm_compute. repeat split; reflexivity.
Defined.

Lemma parseNote_fields_witness :
  ∃ decoded,
    parseNote sampleResolution beamedNote fourDivisions = Ok decoded ∧
    NoteObj.voice decoded = Some 2 ∧
    NoteObj.stave decoded = Some 1 ∧
    NoteObj.stem_direction decoded = Some 1 ∧
    NoteObj.beam decoded = Some "begin" ∧
    NoteObj.chord decoded = true.
Proof.
  destruct (parseNote sampleResolution beamedNote fourDivisions) as [decoded |] eqn:E;
    [| vm_compute in E; discriminate].
  exists decoded. split; [reflexivity |].
  destruct (parseNote_fields sampleResolution fourDivisions beamedNote decoded E)
    as (-> & -> & -> & -> & ->).
  vm_compute. repeat split; reflexivity.
Defined.

(** In [duo] the clefs of the piano part are treble and bass from the
    measure 0 on; a bass clef for the second staff read at the measure 1
    leaves the first staff without a clef there. *)
Lemma parseAttribute_clef_witness :
  (∃ a, clef (getAttributes duo 1 0) = Some (ClefPerStaff a) ∧
        JSArray.get a 0 = Some (Some treble)) ∧
  ∃ this' attrObject a,
    parseAttribute 1 0 secondStaffClef duo = Ok (this', attrObject) ∧
    clef (getAttributes this' 1 0) = Some (ClefPerStaff a) ∧
    JSArray.get a 1 = Some (Some bass) ∧
    JSArray.get a 0 = None.
Proof.
  split; [eexists; split; vm_compute; reflexivity |].
  destruct (parseAttribute 1 0 secondStaffClef duo) as [[this' attrObject] |] eqn:E;
    [| vm_compute in E; discriminate].
  destruct (parseAttribute_clef 1 0 secondStaffClef duo this' attrObject eq_refl E)
    as (a & Hclef & Hslot & Hother).
  exists this', attrObject, a. split; [reflexivity |]. split; [exact Hclef |].
  split; [exact Hslot |]. rewrite (Hother 0%nat); [reflexivity | discriminate].
Defined.

(** A rest of a type the table has not: the duration is the text
    undefined followed by r.  A note of the type constructor: the
    duration is the member of that name, and on a rest the text of the
    member followed by r. *)
Lemma parseNote_type_witness :
  (∃ decoded,
     parseNote sampleResolution (noteOf [] ([elem "rest" []] ++ [leaf "type" "breve"]))
       noAttributes = Ok decoded ∧
     NoteObj.duration decoded = Some (DurationString "undefinedr")) ∧
  (∃ decoded,
     parseNote sampleResolution (noteOf [] ([] ++ [leaf "type" "constructor"]))
       noAttributes = Ok decoded ∧
     NoteObj.duration decoded = Some (DurationMember "constructor")) ∧
  (∃ decoded edit,
     parseNote sampleResolution (noteOf [] ([elem "rest" []] ++ [leaf "type" "constructor"]))
       noAttributes = Ok decoded ∧
     NoteObj.duration decoded = Some (DurationMemberText "constructor" edit) ∧
     edit "function Object() { [native code] }" = "function Object() { [native code] }r").
Proof.
  assert (Hnil : ∀ c : Node, c ∈ [] → nodeName c ≠ "type" ∧ nodeName c ≠ "dot").
  { intros c Hc. by apply elem_of_nil in Hc. }
  split; [| split].
  - destruct (parseNote sampleResolution
                (noteOf [] ([elem "rest" []] ++ [leaf "type" "breve"])) noAttributes)
      as [decoded |] eqn:E; [| vm_compute in E; discriminate].
    exists decoded. split; [reflexivity |].
    rewrite (parseNote_type sampleResolution noAttributes [] [elem "rest" []] []
               (leaf "type" "breve") decoded eq_refl Hnil E). reflexivity.
  - destruct (parseNote sampleResolution
                (noteOf [] ([] ++ [leaf "type" "constructor"])) noAttributes)
      as [decoded |] eqn:E; [| vm_compute in E; discriminate].
    exists decoded. split; [reflexivity |].
    rewrite (parseNote_type sampleResolution noAttributes [] [] []
               (leaf "type" "constructor") decoded eq_refl Hnil E). reflexivity.
  - destruct (parseNote sampleResolution
                (noteOf [] ([elem "rest" []] ++ [leaf "type" "constructor"])) noAttributes)
      as [decoded |] eqn:E; [| vm_compute in E; discriminate].
    exists decoded, (λ t, t ++ "r")%string. split; [reflexivity |].
    rewrite (parseNote_type sampleResolution noAttributes [] [elem "rest" []] []
               (leaf "type" "constructor") decoded eq_refl Hnil E). split; reflexivity.
Defined.

Lemma parseNote_pitch_witness :
  ∃ decoded,
    parseNote sampleResolution (noteOf [] ([] ++ flatPitch :: [leaf "type" "quarter"]))
      noAttributes = Ok decoded ∧
    NoteObj.keys decoded = Some ["Bb/3"].
Proof.
  destruct (parseNote sampleResolution (noteOf [] ([] ++ flatPitch :: [leaf "type" "quarter"]))
              noAttributes) as [decoded |] eqn:E; [| vm_compute in E; discriminate].
  exists decoded. split; [reflexivity |].
  destruct (parseNote_pitch sampleResolution noAttributes [] [] [leaf "type" "quarter"]
              flatPitch decoded eq_refl) as (step & octave & Hstep & Hoctave & Hkeys).
  - intros c Hc. apply list_elem_of_singleton in Hc as ->. split; discriminate.
  - exact E.
  - vm_compute in Hstep, Hoctave. injection Hstep as <-. injection Hoctave as <-.
    rewrite Hkeys. vm_compute. reflexivity.
Defined.
